(** * Keystatic object store and tree diff: a shallow embedding

    The development follows two source modules of the repository:
    - the object store (persistent tree/blob caches, the extra-roots
      registry, the garbage collector, [collectTrees] and
      [constructTreeFromStoredTrees]);
    - the commit dialog's [getLeafPaths] and [diffTrees].

    JavaScript [Map]s and [Set]s are insertion ordered, so both are modelled
    as lists: a [Map<string, V>] is an association list whose [set] keeps the
    position of a key that is already present, a [Set] is a list whose [add]
    ignores a member that is already present. *)

From Stdlib Require Import List String Ascii Bool Arith Lia ZArith Permutation.
Import ListNotations.
Open Scope string_scope.
Open Scope list_scope.

Set Implicit Arguments.

(** ** Insertion-ordered maps with string keys *)

Module JsMap.
Definition t (V : Type) := list (string * V).

Definition empty {V} : t V := [].

Fixpoint get {V} (m : t V) (k : string) : option V :=
  match m with
  | [] => None
  | (k', v) :: r => if String.eqb k' k then Some v else get r k
  end.

Definition has {V} (m : t V) (k : string) : bool :=
  match get m k with Some _ => true | None => false end.

Fixpoint set {V} (m : t V) (k : string) (v : V) : t V :=
  match m with
  | [] => [(k, v)]
  | (k', v') :: r =>
      if String.eqb k' k then (k', v) :: r else (k', v') :: set r k v
  end.

Definition delete {V} (m : t V) (k : string) : t V :=
  filter (fun kv => negb (String.eqb (fst kv) k)) m.

Definition keys {V} (m : t V) : list string := map fst m.
Definition values {V} (m : t V) : list V := map snd m.

(** [new Map(entries)]: the entries are set one after the other. *)
Definition of_entries {V} (l : list (string * V)) : t V :=
  fold_left (fun m kv => set m (fst kv) (snd kv)) l empty.

(** The invariant of a JavaScript [Map]: no key occurs twice. *)
Definition wf {V} (m : t V) : Prop := NoDup (keys m).
End JsMap.

(** ** Insertion-ordered sets *)

Module JsSet.
Section Generic.
Variable K : Type.
Variable eqb : K -> K -> bool.

Definition has (s : list K) (k : K) : bool := existsb (eqb k) s.

Definition add (s : list K) (k : K) : list K :=
  if has s k then s else s ++ [k].

Definition delete (s : list K) (k : K) : list K :=
  filter (fun x => negb (eqb k x)) s.

(** [new Set(iterable)] *)
Definition of_list (l : list K) : list K := fold_left add l [].
End Generic.
End JsSet.

(** ** Paths *)

Definition slash : ascii := "/"%char.

(** The template literal [`${path}/${sub}`]. *)
Definition joinPath (path sub : string) : string := path ++ "/" ++ sub.

Fixpoint has_slash (s : string) : bool :=
  match s with
  | EmptyString => false
  | String c r => if Ascii.eqb c slash then true else has_slash r
  end.

(** A path segment is a string without [/]. *)
Definition is_segment (s : string) : bool := negb (has_slash s).

(** ** Tree entries and tree nodes *)

Inductive EntryType := blob | symlink | tree.

Definition EntryType_eqb (a b : EntryType) : bool :=
  match a, b with
  | blob, blob | symlink, symlink | tree, tree => true
  | _, _ => false
  end.

Module TreeEntry.
Record t := mk { path : string; mode : string; sha : string; type : EntryType }.
End TreeEntry.

Module StoredTreeEntry.
Record t := mk { path : string; sha : string; mode : string }.
End StoredTreeEntry.

#[local] Unset Elimination Schemes.
Inductive TreeNode :=
  mkTreeNode (entry : TreeEntry.t) (children : option (list (string * TreeNode))).
#[local] Set Elimination Schemes.

Definition entry (n : TreeNode) : TreeEntry.t :=
  match n with mkTreeNode e _ => e end.

Definition children (n : TreeNode) : option (JsMap.t TreeNode) :=
  match n with mkTreeNode _ c => c end.

(** ** The commit dialog: [getLeafPaths] and [diffTrees] *)

(** The body of the loop of [getLeafPaths] for one [[path, node]] pair of the
    map; the recursion of the source goes through the children of [node]. *)
Fixpoint getLeafPathsEntry (path : string) (node : TreeNode) : list string :=
  match node with
  | mkTreeNode e ch =>
      match TreeEntry.type e with
      | tree =>
          match ch with
          | None => []
          | Some c =>
              map (joinPath path)
                  (flat_map (fun pn => getLeafPathsEntry (fst pn) (snd pn)) c)
          end
      | _ => [path]
      end
  end.

Definition getLeafPaths (tree : JsMap.t TreeNode) : list string :=
  flat_map (fun pn => getLeafPathsEntry (fst pn) (snd pn)) tree.

Record Addition := mkAddition { a_path : string; a_sha : string }.

Record Diff := mkDiff { additions : list Addition; deletions : list string }.

Definition prefixAddition (path : string) (a : Addition) : Addition :=
  {| a_path := joinPath path (a_path a); a_sha := a_sha a |}.

(** [!oldNode || oldNode.entry.sha !== node.entry.sha] *)
Definition changed (oldNode : option TreeNode) (node : TreeNode) : bool :=
  match oldNode with
  | None => true
  | Some o => negb (String.eqb (TreeEntry.sha (entry o)) (TreeEntry.sha (entry node)))
  end.

(** [oldNode?.children ?? new Map()] *)
Definition oldChildren (oldNode : option TreeNode) : JsMap.t TreeNode :=
  match oldNode with
  | Some (mkTreeNode _ (Some c)) => c
  | _ => JsMap.empty
  end.

(** The second loop of [diffTrees]: what one surviving member of the
    [deletions] set pushes onto [allDeletions]. *)
Definition deletionPaths (oldTree : JsMap.t TreeNode) (deletion : string) : list string :=
  match JsMap.get oldTree deletion with
  | Some (mkTreeNode e (Some c)) =>
      match TreeEntry.type e with
      | tree => map (joinPath deletion) (getLeafPaths c)
      | _ => [deletion]
      end
  | _ => [deletion]
  end.

(** The state of the first loop: [additions], the [deletions] set and
    [allDeletions]. *)
Record DiffLoop := mkDiffLoop {
  l_additions : list Addition;
  l_deletions : list string;
  l_allDeletions : list string
}.

(** [diffTrees] with its recursive call abstracted: [rec oldNode path node]
    is what the body of the first loop adds for the pair [[path, node]]. *)
Definition diffTreesWith
    (rec : option TreeNode -> string -> TreeNode -> Diff)
    (oldTree newTree : JsMap.t TreeNode) : Diff :=
  let st0 := {| l_additions := [];
                l_deletions := JsSet.of_list String.eqb (JsMap.keys oldTree);
                l_allDeletions := [] |} in
  let st1 :=
    fold_left
      (fun st pn =>
         let r := rec (JsMap.get oldTree (fst pn)) (fst pn) (snd pn) in
         {| l_additions := l_additions st ++ additions r;
            l_deletions := JsSet.delete String.eqb (l_deletions st) (fst pn);
            l_allDeletions := l_allDeletions st ++ deletions r |})
      newTree st0 in
  {| additions := l_additions st1;
     deletions :=
       fold_left (fun all deletion => all ++ deletionPaths oldTree deletion)
                 (l_deletions st1) (l_allDeletions st1) |}.

(** The body of the first loop of [diffTrees] after [deletions.delete(path)]. *)
Fixpoint diffEntry (oldNode : option TreeNode) (path : string) (node : TreeNode)
    {struct node} : Diff :=
  match node with
  | mkTreeNode e ch =>
      if changed oldNode (mkTreeNode e ch) then
        let added :=
          match TreeEntry.type e with
          | blob => [ {| a_path := path; a_sha := TreeEntry.sha e |} ]
          | _ => []
          end in
        match TreeEntry.type e, ch with
        | tree, Some c =>
            let result := diffTreesWith diffEntry (oldChildren oldNode) c in
            {| additions := added ++ map (prefixAddition path) (additions result);
               deletions := map (joinPath path) (deletions result) |}
        | _, _ => {| additions := added; deletions := [] |}
        end
      else {| additions := []; deletions := [] |}
  end.

Definition diffTrees (oldTree newTree : JsMap.t TreeNode) : Diff :=
  diffTreesWith diffEntry oldTree newTree.

(** ** Outcomes of effectful code

    A call returns, throws, or is cut off by the step or depth budget the
    model gives to code that is not structurally recursive. *)

Inductive Exn := SyntaxError | ZodError.

Inductive Outcome (A : Type) :=
  | Returns (a : A)
  | Throws (e : Exn)
  | OutOfFuel.

Arguments Returns {A} a.
Arguments Throws {A} e.
Arguments OutOfFuel {A}.

Definition bind {A B} (c : Outcome A) (k : A -> Outcome B) : Outcome B :=
  match c with
  | Returns a => k a
  | Throws e => Throws e
  | OutOfFuel => OutOfFuel
  end.

Notation "x <- c ;; k" := (bind c (fun x => k))
  (at level 61, c at next level, right associativity).

(** [try { body } catch { handler }] *)
Definition try_catch {A} (body : Outcome A) (handler : Outcome A) : Outcome A :=
  match body with
  | Throws _ => handler
  | other => other
  end.

(** ** JavaScript values, as far as the schemas look at them *)

#[local] Unset Elimination Schemes.
Inductive JsVal :=
  | JUndefined
  | JNull
  | JBool (b : bool)
  | JNum (n : Z)
  | JStr (s : string)
  | JBytes (bytes : list Byte.byte)
  | JArr (items : list JsVal)
  | JObj (fields : list (string * JsVal)).
#[local] Set Elimination Schemes.

(** Keys of an IndexedDB object store. *)
Inductive IDBValidKey :=
  | KNumber (n : Z)
  | KDate (ms : Z)
  | KString (s : string).

Definition IDBValidKey_eqb (a b : IDBValidKey) : bool :=
  match a, b with
  | KNumber x, KNumber y => Z.eqb x y
  | KDate x, KDate y => Z.eqb x y
  | KString x, KString y => String.eqb x y
  | _, _ => false
  end.

(** All-or-nothing map, as the array and record schemas of zod behave. *)
Fixpoint traverse {A B} (f : A -> option B) (l : list A) : option (list B) :=
  match l with
  | [] => Some []
  | x :: r =>
      match f x, traverse f r with
      | Some y, Some ys => Some (y :: ys)
      | _, _ => None
      end
  end.

(** [z.object({ path: z.string(), mode: z.string(), sha: z.string() })] *)
Definition storedTreeEntrySchema (v : JsVal) : option StoredTreeEntry.t :=
  match v with
  | JObj fields =>
      match JsMap.get fields "path", JsMap.get fields "mode", JsMap.get fields "sha" with
      | Some (JStr p), Some (JStr m), Some (JStr s) =>
          Some {| StoredTreeEntry.path := p; StoredTreeEntry.sha := s; StoredTreeEntry.mode := m |}
      | _, _, _ => None
      end
  | _ => None
  end.

(** [treeSchema.safeParse]: [Some data] when [success] holds. *)
Definition treeSchema_safeParse (v : JsVal) : option (list StoredTreeEntry.t) :=
  match v with
  | JArr items => traverse storedTreeEntrySchema items
  | _ => None
  end.

(** A validated tree seen again as a JavaScript value. *)
Definition js_of_storedTree (tree : list StoredTreeEntry.t) : JsVal :=
  JArr (map (fun e => JObj [("path", JStr (StoredTreeEntry.path e));
                            ("mode", JStr (StoredTreeEntry.mode e));
                            ("sha", JStr (StoredTreeEntry.sha e))]) tree).

(** ** The module state: browser storage and [_storedTreeCache] *)

Definition IDBStore := list (IDBValidKey * JsVal).

Definition delMany (ks : list IDBValidKey) (store : IDBStore) : IDBStore :=
  filter (fun kv => negb (JsSet.has IDBValidKey_eqb ks (fst kv))) store.

Record State := mkState {
  localStorage : JsMap.t string;
  blobStore : IDBStore;
  treeStore : IDBStore;
  _storedTreeCache : option (JsMap.t (list StoredTreeEntry.t))
}.

(** What the scan of [getStoredTrees] keeps of the entries of the tree store. *)
Definition scanTrees (entries : IDBStore) : JsMap.t (list StoredTreeEntry.t) :=
  fold_left
    (fun cache st =>
       match treeSchema_safeParse (snd st), fst st with
       | Some data, KString sha => JsMap.set cache sha data
       | _, _ => cache
       end)
    entries JsMap.empty.

Definition getStoredTrees (st : State) : JsMap.t (list StoredTreeEntry.t) * State :=
  match _storedTreeCache st with
  | Some cache => (cache, st)
  | None =>
      let cache := scanTrees (treeStore st) in
      (cache, {| localStorage := localStorage st;
                 blobStore := blobStore st;
                 treeStore := treeStore st;
                 _storedTreeCache := Some cache |})
  end.

(** ** [constructTreeFromStoredTrees] *)

Definition treeMode : string := "040000".
Definition symlinkMode : string := "120000".

Definition innerPathOf (parentPath path : string) : string :=
  (if String.eqb parentPath "" then "" else parentPath ++ "/") ++ path.

Definition leafNode (innerPath : string) (e : StoredTreeEntry.t) : TreeNode :=
  mkTreeNode
    {| TreeEntry.mode := StoredTreeEntry.mode e;
       TreeEntry.path := innerPath;
       TreeEntry.sha := StoredTreeEntry.sha e;
       TreeEntry.type :=
         if String.eqb (StoredTreeEntry.mode e) symlinkMode then symlink else blob |}
    None.

(** The loop over [storedTree]; [rec sha innerPath] is the recursive call and
    [tree] the map built so far. [Returns None] is the early [return;]. *)
Fixpoint constructChildren
    (rec : string -> string -> Outcome (option TreeNode))
    (parentPath : string) (storedTree : list StoredTreeEntry.t)
    (tree : JsMap.t TreeNode) : Outcome (option (JsMap.t TreeNode)) :=
  match storedTree with
  | [] => Returns (Some tree)
  | e :: rest =>
      let innerPath := innerPathOf parentPath (StoredTreeEntry.path e) in
      if String.eqb (StoredTreeEntry.mode e) treeMode then
        child <- rec (StoredTreeEntry.sha e) innerPath ;;
        match child with
        | Some c =>
            constructChildren rec parentPath rest
              (JsMap.set tree (StoredTreeEntry.path e) c)
        | None => Returns None
        end
      else
        constructChildren rec parentPath rest
          (JsMap.set tree (StoredTreeEntry.path e) (leafNode innerPath e))
  end.

(** [depth] bounds the nesting of the recursive calls; [None] is [undefined]. *)
Fixpoint constructTreeFromStoredTrees (depth : nat) (sha : string)
    (trees : JsMap.t (list StoredTreeEntry.t)) (parentPath : string)
    : Outcome (option TreeNode) :=
  match depth with
  | O => OutOfFuel
  | S d =>
      match JsMap.get trees sha with
      | None => Returns None
      | Some storedTree =>
          built <- constructChildren
                     (fun s p => constructTreeFromStoredTrees d s trees p)
                     parentPath storedTree JsMap.empty ;;
          match built with
          | None => Returns None
          | Some t =>
              Returns (Some (mkTreeNode
                {| TreeEntry.mode := treeMode;
                   TreeEntry.path := parentPath;
                   TreeEntry.sha := sha;
                   TreeEntry.type := tree |}
                (Some t)))
          end
      end
  end.

Definition getTreeFromPersistedCache (depth : nat) (sha : string) (st : State)
    : Outcome (option TreeNode) * State :=
  let (stored, st') := getStoredTrees st in
  (constructTreeFromStoredTrees depth sha stored "", st').

(** ** Configuration and the extra-roots registry *)

Record RepoConfig := mkRepoConfig { owner : string; name : string }.

(** Modelled from the spec: [serializeRepoConfig] lives in the repo-config
    module, which is not among the sources; the scope key of a remote
    repository is the canonical [owner/name] string. *)
Definition serializeRepoConfig (repo : RepoConfig) : string :=
  owner repo ++ "/" ++ name repo.

(** [config.storage], by its [kind]. *)
Inductive StorageConfig :=
  | StorageLocal
  | StorageGithub (repo : RepoConfig)
  | StorageCloud.

Record CloudConfig := mkCloudConfig { project : string }.

Record Config := mkConfig { storage : StorageConfig; cloud : option CloudConfig }.

(** [`ks-roots-${key}`] *)
Definition extraRootsKey (config : Config) : string :=
  "ks-roots-" ++
  match storage config with
  | StorageLocal => "local"
  | StorageGithub repo => serializeRepoConfig repo
  | StorageCloud =>
      match cloud config with
      | Some c => if String.eqb (project c) "" then "cloud" else project c
      | None => "cloud"
      end
  end.

(** [new Date(x)]: the date is kept as the string it was built from. *)
Inductive Date := new_Date (x : string).

Module ExtraRoot.
Record t := mk { sha : string; updatedAt : Date }.
End ExtraRoot.

(** [z.object({ sha: z.string(), updatedAt: z.string().transform(...) })] *)
Definition extraRootSchema (v : JsVal) : option ExtraRoot.t :=
  match v with
  | JObj fields =>
      match JsMap.get fields "sha", JsMap.get fields "updatedAt" with
      | Some (JStr s), Some (JStr u) =>
          Some {| ExtraRoot.sha := s; ExtraRoot.updatedAt := new_Date u |}
      | _, _ => None
      end
  | _ => None
  end.

(** [extraRootsSchema.parse]: a record of extra roots, or a thrown [ZodError].
    The result is given as [Object.entries] lists it. *)
Definition extraRootsSchema_parse (v : JsVal) : Outcome (list (string * ExtraRoot.t)) :=
  match v with
  | JObj fields =>
      match traverse (fun kv => option_map (pair (fst kv)) (extraRootSchema (snd kv)))
                     fields with
      | Some result => Returns result
      | None => Throws ZodError
      end
  | _ => Throws ZodError
  end.

(** The [sha]s of a stored tree's entries. *)
Definition entryShas (tree : list StoredTreeEntry.t) : list string :=
  map StoredTreeEntry.sha tree.

(** The marking loop [for (const sha of queue)] of the collector. The
    iterator of a [Set] also visits the members added while it runs, so the
    loop is a walk along a growing list by position [i]. *)
Fixpoint markLoop (fuel i : nat) (queue : list string)
    (blobsToDelete : list IDBValidKey)
    (treesToDelete : JsMap.t (list StoredTreeEntry.t))
    : Outcome (list IDBValidKey * JsMap.t (list StoredTreeEntry.t)) :=
  match fuel with
  | O => OutOfFuel
  | S fuel' =>
      match nth_error queue i with
      | None => Returns (blobsToDelete, treesToDelete)
      | Some sha =>
          if JsSet.has IDBValidKey_eqb blobsToDelete (KString sha) then
            markLoop fuel' (S i) queue
              (JsSet.delete IDBValidKey_eqb blobsToDelete (KString sha))
              treesToDelete
          else
            match JsMap.get treesToDelete sha with
            | Some entries =>
                markLoop fuel' (S i)
                  (fold_left (JsSet.add String.eqb) (entryShas entries) queue)
                  blobsToDelete
                  (JsMap.delete treesToDelete sha)
            | None => markLoop fuel' (S i) queue blobsToDelete treesToDelete
            end
      end
  end.

(** A step budget that the marking loop never exhausts (see
    [markLoop_terminates]). *)
Definition markBudget (queue : list string)
    (trees : JsMap.t (list StoredTreeEntry.t)) : nat :=
  S (List.length queue + list_sum (map (fun kv => S (List.length (snd kv))) trees)).

(** The scan loop of the collector over the map of stored trees. *)
Definition partitionStoredTrees (stored : JsMap.t (list StoredTreeEntry.t))
    : JsMap.t (list StoredTreeEntry.t) * list IDBValidKey :=
  fold_left
    (fun acc st =>
       match treeSchema_safeParse (js_of_storedTree (snd st)) with
       | Some data => (JsMap.set (fst acc) (fst st) data, snd acc)
       | None => (fst acc, snd acc ++ [KString (fst st)])
       end)
    stored (JsMap.empty, []).

(** [_storedTreeCache?.delete(key as string)] *)
Definition cacheDelete (cache : option (JsMap.t (list StoredTreeEntry.t)))
    (key : IDBValidKey) : option (JsMap.t (list StoredTreeEntry.t)) :=
  match cache, key with
  | Some c, KString k => Some (JsMap.delete c k)
  | _, _ => cache
  end.

Section ObjectStore.

(** [JSON.parse]; [None] stands for a thrown [SyntaxError]. *)
Variable JSON_parse : string -> option JsVal.

Definition parseJSON (val : string) : Outcome JsVal :=
  match JSON_parse val with
  | Some v => Returns v
  | None => Throws SyntaxError
  end.

Definition getExtraRoots (config : Config) (st : State)
    : Outcome (JsMap.t ExtraRoot.t) :=
  match JsMap.get (localStorage st) (extraRootsKey config) with
  | None => Returns JsMap.empty
  | Some val =>
      if String.eqb val "" then Returns JsMap.empty
      else
        try_catch
          (parsed <- parseJSON val ;;
           result <- extraRootsSchema_parse parsed ;;
           Returns (JsMap.of_entries result))
          (Returns JsMap.empty)
  end.

Definition garbageCollectGitObjects (config : Config) (_roots : list string)
    (st : State) : Outcome State :=
  extra <- getExtraRoots config st ;;
  let roots := _roots ++ map ExtraRoot.sha (JsMap.values extra) in
  let (stored, st1) := getStoredTrees st in
  let (treesToDelete, invalidTrees) := partitionStoredTrees stored in
  let allBlobs := map fst (blobStore st1) in
  let blobsToDelete := JsSet.of_list IDBValidKey_eqb allBlobs in
  let queue := JsSet.of_list String.eqb roots in
  marked <- markLoop (markBudget queue treesToDelete) 0 queue
              blobsToDelete treesToDelete ;;
  let (blobsToDelete', treesToDelete') := marked in
  let treeKeysToDelete :=
    map KString (JsMap.keys treesToDelete') ++ invalidTrees in
  Returns {| localStorage := localStorage st1;
             blobStore := delMany blobsToDelete' (blobStore st1);
             treeStore := delMany treeKeysToDelete (treeStore st1);
             _storedTreeCache :=
               fold_left cacheDelete treeKeysToDelete (_storedTreeCache st1) |}.

End ObjectStore.

(** ** [collectTrees] and [clearObjectStore] *)

Definition LF : ascii := Ascii.ascii_of_nat 10.
Definition CR : ascii := Ascii.ascii_of_nat 13.

Definition is_line_terminator (c : ascii) : bool :=
  Ascii.eqb c LF || Ascii.eqb c CR.

(** Does [.*\/] match at the start of [s]: is there a [/] before the end of
    the line? *)
Fixpoint slash_in_line (s : string) : bool :=
  match s with
  | EmptyString => false
  | String c r =>
      if is_line_terminator c then false
      else if Ascii.eqb c slash then true
      else slash_in_line r
  end.

(** What follows the greedy match of [.*\/] at the start of [s]. *)
Fixpoint after_last_slash_in_line (s : string) : string :=
  match s with
  | EmptyString => EmptyString
  | String c r => if slash_in_line r then after_last_slash_in_line r else r
  end.

(** [path.replace(/.*\//, '')]: the leftmost match is removed. *)
Fixpoint stripDirectories (s : string) : string :=
  if slash_in_line s then after_last_slash_in_line s
  else
    match s with
    | EmptyString => EmptyString
    | String c r => String c (stripDirectories r)
    end.

Definition storedEntryOf (pn : string * TreeNode) : StoredTreeEntry.t :=
  {| StoredTreeEntry.path := stripDirectories (fst pn);
     StoredTreeEntry.mode := TreeEntry.mode (entry (snd pn));
     StoredTreeEntry.sha := TreeEntry.sha (entry (snd pn)) |}.

Definition AllTrees := list (string * list StoredTreeEntry.t).

(** [collectTrees] with its recursive call abstracted: [rec node allTrees]
    is [collectTrees(entry.entry.sha, entry.children, allTrees)] when the
    node has children, and nothing otherwise. *)
Definition collectTreesWith (rec : TreeNode -> AllTrees -> AllTrees)
    (sha : string) (children : JsMap.t TreeNode) (allTrees : AllTrees) : AllTrees :=
  fold_left (fun all pn => rec (snd pn) all) children allTrees
    ++ [(sha, map storedEntryOf children)].

Fixpoint collectNode (node : TreeNode) (allTrees : AllTrees) {struct node} : AllTrees :=
  match node with
  | mkTreeNode e (Some c) => collectTreesWith collectNode (TreeEntry.sha e) c allTrees
  | mkTreeNode _ None => allTrees
  end.

Definition collectTrees (sha : string) (children : JsMap.t TreeNode)
    (allTrees : AllTrees) : AllTrees :=
  collectTreesWith collectNode sha children allTrees.

Definition clearObjectStore (config : Config) (st : State) : State :=
  {| localStorage := JsMap.delete (localStorage st) (extraRootsKey config);
     blobStore := [];
     treeStore := [];
     _storedTreeCache := _storedTreeCache st |}.

(** ** Well-formed trees and other notions the properties speak about *)

Fixpoint nodupb (l : list string) : bool :=
  match l with
  | [] => true
  | x :: r => negb (existsb (String.eqb x) r) && nodupb r
  end.

(** The keys of a children map: distinct path segments. *)
Definition segmentKeys (m : JsMap.t TreeNode) : bool :=
  forallb is_segment (JsMap.keys m) && nodupb (JsMap.keys m).

(** Every children map below (and including) this one is keyed by distinct
    path segments. *)
Fixpoint wfKeysNode (n : TreeNode) : bool :=
  match n with
  | mkTreeNode _ None => true
  | mkTreeNode _ (Some c) =>
      segmentKeys c && forallb (fun pn => wfKeysNode (snd pn)) c
  end.

Definition wfKeys (m : JsMap.t TreeNode) : bool :=
  segmentKeys m && forallb (fun pn => wfKeysNode (snd pn)) m.



(** [s.startsWith(pre)] *)
Fixpoint startsWith (pre s : string) : bool :=
  match pre, s with
  | EmptyString, _ => true
  | String a pre', String b s' => Ascii.eqb a b && startsWith pre' s'
  | String _ _, EmptyString => false
  end.


(** A node as the tree model has it at key [key] of a directory whose own
    path is [parentPath]: the entry carries the full path, the type follows
    the mode, and children are present exactly for mode [040000]. *)
Fixpoint wfNodeAt (parentPath key : string) (n : TreeNode) : bool :=
  match n with
  | mkTreeNode e ch =>
      is_segment key
      && String.eqb (TreeEntry.path e) (innerPathOf parentPath key)
      && match ch with
         | None =>
             negb (String.eqb (TreeEntry.mode e) treeMode)
             && EntryType_eqb (TreeEntry.type e)
                  (if String.eqb (TreeEntry.mode e) symlinkMode then symlink else blob)
         | Some c =>
             String.eqb (TreeEntry.mode e) treeMode
             && EntryType_eqb (TreeEntry.type e) tree
             && nodupb (JsMap.keys c)
             && forallb (fun pn => wfNodeAt (TreeEntry.path e) (fst pn) (snd pn)) c
         end
  end.

Definition wfTreeAt (parentPath : string) (m : JsMap.t TreeNode) : bool :=
  nodupb (JsMap.keys m)
  && forallb (fun pn => wfNodeAt parentPath (fst pn) (snd pn)) m.

(** Content addressing, as far as the flattened tree shows it: one sha never
    stands for two different entry lists. *)
Definition shaConsistent (allTrees : AllTrees) : Prop :=
  forall sha e1 e2, In (sha, e1) allTrees -> In (sha, e2) allTrees -> e1 = e2.

(** The root node of a tree with the given children. *)
Definition rootNode (sha : string) (c : JsMap.t TreeNode) : TreeNode :=
  mkTreeNode {| TreeEntry.mode := treeMode;
                TreeEntry.path := "";
                TreeEntry.sha := sha;
                TreeEntry.type := tree |} (Some c).

(** The nesting depth of a children map: the depth [constructTreeFromStoredTrees]
    needs to rebuild it. *)
Fixpoint depthNode (n : TreeNode) : nat :=
  match n with
  | mkTreeNode _ None => 0
  | mkTreeNode _ (Some c) => S (list_max (map (fun pn => depthNode (snd pn)) c))
  end.

Definition treeDepth (m : JsMap.t TreeNode) : nat :=
  S (list_max (map (fun pn => depthNode (snd pn)) m)).

(** A torn mapping: [sha] itself, or the sha of a tree-typed entry that is
    transitively referenced from it, has no stored tree. *)
Inductive torn (trees : JsMap.t (list StoredTreeEntry.t)) : string -> Prop :=
  | torn_missing sha :
      JsMap.get trees sha = None -> torn trees sha
  | torn_child sha storedTree e :
      JsMap.get trees sha = Some storedTree ->
      In e storedTree ->
      StoredTreeEntry.mode e = treeMode ->
      torn trees (StoredTreeEntry.sha e) ->
      torn trees sha.

(** No stored tree refers to itself through tree-typed entries: [rank] goes
    down along every such reference. *)
Definition acyclicBy (rank : string -> nat)
    (trees : JsMap.t (list StoredTreeEntry.t)) : Prop :=
  forall sha storedTree e,
    JsMap.get trees sha = Some storedTree ->
    In e storedTree ->
    StoredTreeEntry.mode e = treeMode ->
    rank (StoredTreeEntry.sha e) < rank sha.

(** The statement "a torn mapping makes [constructTreeFromStoredTrees] return
    [undefined]" at one mapping and root. *)
Definition tornReturnsUndefined (trees : JsMap.t (list StoredTreeEntry.t))
    (root : string) : Prop :=
  torn trees root ->
  exists depth, constructTreeFromStoredTrees depth root trees "" = Returns None.

(** The statement "a path that changes type is a delete of the old content"
    at one pair of trees. *)
Definition typeChangeDeletesOld (oldTree newTree : JsMap.t TreeNode) : Prop :=
  forall path oldNode node,
    JsMap.get oldTree path = Some oldNode ->
    JsMap.get newTree path = Some node ->
    TreeEntry.sha (entry oldNode) <> TreeEntry.sha (entry node) ->
    (TreeEntry.type (entry oldNode) = blob ->
     TreeEntry.type (entry node) = tree ->
     In path (deletions (diffTrees oldTree newTree)))
    /\
    (TreeEntry.type (entry oldNode) = tree ->
     TreeEntry.type (entry node) = blob ->
     forall c leaf,
       children oldNode = Some c ->
       In leaf (getLeafPaths c) ->
       In (joinPath path leaf) (deletions (diffTrees oldTree newTree))).

(** Ways in which a persisted extra-roots value is malformed. *)
Definition malformedRecord (v : JsVal) : Prop :=
  match v with
  | JObj fields =>
      (forall s, JsMap.get fields "sha" <> Some (JStr s))
      \/ (forall u, JsMap.get fields "updatedAt" <> Some (JStr u))
  | _ => True
  end.

Inductive malformedExtraRoots (JSON_parse : string -> option JsVal) (val : string) : Prop :=
  | malformed_json :
      JSON_parse val = None -> malformedExtraRoots JSON_parse val
  | malformed_shape v :
      JSON_parse val = Some v ->
      (forall fields, v <> JObj fields) ->
      malformedExtraRoots JSON_parse val
  | malformed_record fields branch v :
      JSON_parse val = Some (JObj fields) ->
      In (branch, v) fields ->
      malformedRecord v ->
      malformedExtraRoots JSON_parse val.

(** The members of the [deletions] set of [diffTrees] that the first loop
    leaves in it. *)
Definition remainingDeletions (oldTree newTree : JsMap.t TreeNode) : list string :=
  fold_left (fun s pn => JsSet.delete String.eqb s (fst pn)) newTree
            (JsSet.of_list String.eqb (JsMap.keys oldTree)).

Definition emptyDiff : Diff := {| additions := []; deletions := [] |}.

(** The old node of a pair, when there is one, is well keyed. *)
Definition wfKeysOld (oldNode : option TreeNode) : bool :=
  match oldNode with
  | Some n => wfKeysNode n
  | None => true
  end.

(** The potential of the marking loop: what is left of the queue, plus, for
    every tree not yet visited, one step and the entries it may enqueue. *)
Definition markPotential (i : nat) (queue : list string)
    (trees : JsMap.t (list StoredTreeEntry.t)) : nat :=
  (List.length queue - i)
  + list_sum (map (fun kv => S (List.length (snd kv))) trees).

(** The stored value of a tree with the single entry [{path, mode, sha}]. *)
Definition singleEntryTree (path mode sha : string) : JsVal :=
  js_of_storedTree
    [ {| StoredTreeEntry.path := path; StoredTreeEntry.sha := sha;
         StoredTreeEntry.mode := mode |} ].

(** The in-memory cache is either not populated yet or holds what a scan of
    the tree store gives. *)
Definition cacheInSync (st : State) : Prop :=
  _storedTreeCache st = None
  \/ _storedTreeCache st = Some (scanTrees (treeStore st)).

(** The validation of [getExtraRoots] - [JSON.parse] followed by
    [extraRootsSchema.parse] - does not go through. *)
Definition failsValidation (JSON_parse : string -> option JsVal) (val : string) : Prop :=
  forall result,
    (parsed <- parseJSON JSON_parse val ;; extraRootsSchema_parse parsed)
    <> Returns result.

(** ** Sample data *)

Module Sample.
Definition blobNode (path sha : string) : TreeNode :=
  mkTreeNode {| TreeEntry.path := path; TreeEntry.mode := "100644";
                TreeEntry.sha := sha; TreeEntry.type := blob |} None.

Definition treeNode (path sha : string) (c : JsMap.t TreeNode) : TreeNode :=
  mkTreeNode {| TreeEntry.path := path; TreeEntry.mode := treeMode;
                TreeEntry.sha := sha; TreeEntry.type := tree |} (Some c).

(** [docs/] holds three leaves over two levels. *)
Definition docs : JsMap.t TreeNode :=
  [("a.md", blobNode "docs/a.md" "b1");
   ("img", treeNode "docs/img" "t2"
      [("x.png", blobNode "docs/img/x.png" "b2");
       ("y.png", blobNode "docs/img/y.png" "b3")])].

Definition site : JsMap.t TreeNode :=
  [("docs", treeNode "docs" "t1" docs);
   ("readme", blobNode "readme" "b4")].

Definition siteWithoutDocs : JsMap.t TreeNode :=
  [("readme", blobNode "readme" "b5");
   ("new.md", blobNode "new.md" "b6")].

(** [a] is a blob in the old tree and a directory in the new one. *)
Definition fileA : JsMap.t TreeNode := [("a", blobNode "a" "b1")].
Definition dirA : JsMap.t TreeNode :=
  [("a", treeNode "a" "t1" [("b", blobNode "a/b" "b2")])].

Definition storedEntry (path mode sha : string) : StoredTreeEntry.t :=
  {| StoredTreeEntry.path := path; StoredTreeEntry.sha := sha;
     StoredTreeEntry.mode := mode |}.

(** A stored tree that lists itself as a subdirectory and then refers to a
    tree that is not stored. *)
Definition selfReferring : JsMap.t (list StoredTreeEntry.t) :=
  [("A", [storedEntry "p" treeMode "A"; storedEntry "q" treeMode "Z"])].

(** [A] is complete except for its subdirectory [Z]. *)
Definition missingSubtree : JsMap.t (list StoredTreeEntry.t) :=
  [("A", [storedEntry "x" "100644" "B"; storedEntry "q" treeMode "Z"])].

Definition missingSubtreeRank (sha : string) : nat :=
  if String.eqb sha "A" then 1 else 0.

(** A stored tree value as [setMany] writes it. *)
Definition treeValue (path mode sha : string) : JsVal :=
  JArr [JObj [("path", JStr path); ("mode", JStr mode); ("sha", JStr sha)]].

Definition localConfig : Config := {| storage := StorageLocal; cloud := None |}.

(** A tree store with one valid tree and one value that is not a tree. *)
Definition withInvalidTree : State :=
  {| localStorage := [];
     blobStore := [(KString "B", JBytes [])];
     treeStore := [(KString "A", treeValue "x" "100644" "B");
                   (KString "X", JNum 1)];
     _storedTreeCache := None |}.

Definition noJSON (val : string) : option JsVal := None.

(** A stand-in for [JSON.parse] that knows two texts. *)
Definition parseSample (val : string) : option JsVal :=
  if String.eqb val "{main:{sha:1}}" then
    Some (JObj [("main", JObj [("sha", JNum 1)])])
  else if String.eqb val "[]" then Some (JArr [])
  else None.

(** The registry of the local scope holds a record whose [sha] is a number. *)
Definition withBadRoots : State :=
  {| localStorage := [("ks-roots-local", "{main:{sha:1}}")];
     blobStore := [];
     treeStore := [];
     _storedTreeCache := None |}.

(** The cache has been populated from a tree store that holds [A]. *)
Definition populated : State :=
  {| localStorage := [("ks-roots-local", "[]")];
     blobStore := [(KString "B", JBytes [])];
     treeStore := [(KString "A", treeValue "x" "100644" "B")];
     _storedTreeCache := Some [("A", [storedEntry "x" "100644" "B"])] |}.
End Sample.

(** * More of the object store and of the commit dialog *)

(** ** What the collector treats as live

    A sha is live when it is a root, or the sha of an entry of a live stored
    tree, unless that tree's own sha is also the key of a blob: the marking
    loop looks a sha up among the blobs first and does not go on to the
    trees when it finds it there. *)
Inductive live (roots : list string) (blobKeys : list IDBValidKey)
    (trees : JsMap.t (list StoredTreeEntry.t)) : string -> Prop :=
  | live_root s :
      In s roots -> live roots blobKeys trees s
  | live_entry s entries e :
      live roots blobKeys trees s ->
      ~ In (KString s) blobKeys ->
      JsMap.get trees s = Some entries ->
      In e entries ->
      live roots blobKeys trees (StoredTreeEntry.sha e).

(** The shas at the first [i] positions of the queue: those the marking
    loop has gone through. *)
Definition processed (i : nat) (queue : list string) (s : string) : Prop :=
  exists j, j < i /\ nth_error queue j = Some s.

Section MarkState.
Variable roots : list string.
Variable blobs0 : list IDBValidKey.
Variable trees0 : JsMap.t (list StoredTreeEntry.t).

(** What holds of the state of the marking loop at every iteration. *)
Record MarkInv (i : nat) (queue : list string) (blobs : list IDBValidKey)
    (trees : JsMap.t (list StoredTreeEntry.t)) : Prop := {
  inv_bound : i <= List.length queue;
  inv_nodup : NoDup queue;
  inv_live : forall s, In s queue -> live roots blobs0 trees0 s;
  inv_roots : forall s, In s roots -> In s queue;
  inv_blobs_sub : forall k, In k blobs -> In k blobs0;
  inv_blobs_marked :
    forall k, In k blobs0 -> ~ In k blobs -> exists s, k = KString s /\ processed i queue s;
  inv_blob_done : forall s, processed i queue s -> ~ In (KString s) blobs;
  inv_trees_get :
    forall s, JsMap.get trees s = None \/ JsMap.get trees s = JsMap.get trees0 s;
  inv_trees_marked :
    forall s, JsMap.get trees s = None -> JsMap.get trees0 s <> None ->
              processed i queue s /\ ~ In (KString s) blobs0;
  inv_tree_done :
    forall s, processed i queue s -> ~ In (KString s) blobs0 ->
              JsMap.get trees s = None
              /\ forall entries e, JsMap.get trees0 s = Some entries -> In e entries ->
                                   In (StoredTreeEntry.sha e) queue
}.

End MarkState.

(** The roots the collector starts from: the caller's and the registry's. *)
Definition allRoots (_roots : list string) (extra : JsMap.t ExtraRoot.t) : list string :=
  _roots ++ map ExtraRoot.sha (JsMap.values extra).

(** The in-memory cache, when populated, is a [Map]: no key twice. *)
Definition cacheWf (st : State) : Prop :=
  match _storedTreeCache st with
  | Some cache => JsMap.wf cache
  | None => True
  end.

(** Liveness over a state, as the collector sees it: the blob keys of the
    blob store and the stored trees that [getStoredTrees] answers with. *)
Definition liveIn (st : State) (roots : list string) (s : string) : Prop :=
  live roots (map fst (blobStore st)) (fst (getStoredTrees st)) s.

(** ** Writing to and reading from the stores

    An IndexedDB object store holds one record per key and hands its records
    out in key order: numbers before dates before strings. *)

Definition IDBValidKey_ltb (a b : IDBValidKey) : bool :=
  match a, b with
  | KNumber x, KNumber y => Z.ltb x y
  | KNumber _, _ => true
  | KDate _, KNumber _ => false
  | KDate x, KDate y => Z.ltb x y
  | KDate _, KString _ => true
  | KString x, KString y => String.ltb x y
  | KString _, _ => false
  end.

Fixpoint idb_insert (k : IDBValidKey) (v : JsVal) (store : IDBStore) : IDBStore :=
  match store with
  | [] => [(k, v)]
  | (k', v') :: r =>
      if IDBValidKey_ltb k k' then (k, v) :: (k', v') :: r
      else (k', v') :: idb_insert k v r
  end.

(** [set(key, value, store)]: the record of the key is replaced. *)
Definition idb_set (k : IDBValidKey) (v : JsVal) (store : IDBStore) : IDBStore :=
  idb_insert k v (filter (fun kv => negb (IDBValidKey_eqb (fst kv) k)) store).

(** [get(key, store)] *)
Fixpoint idb_get (store : IDBStore) (k : IDBValidKey) : option JsVal :=
  match store with
  | [] => None
  | (k', v) :: r => if IDBValidKey_eqb k' k then Some v else idb_get r k
  end.

(** [setMany(entries, store)] *)
Definition idb_setMany (entries : IDBStore) (store : IDBStore) : IDBStore :=
  fold_left (fun s kv => idb_set (fst kv) (snd kv) s) entries store.

Definition setBlobToPersistedCache (sha : string) (val : list Byte.byte) (st : State)
    : State :=
  {| localStorage := localStorage st;
     blobStore := idb_set (KString sha) (JBytes val) (blobStore st);
     treeStore := treeStore st;
     _storedTreeCache := _storedTreeCache st |}.

(** [None] is [undefined]: nothing stored, or not a [Uint8Array]. *)
Definition getBlobFromPersistedCache (sha : string) (st : State)
    : option (list Byte.byte) :=
  match idb_get (blobStore st) (KString sha) with
  | Some (JBytes stored) => Some stored
  | _ => None
  end.

Definition setTreeToPersistedCache (sha : string) (children : JsMap.t TreeNode)
    (st : State) : State :=
  let allTrees := collectTrees sha children [] in
  {| localStorage := localStorage st;
     blobStore := blobStore st;
     treeStore :=
       idb_setMany
         (map (fun kv => (KString (fst kv), js_of_storedTree (snd kv))) allTrees)
         (treeStore st);
     _storedTreeCache :=
       match _storedTreeCache st with
       | Some cache =>
           Some (fold_left (fun m kv => JsMap.set m (fst kv) (snd kv)) allTrees cache)
       | None => None
       end |}.

(** The valid string-keyed entries of a tree store, in its order. *)
Definition validTrees (entries : IDBStore) : list (string * list StoredTreeEntry.t) :=
  flat_map
    (fun kv =>
       match treeSchema_safeParse (snd kv), fst kv with
       | Some data, KString sha => [(sha, data)]
       | _, _ => []
       end)
    entries.

(** ** The shape of a rebuilt tree

    What [wfNodeAt] asks of a node, except that its key need not be a path
    segment: a stored entry's path is taken as it is. *)
Fixpoint shapeAt (parentPath key : string) (n : TreeNode) : bool :=
  match n with
  | mkTreeNode e ch =>
      String.eqb (TreeEntry.path e) (innerPathOf parentPath key)
      && match ch with
         | None =>
             negb (String.eqb (TreeEntry.mode e) treeMode)
             && EntryType_eqb (TreeEntry.type e)
                  (if String.eqb (TreeEntry.mode e) symlinkMode then symlink else blob)
         | Some c =>
             String.eqb (TreeEntry.mode e) treeMode
             && EntryType_eqb (TreeEntry.type e) tree
             && nodupb (JsMap.keys c)
             && forallb (fun pn => shapeAt (TreeEntry.path e) (fst pn) (snd pn)) c
         end
  end.

Definition shapedChildren (parentPath : string) (m : JsMap.t TreeNode) : bool :=
  nodupb (JsMap.keys m) && forallb (fun pn => shapeAt parentPath (fst pn) (snd pn)) m.

(** ** Paths and blobs of a tree *)

(** [pathIn m path]: some node of the tree [m] sits at [path]. *)
Inductive pathIn : JsMap.t TreeNode -> string -> Prop :=
  | pathIn_here m p n :
      In (p, n) m -> pathIn m p
  | pathIn_below m p e c q :
      In (p, mkTreeNode e (Some c)) m -> pathIn c q -> pathIn m (joinPath p q).

(** [blobAt m path sha]: a blob-typed node with this sha sits at [path],
    below tree-typed directories only. *)
Inductive blobAt : JsMap.t TreeNode -> string -> string -> Prop :=
  | blobAt_here m p e ch :
      In (p, mkTreeNode e ch) m -> TreeEntry.type e = blob ->
      blobAt m p (TreeEntry.sha e)
  | blobAt_below m p e c q sha :
      In (p, mkTreeNode e (Some c)) m -> TreeEntry.type e = tree ->
      blobAt c q sha -> blobAt m (joinPath p q) sha.

(** The blobs of a tree with their paths, in the order of the tree:
    symlinks and directories without children contribute nothing. *)
Fixpoint blobLeavesEntry (path : string) (node : TreeNode) : list Addition :=
  match node with
  | mkTreeNode e ch =>
      match TreeEntry.type e with
      | blob => [ {| a_path := path; a_sha := TreeEntry.sha e |} ]
      | tree =>
          match ch with
          | Some c =>
              map (prefixAddition path)
                  (flat_map (fun pn => blobLeavesEntry (fst pn) (snd pn)) c)
          | None => []
          end
      | symlink => []
      end
  end.

Definition blobLeaves (m : JsMap.t TreeNode) : list Addition :=
  flat_map (fun pn => blobLeavesEntry (fst pn) (snd pn)) m.

(** No top-level directory entry lacks its children. *)
Definition directoriesHaveChildren (m : JsMap.t TreeNode) : Prop :=
  forall p e, In (p, mkTreeNode e None) m -> TreeEntry.type e <> tree.


(** [keptAt oldTree newTree path]: [path] is that of a node of the new tree
    that has the sha of the old node at the same place, or lies below such
    a node; [diffTrees] does not look below a node it finds unchanged. *)
Inductive keptAt : JsMap.t TreeNode -> JsMap.t TreeNode -> string -> Prop :=
  | keptAt_here oldTree newTree p n o :
      In (p, n) newTree -> JsMap.get oldTree p = Some o ->
      TreeEntry.sha (entry o) = TreeEntry.sha (entry n) ->
      keptAt oldTree newTree p
  | keptAt_under oldTree newTree p n o q :
      In (p, n) newTree -> JsMap.get oldTree p = Some o ->
      TreeEntry.sha (entry o) = TreeEntry.sha (entry n) ->
      keptAt oldTree newTree (joinPath p q)
  | keptAt_below oldTree newTree p e c q :
      In (p, mkTreeNode e (Some c)) newTree ->
      keptAt (oldChildren (JsMap.get oldTree p)) c q ->
      keptAt oldTree newTree (joinPath p q).

(** ** The file changes of a commit

    The callback of [useCommitTree], from the diff of the committed against
    the current tree to the additions and deletions it sends: the contents
    of every addition are read from the blob store, and the commit fails
    when one of them is not there. *)

Module FileAddition.
Record t := mk { path : string; contents : list Byte.byte }.
End FileAddition.

Module FileDeletion.
Record t := mk { path : string }.
End FileDeletion.

Inductive FileChanges :=
  | Changes (additions : list FileAddition.t) (deletions : list FileDeletion.t)
  | Failed (message : string).

Definition failedToGetBlob (a : Addition) : string :=
  "Failed to get blob " ++ a_sha a ++ " for path " ++ a_path a.

(** [Promise.all(diff.additions.map(async addition => ...))]: the reads are
    issued in the order of the additions, and the rejection is that of the
    first addition whose blob is missing. *)
Fixpoint readAdditions (l : list Addition) (st : State)
    : string + list FileAddition.t :=
  match l with
  | [] => inr []
  | a :: r =>
      match getBlobFromPersistedCache (a_sha a) st with
      | None => inl (failedToGetBlob a)
      | Some contents =>
          match readAdditions r st with
          | inl message => inl message
          | inr rest =>
              inr ({| FileAddition.path := a_path a;
                      FileAddition.contents := contents |} :: rest)
          end
      end
  end.

Definition commitFileChanges (committed current : JsMap.t TreeNode) (st : State)
    : FileChanges :=
  let diff := diffTrees committed current in
  match readAdditions (additions diff) st with
  | inl message => Failed message
  | inr additions =>
      Changes additions (map FileDeletion.mk (deletions diff))
  end.

(** ** The list of changed items

    [useChanged] gives, for every collection, the sets of the slugs that
    were added, changed and removed, and the set of the singletons that
    changed. *)

Module ChangeType.
Inductive t := added | changed | removed.
End ChangeType.

Module Change.
Record t := mk { href : string; slug : string; type : ChangeType.t }.
End Change.

Module Counts.
Record t := mk {
  added : list string;
  changed : list string;
  removed : list string
}.
End Counts.

Module ChangeMap.
Record t := mk {
  collections : JsMap.t Counts.t;
  singletons : list string
}.
End ChangeMap.

Section ChangedItems.
(** [encodeURIComponent], on the strings it is defined for. *)
Variable encodeURIComponent : string -> string.

Definition getCollectionItemHref (basePath collection key : string) : string :=
  basePath ++ "/collection/" ++ encodeURIComponent collection
           ++ "/item/" ++ encodeURIComponent key.

Definition collectionChange (basePath key : string) (type : ChangeType.t)
    (slug : string) : Change.t :=
  {| Change.href := getCollectionItemHref basePath key slug;
     Change.slug := key ++ "/" ++ slug;
     Change.type := type |}.

Definition singletonChange (basePath slug : string) : Change.t :=
  {| Change.href := basePath ++ "/singleton/" ++ encodeURIComponent slug;
     Change.slug := slug;
     Change.type := ChangeType.changed |}.

Definition is_empty {A} (l : list A) : bool :=
  match l with
  | [] => true
  | _ => false
  end.

(** The body of the loop over the collections of the configuration. *)
Definition collectionItems (basePath : string) (changeMap : ChangeMap.t)
    (items : list Change.t) (key : string) : list Change.t :=
  match JsMap.get (ChangeMap.collections changeMap) key with
  | None => items
  | Some counts =>
      if is_empty (Counts.added counts) && is_empty (Counts.changed counts)
         && is_empty (Counts.removed counts)
      then items
      else
        let items1 :=
          if is_empty (Counts.changed counts) then items
          else items ++ map (collectionChange basePath key ChangeType.changed)
                            (Counts.changed counts) in
        let items2 :=
          if is_empty (Counts.added counts) then items1
          else items1 ++ map (collectionChange basePath key ChangeType.added)
                             (Counts.added counts) in
        if is_empty (Counts.removed counts) then items2
        else items2 ++ map (collectionChange basePath key ChangeType.removed)
                           (Counts.removed counts)
  end.

(** The body of the loop over the singletons of the configuration. *)
Definition singletonItems (basePath : string) (changeMap : ChangeMap.t)
    (items : list Change.t) (slug : string) : list Change.t :=
  if JsSet.has String.eqb (ChangeMap.singletons changeMap) slug
  then items ++ [singletonChange basePath slug]
  else items.

(** Of the configuration the function reads [Object.keys(config.collections)]
    and [Object.keys(config.singletons)], each when the field is there. *)
Definition getChangedItems (basePath : string)
    (collections singletons : option (list string)) (changeMap : ChangeMap.t)
    : list Change.t :=
  let items :=
    match collections with
    | Some keys => fold_left (collectionItems basePath changeMap) keys []
    | None => []
    end in
  match singletons with
  | Some slugs => fold_left (singletonItems basePath changeMap) slugs items
  | None => items
  end.

(** What one collection of the configuration contributes. *)
Definition changesOf (basePath : string) (changeMap : ChangeMap.t) (key : string)
    : list Change.t :=
  match JsMap.get (ChangeMap.collections changeMap) key with
  | None => []
  | Some counts =>
      map (collectionChange basePath key ChangeType.changed)
          (Counts.changed counts)
      ++ map (collectionChange basePath key ChangeType.added)
             (Counts.added counts)
      ++ map (collectionChange basePath key ChangeType.removed)
             (Counts.removed counts)
  end.

End ChangedItems.

(** The slugs of one kind of change. *)
Definition slugsOf (type : ChangeType.t) (counts : Counts.t) : list string :=
  match type with
  | ChangeType.added => Counts.added counts
  | ChangeType.changed => Counts.changed counts
  | ChangeType.removed => Counts.removed counts
  end.

(** ** More sample data *)

Module Scenario.
(** Two stored trees with a blob each. *)
Definition twoTrees : State :=
  {| localStorage := [];
     blobStore := [(KString "B", JBytes []); (KString "D", JBytes [])];
     treeStore := [(KString "A", singleEntryTree "x" "100644" "B");
                   (KString "C", singleEntryTree "y" "100644" "D")];
     _storedTreeCache := None |}.

(** What a collection from the root [A] leaves of [twoTrees]. *)
Definition keptA : State :=
  {| localStorage := [];
     blobStore := [(KString "B", JBytes [])];
     treeStore := [(KString "A", singleEntryTree "x" "100644" "B")];
     _storedTreeCache := Some [("A", [Sample.storedEntry "x" "100644" "B"])] |}.


(** A tree store with a record under a numeric key and a record that is not
    a tree, besides the tree [A]. *)
Definition mixedStore : State :=
  {| localStorage := [];
     blobStore := [];
     treeStore := [(KNumber 7, singleEntryTree "n" "100644" "N");
                   (KString "A", singleEntryTree "x" "100644" "B");
                   (KString "X", JNum 1)];
     _storedTreeCache := None |}.

Definition bytes (n : nat) : list Byte.byte := repeat Byte.x00 n.

(** The blobs of [Sample.site] and one more, and no tree yet. *)
Definition siteBlobs : State :=
  {| localStorage := [];
     blobStore := [(KString "b1", JBytes (bytes 1)); (KString "b2", JBytes (bytes 2));
                   (KString "b3", JBytes (bytes 3)); (KString "b4", JBytes (bytes 4));
                   (KString "b9", JBytes (bytes 9))];
     treeStore := [];
     _storedTreeCache := None |}.

(** [Sample.site] written under the sha [root]. *)
Definition siteStored : State := setTreeToPersistedCache "root" Sample.site siteBlobs.

(** What a collection from [root] leaves of [siteStored]. *)
Definition siteCollected : State :=
  Eval vm_compute in
    match garbageCollectGitObjects Sample.noJSON Sample.localConfig ["root"] siteStored with
    | Returns st' => st'
    | _ => siteStored
    end.

(** A stand-in for [JSON.parse] that knows one text, a registry with the
    branch [main]. *)
Definition rootsText : string := "{main:{sha:A,updatedAt:2023-01-01}}".

Definition rootsFields : list (string * JsVal) :=
  [("main", JObj [("sha", JStr "A"); ("updatedAt", JStr "2023-01-01")])].

Definition parseRoots (val : string) : option JsVal :=
  if String.eqb val rootsText then Some (JObj rootsFields) else None.

Definition withRoots : State :=
  {| localStorage := [("ks-roots-local", rootsText)];
     blobStore := [];
     treeStore := [];
     _storedTreeCache := None |}.

(** The stored trees of [Sample.site] under the sha [root]. *)
Definition siteTrees : JsMap.t (list StoredTreeEntry.t) :=
  JsMap.of_entries (collectTrees "root" Sample.site []).

(** [Sample.site] with [readme] rewritten. *)
Definition siteEdited : JsMap.t TreeNode :=
  [("docs", Sample.treeNode "docs" "t1" Sample.docs);
   ("readme", Sample.blobNode "readme" "b9")].
End Scenario.
(** * Properties *)

(** ** Facts about maps, sets and paths *)

Module JsMapFacts.
Section Facts.
Context {V : Type}.
Implicit Types (m : JsMap.t V) (k : string) (v : V).

Lemma get_Some_In m k v : JsMap.get m k = Some v -> In (k, v) m.
Proof.
  induction m as [|[k' v'] r IH]; simpl; [discriminate|].
  destruct (String.eqb_spec k' k) as [->|Hne].
  - intros [= ->]. now left.
  - intros H. right. auto.
Qed.

Lemma get_None_iff m k : JsMap.get m k = None <-> ~ In k (JsMap.keys m).
Proof.
  induction m as [|[k' v'] r IH]; simpl.
  - tauto.
  - destruct (String.eqb_spec k' k) as [->|Hne].
    + split; [discriminate|]. intros H. exfalso. apply H. now left.
    + rewrite IH. tauto.
Qed.

Lemma In_keys m k v : In (k, v) m -> In k (JsMap.keys m).
Proof. intros H. apply (in_map fst) in H. exact H. Qed.

Lemma get_In m k v : NoDup (JsMap.keys m) -> In (k, v) m -> JsMap.get m k = Some v.
Proof.
  induction m as [|[k' v'] r IH]; simpl; [tauto|].
  intros Hnd [Heq|Hin].
  - injection Heq as -> ->. now rewrite String.eqb_refl.
  - inversion Hnd as [|? ? Hnotin Hnd']; subst.
    destruct (String.eqb_spec k' k) as [->|Hne].
    + exfalso. apply Hnotin. eapply In_keys; eauto.
    + auto.
Qed.

Lemma set_fresh m k v : ~ In k (JsMap.keys m) -> JsMap.set m k v = m ++ [(k, v)].
Proof.
  induction m as [|[k' v'] r IH]; simpl; [reflexivity|].
  intros H. destruct (String.eqb_spec k' k) as [->|Hne].
  - exfalso. apply H. now left.
  - rewrite IH; [reflexivity|]. intros Hin. apply H. now right.
Qed.

Lemma get_set m k v k' :
  JsMap.get (JsMap.set m k v) k' = if String.eqb k k' then Some v else JsMap.get m k'.
Proof.
  induction m as [|[k0 v0] r IH]; simpl.
  - reflexivity.
  - destruct (String.eqb_spec k0 k) as [->|Hne]; simpl.
    + destruct (String.eqb_spec k k'); reflexivity.
    + rewrite IH. destruct (String.eqb_spec k0 k') as [->|Hne'].
      * destruct (String.eqb_spec k k'); [congruence|reflexivity].
      * reflexivity.
Qed.

Lemma get_app m1 m2 k :
  JsMap.get (m1 ++ m2) k =
  match JsMap.get m1 k with Some v => Some v | None => JsMap.get m2 k end.
Proof.
  induction m1 as [|[k0 v0] r IH]; simpl; [reflexivity|].
  destruct (String.eqb k0 k); [reflexivity|exact IH].
Qed.

Lemma get_fold_set (l : list (string * V)) m k :
  JsMap.get (fold_left (fun m kv => JsMap.set m (fst kv) (snd kv)) l m) k =
  match JsMap.get (rev l) k with Some v => Some v | None => JsMap.get m k end.
Proof.
  revert m. induction l as [|[k0 v0] r IH]; intros m; simpl; [reflexivity|].
  rewrite IH, get_app, get_set. simpl.
  destruct (JsMap.get (rev r) k); [reflexivity|].
  destruct (String.eqb k0 k); reflexivity.
Qed.

(** In a list of entries where [k] always comes with [v], the map built
    from the entries has [v] at [k]. *)
Lemma get_of_entries (l : list (string * V)) k v :
  In (k, v) l ->
  (forall v', In (k, v') l -> v' = v) ->
  JsMap.get (JsMap.of_entries l) k = Some v.
Proof.
  intros Hin Hfun. unfold JsMap.of_entries. rewrite get_fold_set.
  destruct (JsMap.get (rev l) k) as [v'|] eqn:E.
  - apply get_Some_In, in_rev in E. now rewrite (Hfun v' E).
  - apply get_None_iff in E. exfalso. apply E.
    apply In_keys with v. now apply in_rev in Hin.
Qed.

Lemma get_delete m k : JsMap.get (JsMap.delete m k) k = None.
Proof.
  apply get_None_iff. unfold JsMap.delete, JsMap.keys.
  intros H. apply in_map_iff in H as [[k' v'] [Hk Hin]]. simpl in Hk. subst k'.
  apply filter_In in Hin as [_ Hf]. simpl in Hf.
  now rewrite String.eqb_refl in Hf.
Qed.
End Facts.
End JsMapFacts.

Module JsSetFacts.
Section Facts.
Context {K : Type} (eqb : K -> K -> bool).
Hypothesis eqb_eq : forall x y, eqb x y = true <-> x = y.

Lemma has_In s k : JsSet.has eqb s k = true <-> In k s.
Proof.
  unfold JsSet.has. rewrite existsb_exists. split.
  - intros [x [Hin Hx]]. apply eqb_eq in Hx. now subst.
  - intros Hin. exists k. split; [exact Hin|now apply eqb_eq].
Qed.

Lemma In_add s k x : In x (JsSet.add eqb s k) <-> In x s \/ x = k.
Proof.
  unfold JsSet.add. destruct (JsSet.has eqb s k) eqn:E.
  - apply has_In in E. split; [tauto|]. intros [H| ->]; assumption.
  - rewrite in_app_iff. simpl. intuition.
Qed.

Lemma NoDup_add s k : NoDup s -> NoDup (JsSet.add eqb s k).
Proof.
  intros Hnd. unfold JsSet.add. destruct (JsSet.has eqb s k) eqn:E; [exact Hnd|].
  assert (Hnotin : ~ In k s).
  { intros Hin. apply has_In in Hin. congruence. }
  clear E. induction s as [|a r IH]; simpl.
  - constructor; [tauto|constructor].
  - inversion Hnd; subst. constructor.
    + rewrite in_app_iff. simpl. intros [H|[H|[]]]; [tauto|].
      subst. apply Hnotin. now left.
    + apply IH; [assumption|]. intros H. apply Hnotin. now right.
Qed.

Lemma In_fold_add l s x :
  In x (fold_left (JsSet.add eqb) l s) <-> In x s \/ In x l.
Proof.
  revert s. induction l as [|a r IH]; intros s; simpl; [tauto|].
  rewrite IH, In_add. intuition.
Qed.

Lemma NoDup_fold_add l s : NoDup s -> NoDup (fold_left (JsSet.add eqb) l s).
Proof.
  revert s. induction l as [|a r IH]; intros s Hnd; simpl; [exact Hnd|].
  apply IH, NoDup_add, Hnd.
Qed.

Lemma In_of_list l x : In x (JsSet.of_list eqb l) <-> In x l.
Proof. unfold JsSet.of_list. rewrite In_fold_add. simpl. tauto. Qed.

Lemma NoDup_of_list l : NoDup (JsSet.of_list eqb l).
Proof. apply NoDup_fold_add. constructor. Qed.

Lemma In_delete s k x : In x (JsSet.delete eqb s k) <-> In x s /\ x <> k.
Proof.
  unfold JsSet.delete. rewrite filter_In, negb_true_iff.
  split; intros [H1 H2]; split; try assumption.
  - intros ->. assert (eqb k k = true) by now apply eqb_eq. congruence.
  - destruct (eqb k x) eqn:E; [|reflexivity].
    apply eqb_eq in E. congruence.
Qed.

Lemma length_add s k : List.length (JsSet.add eqb s k) <= S (List.length s).
Proof.
  unfold JsSet.add. destruct (JsSet.has eqb s k); [lia|].
  rewrite length_app. simpl. lia.
Qed.

Lemma length_fold_add l s :
  List.length (fold_left (JsSet.add eqb) l s) <= List.length s + List.length l.
Proof.
  revert s. induction l as [|a r IH]; intros s; simpl; [lia|].
  specialize (IH (JsSet.add eqb s a)). pose proof (length_add s a). lia.
Qed.
End Facts.

Lemma string_eqb_eq : forall x y : string, String.eqb x y = true <-> x = y.
Proof. exact String.eqb_eq. Qed.
End JsSetFacts.

Module PathFacts.
Lemma joinPath_inj_r p x y : joinPath p x = joinPath p y -> x = y.
Proof.
  unfold joinPath. induction p as [|c p IH]; simpl.
  - now intros [= ->].
  - intros [= H]. auto.
Qed.

Lemma has_slash_joinPath p x : has_slash (joinPath p x) = true.
Proof.
  unfold joinPath. induction p as [|c p IH]; simpl; [reflexivity|].
  destruct (Ascii.eqb c slash); [reflexivity|exact IH].
Qed.

Lemma joinPath_segment_inj p q x y :
  is_segment p = true -> is_segment q = true ->
  joinPath p x = joinPath q y -> p = q.
Proof.
  unfold is_segment, joinPath. rewrite !negb_true_iff.
  revert q. induction p as [|c p IH]; intros [|d q]; simpl.
  - reflexivity.
  - intros _ Hq [= <- _]. simpl in Hq. discriminate.
  - intros Hp _ [= -> _]. simpl in Hp. discriminate.
  - intros Hp Hq [= -> H].
    destruct (Ascii.eqb d slash); [discriminate|].
    f_equal. now apply IH.
Qed.

Lemma segment_not_joinPath k p x : is_segment k = true -> k <> joinPath p x.
Proof.
  unfold is_segment. rewrite negb_true_iff. intros Hk ->.
  rewrite has_slash_joinPath in Hk. discriminate.
Qed.


Lemma startsWith_segment p k :
  is_segment k = true -> startsWith (p ++ "/") k = false.
Proof.
  unfold is_segment. rewrite negb_true_iff.
  revert k. induction p as [|c p IH]; intros [|d k];
    cbn [startsWith has_slash append]; try reflexivity.
  - rewrite (Ascii.eqb_sym "/" d). fold slash.
    destruct (Ascii.eqb d slash); [discriminate|reflexivity].
  - destruct (Ascii.eqb d slash); [discriminate|].
    intros Hk. rewrite (IH _ Hk). apply andb_false_r.
Qed.

Lemma startsWith_joinPath_segment p k y :
  is_segment p = true -> is_segment k = true ->
  startsWith (p ++ "/") (joinPath k y) = true -> k = p.
Proof.
  unfold is_segment, joinPath. rewrite !negb_true_iff.
  revert k. induction p as [|c p IH]; intros [|d k];
    cbn [startsWith has_slash append].
  - reflexivity.
  - intros _ Hk H. apply andb_true_iff in H as [H _].
    apply Ascii.eqb_eq in H. subst d. discriminate.
  - intros Hp _ H. apply andb_true_iff in H as [H _].
    apply Ascii.eqb_eq in H. subst c. discriminate.
  - intros Hp Hk H. apply andb_true_iff in H as [Hcd H].
    apply Ascii.eqb_eq in Hcd. subst d.
    destruct (Ascii.eqb c slash); [discriminate|].
    f_equal. now apply IH.
Qed.
End PathFacts.

(** ** The tree diff *)

Lemma TreeNode_ind' (P : TreeNode -> Prop) :
  (forall e, P (mkTreeNode e None)) ->
  (forall e c, Forall (fun pn => P (snd pn)) c -> P (mkTreeNode e (Some c))) ->
  forall n, P n.
Proof.
  intros Hleaf Hnode.
  fix IH 1. intros [e [c|]]; [|apply Hleaf].
  apply Hnode. induction c as [|[p n] r IHr]; constructor.
  - simpl. apply IH.
  - exact IHr.
Qed.

Lemma fold_left_push {A B} (f : B -> list A) (l : list B) (init : list A) :
  fold_left (fun all x => all ++ f x) l init = init ++ flat_map f l.
Proof.
  revert init. induction l as [|x r IH]; intros init; simpl.
  - now rewrite app_nil_r.
  - now rewrite IH, app_assoc.
Qed.

Section DiffFacts.
Variable rec : option TreeNode -> string -> TreeNode -> Diff.
Variable oldTree : JsMap.t TreeNode.

Let step (st : DiffLoop) (pn : string * TreeNode) : DiffLoop :=
  let r := rec (JsMap.get oldTree (fst pn)) (fst pn) (snd pn) in
  {| l_additions := l_additions st ++ additions r;
     l_deletions := JsSet.delete String.eqb (l_deletions st) (fst pn);
     l_allDeletions := l_allDeletions st ++ deletions r |}.

Lemma diffLoop_fold (newTree : JsMap.t TreeNode) (st : DiffLoop) :
  fold_left step newTree st =
  {| l_additions :=
       l_additions st ++
       flat_map (fun pn => additions (rec (JsMap.get oldTree (fst pn)) (fst pn) (snd pn)))
                newTree;
     l_deletions :=
       fold_left (fun s pn => JsSet.delete String.eqb s (fst pn)) newTree (l_deletions st);
     l_allDeletions :=
       l_allDeletions st ++
       flat_map (fun pn => deletions (rec (JsMap.get oldTree (fst pn)) (fst pn) (snd pn)))
                newTree |}.
Proof.
  revert st. induction newTree as [|pn r IH]; intros st; simpl.
  - rewrite !app_nil_r. now destruct st.
  - rewrite IH. unfold step. simpl. now rewrite <- !app_assoc.
Qed.

Lemma diffTreesWith_additions (newTree : JsMap.t TreeNode) :
  additions (diffTreesWith rec oldTree newTree) =
  flat_map (fun pn => additions (rec (JsMap.get oldTree (fst pn)) (fst pn) (snd pn)))
           newTree.
Proof.
  unfold diffTreesWith. cbn [additions]. fold step. now rewrite diffLoop_fold.
Qed.

Lemma diffTreesWith_deletions (newTree : JsMap.t TreeNode) :
  deletions (diffTreesWith rec oldTree newTree) =
  flat_map (fun pn => deletions (rec (JsMap.get oldTree (fst pn)) (fst pn) (snd pn)))
           newTree
  ++ flat_map (deletionPaths oldTree) (remainingDeletions oldTree newTree).
Proof.
  unfold diffTreesWith. cbn [deletions]. fold step.
  rewrite diffLoop_fold. cbn [l_deletions l_allDeletions].
  now rewrite fold_left_push.
Qed.
End DiffFacts.

Lemma In_fold_delete (l : list (string * TreeNode)) (s : list string) (k : string) :
  In k (fold_left (fun s pn => JsSet.delete String.eqb s (fst pn)) l s) <->
  In k s /\ ~ In k (JsMap.keys l).
Proof.
  revert s. induction l as [|pn r IH]; intros s; simpl; [tauto|].
  rewrite IH, (JsSetFacts.In_delete _ JsSetFacts.string_eqb_eq). intuition.
Qed.

Lemma NoDup_fold_delete (l : list (string * TreeNode)) (s : list string) :
  NoDup s -> NoDup (fold_left (fun s pn => JsSet.delete String.eqb s (fst pn)) l s).
Proof.
  revert s. induction l as [|pn r IH]; intros s Hnd; simpl; [exact Hnd|].
  apply IH. unfold JsSet.delete. now apply NoDup_filter.
Qed.

Lemma In_remainingDeletions oldTree newTree k :
  In k (remainingDeletions oldTree newTree) <->
  In k (JsMap.keys oldTree) /\ ~ In k (JsMap.keys newTree).
Proof.
  unfold remainingDeletions.
  now rewrite In_fold_delete, (JsSetFacts.In_of_list _ JsSetFacts.string_eqb_eq).
Qed.

Lemma NoDup_remainingDeletions oldTree newTree :
  NoDup (remainingDeletions oldTree newTree).
Proof.
  apply NoDup_fold_delete, (JsSetFacts.NoDup_of_list _ JsSetFacts.string_eqb_eq).
Qed.

Lemma diffEntry_eq oldNode path e ch :
  diffEntry oldNode path (mkTreeNode e ch) =
  if changed oldNode (mkTreeNode e ch) then
    let added :=
      match TreeEntry.type e with
      | blob => [ {| a_path := path; a_sha := TreeEntry.sha e |} ]
      | _ => []
      end in
    match TreeEntry.type e, ch with
    | tree, Some c =>
        let result := diffTrees (oldChildren oldNode) c in
        {| additions := added ++ map (prefixAddition path) (additions result);
           deletions := map (joinPath path) (deletions result) |}
    | _, _ => {| additions := added; deletions := [] |}
    end
  else emptyDiff.
Proof. reflexivity. Qed.

Lemma diffEntry_unchanged oldNode path node :
  changed oldNode node = false -> diffEntry oldNode path node = emptyDiff.
Proof.
  destruct node as [e ch]. intros H. now rewrite diffEntry_eq, H.
Qed.

Lemma diffTrees_additions oldTree newTree :
  additions (diffTrees oldTree newTree) =
  flat_map (fun pn => additions (diffEntry (JsMap.get oldTree (fst pn)) (fst pn) (snd pn)))
           newTree.
Proof. apply diffTreesWith_additions. Qed.

Lemma diffTrees_deletions oldTree newTree :
  deletions (diffTrees oldTree newTree) =
  flat_map (fun pn => deletions (diffEntry (JsMap.get oldTree (fst pn)) (fst pn) (snd pn)))
           newTree
  ++ flat_map (deletionPaths oldTree) (remainingDeletions oldTree newTree).
Proof. apply diffTreesWith_deletions. Qed.

Lemma nodupb_NoDup l : nodupb l = true <-> NoDup l.
Proof.
  induction l as [|x r IH]; simpl.
  - split; [constructor|reflexivity].
  - rewrite andb_true_iff, negb_true_iff, IH. split.
    + intros [Hx Hr]. constructor; [|exact Hr].
      intros Hin. assert (existsb (String.eqb x) r = true); [|congruence].
      apply existsb_exists. exists x. split; [exact Hin|apply String.eqb_refl].
    + intros H. inversion H as [|? ? Hnotin Hr]; subst. split; [|exact Hr].
      destruct (existsb (String.eqb x) r) eqn:E; [|reflexivity].
      apply existsb_exists in E as [y [Hy Hxy]]. apply String.eqb_eq in Hxy.
      subst. contradiction.
Qed.

Lemma flat_map_nil {A B} (f : A -> list B) (l : list A) :
  (forall x, In x l -> f x = []) -> flat_map f l = [].
Proof.
  induction l as [|x r IH]; simpl; [reflexivity|].
  intros H. rewrite (H x), IH; auto.
Qed.

(** C4: the diff of a tree with itself is empty, and an entry whose sha is
    the same in both trees is skipped: the body of the loop contributes no
    addition and no deletion for it, whatever lies beneath it. *)
Theorem diffTrees_reflexive (T : JsMap.t TreeNode) :
  JsMap.wf T ->
  diffTrees T T = emptyDiff
  /\ (forall oldNode path node,
        TreeEntry.sha (entry oldNode) = TreeEntry.sha (entry node) ->
        diffEntry (Some oldNode) path node = emptyDiff).
Proof.
  intros Hwf.
  assert (Hskip : forall oldNode path node,
             TreeEntry.sha (entry oldNode) = TreeEntry.sha (entry node) ->
             diffEntry (Some oldNode) path node = emptyDiff).
  { intros o path n Hsha. apply diffEntry_unchanged. simpl.
    now rewrite Hsha, String.eqb_refl. }
  split; [|exact Hskip].
  assert (Hself : forall pn, In pn T ->
             diffEntry (JsMap.get T (fst pn)) (fst pn) (snd pn) = emptyDiff).
  { intros [p n] Hin. simpl. rewrite (JsMapFacts.get_In _ _ _ Hwf Hin).
    now apply Hskip. }
  assert (Hrem : remainingDeletions T T = []).
  { destruct (remainingDeletions T T) as [|k r] eqn:E; [reflexivity|].
    assert (Hk : In k (remainingDeletions T T)) by (rewrite E; now left).
    apply In_remainingDeletions in Hk. tauto. }
  pose proof (diffTrees_additions T T) as Ha.
  pose proof (diffTrees_deletions T T) as Hd.
  rewrite Hrem in Hd. cbn [flat_map] in Hd. rewrite app_nil_r in Hd.
  rewrite flat_map_nil in Ha by (intros pn Hin; now rewrite Hself).
  rewrite flat_map_nil in Hd by (intros pn Hin; now rewrite Hself).
  destruct (diffTrees T T) as [a d]. cbn [additions deletions] in *. now subst.
Qed.

Lemma diffTrees_reflexive_witness :
  JsMap.wf Sample.site /\ diffTrees Sample.site Sample.site = emptyDiff.
Proof.
  assert (H : JsMap.wf Sample.site).
  { apply nodupb_NoDup. reflexivity. }
  split; [exact H|]. exact (proj1 (diffTrees_reflexive H)).
Defined.

(** *** The shape of the recorded paths *)

Lemma diffEntry_deletions_form oldNode path node d :
  In d (deletions (diffEntry oldNode path node)) -> exists y, d = joinPath path y.
Proof.
  destruct node as [e ch]. rewrite diffEntry_eq.
  destruct (changed oldNode (mkTreeNode e ch)); [|intros []].
  destruct (TreeEntry.type e), ch as [c|]; cbn; try tauto.
  intros H. apply in_map_iff in H as [y [<- _]]. now exists y.
Qed.

Lemma diffEntry_additions_form oldNode path node a :
  In a (additions (diffEntry oldNode path node)) ->
  a_path a = path \/ exists x, a_path a = joinPath path x.
Proof.
  destruct node as [e ch]. rewrite diffEntry_eq.
  destruct (changed oldNode (mkTreeNode e ch)); [|intros []].
  destruct (TreeEntry.type e), ch as [c|]; cbn;
    try (intros [<-|[]]; now left); try tauto.
  intros H. apply in_map_iff in H as [x [<- _]]. right. now exists (a_path x).
Qed.

Lemma deletionPaths_form oldTree k d :
  In d (deletionPaths oldTree k) -> d = k \/ exists y, d = joinPath k y.
Proof.
  unfold deletionPaths.
  destruct (JsMap.get oldTree k) as [[e [c|]]|]; try (intros [<-|[]]; now left).
  destruct (TreeEntry.type e); try (intros [<-|[]]; now left).
  intros H. apply in_map_iff in H as [y [<- _]]. right. now exists y.
Qed.

Lemma segment_of_key (m : JsMap.t TreeNode) k :
  forallb is_segment (JsMap.keys m) = true -> In k (JsMap.keys m) ->
  is_segment k = true.
Proof. intros H Hin. rewrite forallb_forall in H. auto. Qed.


Lemma filter_all {A} (P : A -> bool) (l : list A) :
  (forall x, In x l -> P x = true) -> filter P l = l.
Proof.
  induction l as [|x r IH]; simpl; [reflexivity|].
  intros H. rewrite (H x) by now left. f_equal. apply IH. auto.
Qed.

(** Nothing that the diff records for another key lies below [path]. *)
Lemma deletionPaths_not_under oldTree path k d :
  is_segment path = true -> is_segment k = true -> k <> path ->
  In d (deletionPaths oldTree k) ->
  d <> path /\ startsWith (path ++ "/") d = false.
Proof.
  intros Hp Hk Hne Hd. apply deletionPaths_form in Hd as [->|[y ->]].
  - split; [exact Hne|]. now apply PathFacts.startsWith_segment.
  - split; [intros E; symmetry in E; revert E; now apply PathFacts.segment_not_joinPath|].
    destruct (startsWith (path ++ "/") (joinPath k y)) eqn:E; [|reflexivity].
    apply PathFacts.startsWith_joinPath_segment in E; congruence.
Qed.

Lemma diffEntry_not_under oldNode path p node d :
  is_segment path = true -> is_segment p = true -> p <> path ->
  In d (deletions (diffEntry oldNode p node)) ->
  d <> path /\ startsWith (path ++ "/") d = false.
Proof.
  intros Hp Hk Hne Hd. apply diffEntry_deletions_form in Hd as [y ->].
  split; [intros E; symmetry in E; revert E; now apply PathFacts.segment_not_joinPath|].
  destruct (startsWith (path ++ "/") (joinPath p y)) eqn:E; [|reflexivity].
  apply PathFacts.startsWith_joinPath_segment in E; congruence.
Qed.

(** *** Leaves *)





(** *** Additions and deletions do not meet *)

Lemma wfKeys_unpack (m : JsMap.t TreeNode) :
  wfKeys m = true ->
  forallb is_segment (JsMap.keys m) = true
  /\ NoDup (JsMap.keys m)
  /\ (forall p n, In (p, n) m -> wfKeysNode n = true).
Proof.
  unfold wfKeys, segmentKeys. rewrite !andb_true_iff, nodupb_NoDup.
  intros [[Hseg Hnd] Hall]. repeat split; try assumption.
  intros p n Hin. rewrite forallb_forall in Hall. exact (Hall _ Hin).
Qed.

Lemma wfKeys_oldChildren (oldNode : option TreeNode) :
  wfKeysOld oldNode = true -> wfKeys (oldChildren oldNode) = true.
Proof. destruct oldNode as [[e [c|]]|]; simpl; auto. Qed.

Lemma wfKeys_get (m : JsMap.t TreeNode) p :
  wfKeys m = true -> wfKeysOld (JsMap.get m p) = true.
Proof.
  intros H. destruct (JsMap.get m p) as [n|] eqn:E; [|reflexivity].
  apply wfKeys_unpack in H as (_ & _ & H). simpl.
  eapply H, JsMapFacts.get_Some_In, E.
Qed.

Lemma disjoint_at_level (oldTree newTree : JsMap.t TreeNode) :
  forallb is_segment (JsMap.keys oldTree) = true ->
  forallb is_segment (JsMap.keys newTree) = true ->
  NoDup (JsMap.keys newTree) ->
  (forall p n, In (p, n) newTree ->
     forall a d,
       In a (additions (diffEntry (JsMap.get oldTree p) p n)) ->
       In d (deletions (diffEntry (JsMap.get oldTree p) p n)) ->
       a_path a <> d) ->
  forall a d,
    In a (additions (diffTrees oldTree newTree)) ->
    In d (deletions (diffTrees oldTree newTree)) ->
    a_path a <> d.
Proof.
  intros Hold Hnew Hnd Hentries a d Ha Hd.
  rewrite diffTrees_additions in Ha. rewrite diffTrees_deletions in Hd.
  apply in_flat_map in Ha as [[p n] [Hpn Ha]]. cbn [fst snd] in Ha.
  assert (Hp : In p (JsMap.keys newTree)) by (eapply JsMapFacts.In_keys; eauto).
  assert (Hpseg : is_segment p = true) by exact (segment_of_key _ _ Hnew Hp).
  apply in_app_iff in Hd as [Hd|Hd].
  - apply in_flat_map in Hd as [[p' n'] [Hpn' Hd]]. cbn [fst snd] in Hd.
    assert (Hp' : In p' (JsMap.keys newTree)) by (eapply JsMapFacts.In_keys; eauto).
    assert (Hpseg' : is_segment p' = true) by exact (segment_of_key _ _ Hnew Hp').
    destruct (String.eqb_spec p p') as [<-|Hne].
    + assert (n' = n).
      { pose proof (JsMapFacts.get_In _ _ _ Hnd Hpn) as E1.
        pose proof (JsMapFacts.get_In _ _ _ Hnd Hpn') as E2. congruence. }
      subst n'. eapply Hentries; eauto.
    + apply diffEntry_deletions_form in Hd as [y ->].
      apply diffEntry_additions_form in Ha as [-> | [x ->]].
      * now apply PathFacts.segment_not_joinPath.
      * intros E. apply Hne. eapply PathFacts.joinPath_segment_inj; eauto.
  - apply in_flat_map in Hd as [k [Hk Hd]].
    apply In_remainingDeletions in Hk as [Hk Hknew].
    assert (Hkseg : is_segment k = true) by exact (segment_of_key _ _ Hold Hk).
    assert (Hne : p <> k) by (intros ->; contradiction).
    apply deletionPaths_form in Hd as [-> | [y ->]];
      apply diffEntry_additions_form in Ha as [-> | [x ->]].
    + exact Hne.
    + intros E. symmetry in E. revert E. now apply PathFacts.segment_not_joinPath.
    + now apply PathFacts.segment_not_joinPath.
    + intros E. apply Hne. eapply PathFacts.joinPath_segment_inj; eauto.
Qed.

Lemma diffEntry_disjoint (node : TreeNode) :
  forall oldNode path,
    wfKeysNode node = true -> wfKeysOld oldNode = true ->
    forall a d,
      In a (additions (diffEntry oldNode path node)) ->
      In d (deletions (diffEntry oldNode path node)) ->
      a_path a <> d.
Proof.
  induction node as [e|e c IH] using TreeNode_ind'; intros oldNode path Hwf Hold a d;
    rewrite diffEntry_eq.
  - destruct (changed oldNode (mkTreeNode e None)); [|intros []].
    destruct (TreeEntry.type e); cbn; tauto.
  - destruct (changed oldNode (mkTreeNode e (Some c))); [|intros []].
    destruct (TreeEntry.type e); cbn [additions deletions]; try (intros _ []).
    cbn [app]. intros Ha Hd.
    apply in_map_iff in Ha as [a' [<- Ha]]. apply in_map_iff in Hd as [d' [<- Hd]].
    cbn [prefixAddition a_path]. intros E. apply PathFacts.joinPath_inj_r in E.
    revert E.
    change (wfKeysNode (mkTreeNode e (Some c))) with (wfKeys c) in Hwf.
    pose proof (wfKeys_unpack _ Hwf) as (Hseg & Hnd & Hsub).
    pose proof (wfKeys_unpack _ (wfKeys_oldChildren _ Hold)) as (Hsego & _ & _).
    refine (@disjoint_at_level _ _ Hsego Hseg Hnd _ _ _ Ha Hd).
    intros p n Hpn. rewrite Forall_forall in IH.
    apply (IH (p, n) Hpn).
    + eapply Hsub; eauto.
    + apply wfKeys_get, wfKeys_oldChildren, Hold.
Qed.

(** C5: for trees whose directories are keyed by distinct path segments, no
    path is both the path of an addition and a deletion of the same diff. *)
Theorem diffTrees_disjoint (oldTree newTree : JsMap.t TreeNode) :
  wfKeys oldTree = true ->
  wfKeys newTree = true ->
  forall a d,
    In a (additions (diffTrees oldTree newTree)) ->
    In d (deletions (diffTrees oldTree newTree)) ->
    a_path a <> d.
Proof.
  intros Hold Hnew.
  pose proof (wfKeys_unpack _ Hold) as (Hsego & _ & _).
  pose proof (wfKeys_unpack _ Hnew) as (Hseg & Hnd & Hsub).
  apply disjoint_at_level; try assumption.
  intros p n Hpn. apply diffEntry_disjoint.
  - eapply Hsub; eauto.
  - now apply wfKeys_get.
Qed.

Lemma diffTrees_disjoint_witness :
  let d := diffTrees Sample.site Sample.siteWithoutDocs in
  wfKeys Sample.site = true /\ wfKeys Sample.siteWithoutDocs = true
  /\ In {| a_path := "new.md"; a_sha := "b6" |} (additions d)
  /\ In "docs/a.md" (deletions d)
  /\ "new.md" <> "docs/a.md".
Proof.
  assert (Ha : In {| a_path := "new.md"; a_sha := "b6" |}
                  (additions (diffTrees Sample.site Sample.siteWithoutDocs))).
  { right. now left. }
  assert (Hd : In "docs/a.md" (deletions (diffTrees Sample.site Sample.siteWithoutDocs))).
  { now left. }
  repeat split; try assumption.
  exact (@diffTrees_disjoint Sample.site Sample.siteWithoutDocs eq_refl eq_refl _ _ Ha Hd).
Defined.

(** *** A path that changes type *)

Lemma remainingDeletions_empty_old (newTree : JsMap.t TreeNode) :
  remainingDeletions JsMap.empty newTree = [].
Proof.
  destruct (remainingDeletions JsMap.empty newTree) as [|k r] eqn:E; [reflexivity|].
  assert (Hk : In k (remainingDeletions JsMap.empty newTree)) by (rewrite E; now left).
  apply In_remainingDeletions in Hk as [[] _].
Qed.

(** Against a missing old node nothing is deleted. *)
Lemma diffEntry_new_no_deletions (node : TreeNode) :
  forall path, deletions (diffEntry None path node) = [].
Proof.
  induction node as [e|e c IH] using TreeNode_ind'; intros path; rewrite diffEntry_eq.
  - cbn. now destruct (TreeEntry.type e).
  - cbn [changed oldChildren]. cbv iota.
    destruct (TreeEntry.type e); try reflexivity. cbn [deletions].
    rewrite diffTrees_deletions, remainingDeletions_empty_old. cbn [flat_map].
    rewrite app_nil_r, flat_map_nil; [reflexivity|].
    intros [p n] Hpn. rewrite Forall_forall in IH. exact (IH _ Hpn p).
Qed.

Lemma diffTrees_new_no_deletions (newTree : JsMap.t TreeNode) :
  deletions (diffTrees JsMap.empty newTree) = [].
Proof.
  rewrite diffTrees_deletions, remainingDeletions_empty_old. cbn [flat_map].
  rewrite app_nil_r. apply flat_map_nil. intros [p n] _.
  apply diffEntry_new_no_deletions.
Qed.

(** C2, as it stands, fails: when the file [a] becomes the directory [a],
    the old blob path is not among the deletions. *)
Lemma type_change_counterexample :
  ~ typeChangeDeletesOld Sample.fileA Sample.dirA.
Proof.
  intros H.
  destruct (H "a" (Sample.blobNode "a" "b1")
                  (Sample.treeNode "a" "t1" [("b", Sample.blobNode "a/b" "b2")])
                  eq_refl eq_refl) as [Hblob _].
  - discriminate.
  - specialize (Hblob eq_refl eq_refl). exact Hblob.
Qed.

(** C2, amended: for a path whose entry changes between blob and tree (with
    differing shas), the diff records the additions of the new entry - the
    new blob at the path, or whatever the new directory adds against an empty
    old directory - and records no deletion at the path or below it. *)
Theorem diffTrees_type_change (oldTree newTree : JsMap.t TreeNode)
    (path : string) (oldNode node : TreeNode) :
  forallb is_segment (JsMap.keys oldTree) = true ->
  forallb is_segment (JsMap.keys newTree) = true ->
  JsMap.wf newTree ->
  JsMap.get oldTree path = Some oldNode ->
  JsMap.get newTree path = Some node ->
  TreeEntry.sha (entry oldNode) <> TreeEntry.sha (entry node) ->
  (TreeEntry.type (entry oldNode) = blob /\ children oldNode = None
     /\ TreeEntry.type (entry node) = tree)
  \/ (TreeEntry.type (entry oldNode) = tree /\ TreeEntry.type (entry node) = blob) ->
  (forall d, In d (deletions (diffTrees oldTree newTree)) ->
     d <> path /\ startsWith (path ++ "/") d = false)
  /\ (TreeEntry.type (entry node) = blob ->
      In {| a_path := path; a_sha := TreeEntry.sha (entry node) |}
         (additions (diffTrees oldTree newTree)))
  /\ (forall c a,
        TreeEntry.type (entry node) = tree -> children node = Some c ->
        In a (additions (diffTrees JsMap.empty c)) ->
        In (prefixAddition path a) (additions (diffTrees oldTree newTree))).
Proof.
  intros Hold Hnew Hwf Hgo Hgn Hsha Htypes.
  pose proof (JsMapFacts.get_Some_In _ _ Hgn) as Hin.
  assert (Hkey : In path (JsMap.keys newTree)) by (eapply JsMapFacts.In_keys; eauto).
  assert (Hseg : is_segment path = true) by exact (segment_of_key _ _ Hnew Hkey).
  assert (Hchanged : changed (Some oldNode) node = true).
  { simpl. apply negb_true_iff. now apply String.eqb_neq. }
  assert (Hnodel : deletions (diffEntry (Some oldNode) path node) = []).
  { destruct node as [e ch]. rewrite diffEntry_eq, Hchanged. simpl in Htypes.
    destruct Htypes as [(_ & Hnone & ->) | (_ & ->)]; [|now destruct ch].
    destruct ch as [c|]; [|reflexivity]. cbn [deletions].
    destruct oldNode as [eo cho]. simpl in Hnone. subst cho. cbn [oldChildren].
    now rewrite diffTrees_new_no_deletions. }
  split; [|split].
  - intros d Hd. rewrite diffTrees_deletions in Hd.
    apply in_app_iff in Hd as [Hd|Hd].
    + apply in_flat_map in Hd as [[p n] [Hpn Hd]]. cbn [fst snd] in Hd.
      destruct (String.eqb_spec p path) as [->|Hne].
      * assert (n = node).
        { pose proof (JsMapFacts.get_In _ _ _ Hwf Hpn). congruence. }
        subst n. rewrite Hgo, Hnodel in Hd. destruct Hd.
      * eapply diffEntry_not_under; [exact Hseg| |exact Hne|exact Hd].
        apply (segment_of_key _ _ Hnew). eapply JsMapFacts.In_keys; eauto.
    + apply in_flat_map in Hd as [k [Hk Hd]].
      apply In_remainingDeletions in Hk as [Hk Hknew].
      eapply deletionPaths_not_under; [exact Hseg| | |exact Hd].
      * exact (segment_of_key _ _ Hold Hk).
      * intros ->. contradiction.
  - intros Hblob. rewrite diffTrees_additions. apply in_flat_map.
    exists (path, node). split; [exact Hin|]. cbn [fst snd]. rewrite Hgo.
    destruct node as [e ch]. rewrite diffEntry_eq, Hchanged. simpl in Hblob.
    rewrite Hblob. destruct ch; now left.
  - intros c a Htree Hch Ha. rewrite diffTrees_additions. apply in_flat_map.
    exists (path, node). split; [exact Hin|]. cbn [fst snd]. rewrite Hgo.
    destruct node as [e ch]. rewrite diffEntry_eq, Hchanged.
    simpl in Htree, Hch, Htypes. subst ch. rewrite Htree.
    destruct Htypes as [(_ & Hnone & _) | (_ & Hb)]; [|congruence].
    destruct oldNode as [eo cho]. simpl in Hnone. subst cho. cbn [oldChildren additions app].
    now apply in_map.
Qed.

Lemma diffTrees_type_change_witness :
  diffTrees Sample.fileA Sample.dirA
  = {| additions := [ {| a_path := "a/b"; a_sha := "b2" |} ]; deletions := [] |}
  /\ In {| a_path := "a/b"; a_sha := "b2" |} (additions (diffTrees Sample.fileA Sample.dirA)).
Proof.
  split; [reflexivity|].
  assert (Hwf : JsMap.wf Sample.dirA) by (apply nodupb_NoDup; reflexivity).
  assert (Hsha : TreeEntry.sha (entry (Sample.blobNode "a" "b1")) <>
                 TreeEntry.sha (entry (Sample.treeNode "a" "t1"
                                         [("b", Sample.blobNode "a/b" "b2")])))
    by discriminate.
  destruct (@diffTrees_type_change Sample.fileA Sample.dirA "a"
              (Sample.blobNode "a" "b1")
              (Sample.treeNode "a" "t1" [("b", Sample.blobNode "a/b" "b2")])
              eq_refl eq_refl Hwf eq_refl eq_refl Hsha
              (or_introl (conj eq_refl (conj eq_refl eq_refl)))) as (_ & _ & H).
  apply (H [("b", Sample.blobNode "a/b" "b2")] {| a_path := "b"; a_sha := "b2" |}
           eq_refl eq_refl).
  now left.
Defined.

(** ** Rebuilding a tree from stored trees *)

Section ConstructChildren.
Variable rec : string -> string -> Outcome (option TreeNode).

(** A tree-typed entry whose recursive call never yields a node keeps the
    loop from yielding a map. *)
Lemma constructChildren_never parentPath storedTree acc e :
  In e storedTree ->
  StoredTreeEntry.mode e = treeMode ->
  (forall innerPath t, rec (StoredTreeEntry.sha e) innerPath <> Returns (Some t)) ->
  forall t, constructChildren rec parentPath storedTree acc <> Returns (Some t).
Proof.
  intros Hin Hmode Hrec. revert acc.
  induction storedTree as [|e0 rest IH]; intros acc t; [destruct Hin|].
  cbn [constructChildren].
  destruct (String.eqb_spec (StoredTreeEntry.mode e0) treeMode) as [Hm|Hm].
  - destruct (rec (StoredTreeEntry.sha e0) (innerPathOf parentPath (StoredTreeEntry.path e0)))
      as [[child|]| |] eqn:E; cbn [bind]; try discriminate.
    destruct Hin as [->|Hin]; [now apply Hrec in E|]. now apply IH.
  - destruct Hin as [->|Hin]; [contradiction|]. now apply IH.
Qed.

(** When every recursive call of the loop returns, the loop returns. *)
Lemma constructChildren_returns parentPath storedTree acc :
  (forall e, In e storedTree -> StoredTreeEntry.mode e = treeMode ->
             forall innerPath, exists r, rec (StoredTreeEntry.sha e) innerPath = Returns r) ->
  exists r, constructChildren rec parentPath storedTree acc = Returns r.
Proof.
  revert acc. induction storedTree as [|e0 rest IH]; intros acc Hrec.
  - now exists (Some acc).
  - cbn [constructChildren].
    assert (Hrest : forall e, In e rest -> StoredTreeEntry.mode e = treeMode ->
              forall innerPath, exists r, rec (StoredTreeEntry.sha e) innerPath = Returns r).
    { intros e He. apply Hrec. now right. }
    destruct (String.eqb_spec (StoredTreeEntry.mode e0) treeMode) as [Hm|Hm].
    + destruct (Hrec e0 (or_introl eq_refl) Hm
                  (innerPathOf parentPath (StoredTreeEntry.path e0))) as [[child|] ->];
        cbn [bind]; [now apply IH|now exists None].
    + now apply IH.
Qed.
End ConstructChildren.

Lemma constructTree_never_partial trees root :
  torn trees root ->
  forall depth parentPath t,
    constructTreeFromStoredTrees depth root trees parentPath <> Returns (Some t).
Proof.
  intros Htorn depth. revert root Htorn.
  induction depth as [|d IH]; intros root Htorn parentPath t; [discriminate|].
  cbn [constructTreeFromStoredTrees].
  destruct Htorn as [sha Hnone | sha storedTree e Hget Hin Hmode Hsub].
  - rewrite Hnone. discriminate.
  - rewrite Hget.
    pose proof (@constructChildren_never
                  (fun s p => constructTreeFromStoredTrees d s trees p)
                  parentPath storedTree JsMap.empty e Hin Hmode
                  (fun ip t' => IH _ Hsub ip t')) as Hnever.
    destruct (constructChildren _ parentPath storedTree JsMap.empty) as [[built|]| |];
      cbn [bind]; try discriminate.
    exfalso. now apply (Hnever built).
Qed.

Lemma constructTree_returns rank trees :
  acyclicBy rank trees ->
  forall depth root parentPath,
    rank root < depth ->
    exists r, constructTreeFromStoredTrees depth root trees parentPath = Returns r.
Proof.
  intros Hacyclic depth.
  induction depth as [|d IH]; intros root parentPath Hrank; [lia|].
  cbn [constructTreeFromStoredTrees].
  destruct (JsMap.get trees root) as [storedTree|] eqn:Hget; [|now exists None].
  destruct (@constructChildren_returns
              (fun s p => constructTreeFromStoredTrees d s trees p)
              parentPath storedTree JsMap.empty) as [[built|] ->].
  - intros e Hin Hmode innerPath. apply IH.
    specialize (Hacyclic _ _ _ Hget Hin Hmode). lia.
  - cbn [bind]. eauto.
  - cbn [bind]. eauto.
Qed.

(** C7, as it stands, fails: on a stored tree that refers to itself before
    it refers to a missing tree, the recursion does not come back, whatever
    depth it is given. *)
Lemma torn_counterexample :
  ~ tornReturnsUndefined Sample.selfReferring "A".
Proof.
  assert (Hloop : forall depth parentPath,
             constructTreeFromStoredTrees depth "A" Sample.selfReferring parentPath
             = OutOfFuel).
  { induction depth as [|d IH]; intros parentPath; [reflexivity|].
    cbn [constructTreeFromStoredTrees]. simpl JsMap.get. cbn [constructChildren].
    simpl String.eqb. cbn [Sample.storedEntry StoredTreeEntry.sha StoredTreeEntry.path].
    now rewrite IH. }
  intros H. destruct H as [depth Hd].
  - apply torn_child with (storedTree := [Sample.storedEntry "p" treeMode "A";
                                          Sample.storedEntry "q" treeMode "Z"])
                          (e := Sample.storedEntry "q" treeMode "Z").
    + reflexivity.
    + right. now left.
    + reflexivity.
    + apply torn_missing. reflexivity.
  - rewrite Hloop in Hd. discriminate.
Qed.

(** C7, amended: on a torn mapping [constructTreeFromStoredTrees] never
    returns a tree, whatever the depth; and when no stored tree refers to
    itself, it returns [undefined] as soon as the depth exceeds the rank of
    the root. *)
Theorem constructTree_torn trees root :
  torn trees root ->
  (forall depth parentPath t,
     constructTreeFromStoredTrees depth root trees parentPath <> Returns (Some t))
  /\ (forall rank, acyclicBy rank trees ->
      forall depth parentPath, rank root < depth ->
        constructTreeFromStoredTrees depth root trees parentPath = Returns None).
Proof.
  intros Htorn. split; [now apply constructTree_never_partial|].
  intros rank Hacyclic depth parentPath Hrank.
  destruct (constructTree_returns Hacyclic root parentPath Hrank) as [[t|] E].
  - exfalso. exact (constructTree_never_partial Htorn _ _ E).
  - exact E.
Qed.

Lemma constructTree_torn_witness :
  torn Sample.missingSubtree "A"
  /\ constructTreeFromStoredTrees 2 "A" Sample.missingSubtree "" = Returns None.
Proof.
  assert (Htorn : torn Sample.missingSubtree "A").
  { apply torn_child with (storedTree := [Sample.storedEntry "x" "100644" "B";
                                          Sample.storedEntry "q" treeMode "Z"])
                          (e := Sample.storedEntry "q" treeMode "Z").
    - reflexivity.
    - right. now left.
    - reflexivity.
    - apply torn_missing. reflexivity. }
  assert (Hacyclic : acyclicBy Sample.missingSubtreeRank Sample.missingSubtree).
  { intros sha storedTree e Hget Hin Hmode.
    unfold Sample.missingSubtree in Hget. cbn [JsMap.get] in Hget.
    destruct (String.eqb_spec "A" sha) as [<-|]; [|discriminate].
    injection Hget as <-. destruct Hin as [<-|[<-|[]]].
    - discriminate.
    - cbv. lia. }
  split; [exact Htorn|].
  apply (proj2 (constructTree_torn Htorn) _ Hacyclic). cbv. lia.
Defined.

(** *** Flattening and rebuilding *)

Lemma stripDirectories_segment s : is_segment s = true -> stripDirectories s = s.
Proof.
  unfold is_segment. rewrite negb_true_iff.
  induction s as [|c r IH]; [reflexivity|].
  cbn [has_slash]. destruct (Ascii.eqb c slash) eqn:Ec; [discriminate|].
  intros Hr. specialize (IH Hr).
  assert (Hline : forall t, has_slash t = false -> slash_in_line t = false).
  { induction t as [|c' t' IHt]; [reflexivity|]. cbn [has_slash slash_in_line].
    destruct (is_line_terminator c'); [reflexivity|].
    destruct (Ascii.eqb c' slash); [discriminate|exact IHt]. }
  cbn [stripDirectories].
  rewrite (Hline (String c r)) by (cbn [has_slash]; now rewrite Ec).
  now rewrite IH.
Qed.

Lemma EntryType_eqb_eq a b : EntryType_eqb a b = true -> a = b.
Proof. destruct a, b; simpl; congruence. Qed.

Lemma collectNode_eq e c acc :
  collectNode (mkTreeNode e (Some c)) acc = collectTrees (TreeEntry.sha e) c acc.
Proof. reflexivity. Qed.

Lemma collect_fold (c : JsMap.t TreeNode) :
  (forall pn, In pn c ->
     forall acc, collectNode (snd pn) acc = acc ++ collectNode (snd pn) []) ->
  forall acc,
    fold_left (fun all pn => collectNode (snd pn) all) c acc
    = acc ++ flat_map (fun pn => collectNode (snd pn) []) c.
Proof.
  induction c as [|pn r IH]; intros Hc acc; simpl.
  - now rewrite app_nil_r.
  - rewrite IH by (intros; apply Hc; now right).
    rewrite (Hc pn (or_introl eq_refl) acc), app_assoc. reflexivity.
Qed.

Lemma collectNode_acc (n : TreeNode) :
  forall acc, collectNode n acc = acc ++ collectNode n [].
Proof.
  induction n as [e|e c IH] using TreeNode_ind'; intros acc.
  - simpl. now rewrite app_nil_r.
  - rewrite !collectNode_eq. unfold collectTrees, collectTreesWith.
    rewrite Forall_forall in IH.
    rewrite (collect_fold c IH acc), (collect_fold c IH []).
    now rewrite app_assoc.
Qed.

Lemma collectTrees_flat sha (c : JsMap.t TreeNode) :
  collectTrees sha c [] =
  flat_map (fun pn => collectNode (snd pn) []) c ++ [(sha, map storedEntryOf c)].
Proof.
  unfold collectTrees, collectTreesWith.
  now rewrite (collect_fold c (fun pn _ => collectNode_acc (snd pn)) []).
Qed.

Lemma In_collect_child sha (c : JsMap.t TreeNode) p n x :
  In (p, n) c -> In x (collectNode n []) -> In x (collectTrees sha c []).
Proof.
  intros Hpn Hx. rewrite collectTrees_flat, in_app_iff. left.
  apply in_flat_map. now exists (p, n).
Qed.

Lemma In_collect_self sha (c : JsMap.t TreeNode) :
  In (sha, map storedEntryOf c) (collectTrees sha c []).
Proof. rewrite collectTrees_flat, in_app_iff. right. now left. Qed.

Section Rebuild.
Variable trees : JsMap.t (list StoredTreeEntry.t).
Variable d : nat.

Let rec (s p : string) : Outcome (option TreeNode) :=
  constructTreeFromStoredTrees d s trees p.

(** The loop rebuilds the children it is given the stored entries of,
    provided the recursive call rebuilds each subdirectory. *)
Lemma constructChildren_rebuilds parentPath (rest acc : JsMap.t TreeNode) :
  NoDup (JsMap.keys (acc ++ rest)) ->
  (forall p n, In (p, n) rest -> wfNodeAt parentPath p n = true) ->
  (forall p e c, In (p, mkTreeNode e (Some c)) rest ->
     rec (TreeEntry.sha e) (TreeEntry.path e) = Returns (Some (mkTreeNode e (Some c)))) ->
  constructChildren rec parentPath (map storedEntryOf rest) acc
  = Returns (Some (acc ++ rest)).
Proof.
  revert acc. induction rest as [|[p n] r IH]; intros acc Hnd Hwf Hrec.
  - simpl. now rewrite app_nil_r.
  - cbn [map constructChildren].
    pose proof (Hwf p n (or_introl eq_refl)) as Hn.
    assert (Hfresh : ~ In p (JsMap.keys acc)).
    { unfold JsMap.keys in *. rewrite map_app in Hnd. simpl in Hnd.
      apply NoDup_remove_2 in Hnd. rewrite in_app_iff in Hnd. tauto. }
    assert (Hnext : forall v,
               constructChildren rec parentPath (map storedEntryOf r)
                 (JsMap.set acc p v)
               = Returns (Some ((acc ++ [(p, v)]) ++ r))).
    { intros v. rewrite JsMapFacts.set_fresh by exact Hfresh. apply IH.
      - unfold JsMap.keys in *. rewrite <- app_assoc, map_app.
        rewrite map_app in Hnd. exact Hnd.
      - intros; apply Hwf; now right.
      - intros; eapply Hrec; right; eauto. }
    destruct n as [e ch]. cbn [wfNodeAt] in Hn.
    apply andb_true_iff in Hn as [Hn Hch]. apply andb_true_iff in Hn as [Hseg Hpath].
    apply String.eqb_eq in Hpath.
    assert (Hse : storedEntryOf (p, mkTreeNode e ch)
                  = {| StoredTreeEntry.path := p;
                       StoredTreeEntry.sha := TreeEntry.sha e;
                       StoredTreeEntry.mode := TreeEntry.mode e |}).
    { unfold storedEntryOf. cbn [fst snd entry].
      now rewrite (stripDirectories_segment _ Hseg). }
    rewrite Hse.
    cbn [StoredTreeEntry.path StoredTreeEntry.mode StoredTreeEntry.sha].
    rewrite <- Hpath.
    destruct ch as [c|].
    + apply andb_true_iff in Hch as [Hch _]. apply andb_true_iff in Hch as [Hch _].
      apply andb_true_iff in Hch as [Hmode _]. rewrite Hmode.
      rewrite (Hrec p e c (or_introl eq_refl)). cbn [bind].
      rewrite Hnext, <- app_assoc. reflexivity.
    + apply andb_true_iff in Hch as [Hmode Htype].
      apply negb_true_iff in Hmode. rewrite Hmode.
      apply EntryType_eqb_eq in Htype.
      assert (Hleaf : forall sp,
                 leafNode (TreeEntry.path e)
                   {| StoredTreeEntry.path := sp;
                      StoredTreeEntry.sha := TreeEntry.sha e;
                      StoredTreeEntry.mode := TreeEntry.mode e |}
                 = mkTreeNode e None).
      { intros sp. unfold leafNode. cbn [StoredTreeEntry.mode StoredTreeEntry.sha].
        rewrite <- Htype. now destruct e. }
      rewrite Hleaf, Hnext, <- app_assoc. reflexivity.
Qed.
End Rebuild.

Lemma depthNode_child (c : JsMap.t TreeNode) p n d :
  In (p, n) c -> list_max (map (fun pn => depthNode (snd pn)) c) <= d ->
  depthNode n <= d.
Proof.
  intros Hin Hmax. apply list_max_le in Hmax. rewrite Forall_forall in Hmax.
  apply Hmax. apply in_map_iff. now exists (p, n).
Qed.

Lemma treeEntry_of_tree e path :
  String.eqb (TreeEntry.mode e) treeMode = true ->
  EntryType_eqb (TreeEntry.type e) tree = true ->
  TreeEntry.path e = path ->
  {| TreeEntry.mode := treeMode; TreeEntry.path := path;
     TreeEntry.sha := TreeEntry.sha e; TreeEntry.type := tree |} = e.
Proof.
  intros Hmode Htype Hpath. apply String.eqb_eq in Hmode.
  apply EntryType_eqb_eq in Htype. destruct e. simpl in *. now subst.
Qed.

Lemma constructTree_rebuilds_node trees (n : TreeNode) :
  forall parentPath key depth,
    wfNodeAt parentPath key n = true ->
    (forall x, In x (collectNode n []) -> JsMap.get trees (fst x) = Some (snd x)) ->
    depthNode n <= depth ->
    forall e c, n = mkTreeNode e (Some c) ->
      constructTreeFromStoredTrees depth (TreeEntry.sha e) trees (TreeEntry.path e)
      = Returns (Some n).
Proof.
  induction n as [e0|e0 c0 IH] using TreeNode_ind';
    intros parentPath key depth Hwf Hlook Hdepth e c Heq; [discriminate|].
  injection Heq as <- <-.
  cbn [depthNode] in Hdepth. destruct depth as [|d]; [lia|].
  apply le_S_n in Hdepth.
  cbn [wfNodeAt] in Hwf.
  apply andb_true_iff in Hwf as [_ Hch].
  apply andb_true_iff in Hch as [Hch Hsub]. apply andb_true_iff in Hch as [Hch Hnd].
  apply andb_true_iff in Hch as [Hmode Htype].
  apply nodupb_NoDup in Hnd. rewrite forallb_forall in Hsub.
  cbn [constructTreeFromStoredTrees].
  rewrite collectNode_eq in Hlook.
  pose proof (Hlook _ (In_collect_self (TreeEntry.sha e0) c0)) as Hself.
  cbn [fst snd] in Hself. rewrite Hself.
  rewrite (@constructChildren_rebuilds trees d (TreeEntry.path e0) c0 JsMap.empty).
  - cbn [bind app JsMap.empty].
    now rewrite (treeEntry_of_tree e0 Hmode Htype eq_refl).
  - exact Hnd.
  - intros p n Hpn. exact (Hsub (p, n) Hpn).
  - intros p e1 c1 Hpn. rewrite Forall_forall in IH.
    refine (IH _ Hpn (TreeEntry.path e0) p d (Hsub _ Hpn) _ _ e1 c1 eq_refl).
    + intros x Hx. apply Hlook. eapply In_collect_child; eauto.
    + eapply depthNode_child; eauto.
Qed.

(** C6: rebuilding from the root sha and the map of the flattened tree
    gives the tree back, for a tree as the tree model has it (directories
    keyed by distinct path segments, full paths in the entries, types and
    children following the modes) whose shas determine the stored entry
    lists, as soon as the depth allows for the nesting of the tree. *)
Theorem buildTree_flatten_roundtrip (sha : string) (c : JsMap.t TreeNode) (depth : nat) :
  wfTreeAt "" c = true ->
  shaConsistent (collectTrees sha c []) ->
  treeDepth c <= depth ->
  constructTreeFromStoredTrees depth sha
    (JsMap.of_entries (collectTrees sha c [])) ""
  = Returns (Some (rootNode sha c)).
Proof.
  intros Hwf Hsha Hdepth.
  set (trees := JsMap.of_entries (collectTrees sha c [])).
  assert (Hlook : forall x, In x (collectTrees sha c []) ->
                            JsMap.get trees (fst x) = Some (snd x)).
  { intros [s es] Hx. apply JsMapFacts.get_of_entries; [exact Hx|].
    intros es' Hx'. exact (Hsha _ _ _ Hx' Hx). }
  unfold wfTreeAt in Hwf. apply andb_true_iff in Hwf as [Hnd Hsub].
  apply nodupb_NoDup in Hnd. rewrite forallb_forall in Hsub.
  unfold treeDepth in Hdepth. destruct depth as [|d]; [lia|]. apply le_S_n in Hdepth.
  cbn [constructTreeFromStoredTrees].
  pose proof (Hlook _ (In_collect_self sha c)) as Hself.
  cbn [fst snd] in Hself. rewrite Hself.
  rewrite (@constructChildren_rebuilds trees d "" c JsMap.empty).
  - reflexivity.
  - exact Hnd.
  - intros p n Hpn. exact (Hsub (p, n) Hpn).
  - intros p e1 c1 Hpn.
    refine (@constructTree_rebuilds_node trees (mkTreeNode e1 (Some c1)) "" p d
              (Hsub _ Hpn) _ _ e1 c1 eq_refl).
    + intros x Hx. apply Hlook. eapply In_collect_child; eauto.
    + eapply depthNode_child; eauto.
Qed.

Lemma buildTree_flatten_roundtrip_witness :
  wfTreeAt "" Sample.site = true
  /\ constructTreeFromStoredTrees 3 "root"
       (JsMap.of_entries (collectTrees "root" Sample.site [])) ""
     = Returns (Some (rootNode "root" Sample.site)).
Proof.
  split; [reflexivity|].
  apply buildTree_flatten_roundtrip.
  - reflexivity.
  - intros s e1 e2 H1 H2. simpl in H1, H2.
    destruct H1 as [H1|[H1|[H1|[]]]], H2 as [H2|[H2|[H2|[]]]]; congruence.
  - cbv. lia.
Defined.

(** ** The garbage collector *)

Lemma sum_delete_le (trees : JsMap.t (list StoredTreeEntry.t)) sha entries :
  JsMap.get trees sha = Some entries ->
  list_sum (map (fun kv => S (List.length (snd kv))) (JsMap.delete trees sha))
  + S (List.length entries)
  <= list_sum (map (fun kv => S (List.length (snd kv))) trees).
Proof.
  unfold JsMap.delete, list_sum.
  assert (Hle : forall l : JsMap.t (list StoredTreeEntry.t),
             list_sum (map (fun kv => S (List.length (snd kv)))
                           (filter (fun kv => negb (String.eqb (fst kv) sha)) l))
             <= list_sum (map (fun kv => S (List.length (snd kv))) l)).
  { unfold list_sum. induction l as [|[k v] r IH]; [simpl; lia|].
    cbn [filter fst]. destruct (String.eqb k sha); cbn [negb map fold_right snd]; lia. }
  induction trees as [|[k v] r IH]; [discriminate|].
  unfold list_sum in Hle.
  cbn [JsMap.get filter fst]. destruct (String.eqb k sha); cbn [negb map fold_right snd].
  - intros [= ->]. specialize (Hle r). lia.
  - intros H. specialize (IH H). lia.
Qed.

Lemma markLoop_terminates fuel :
  forall i queue blobsToDelete treesToDelete,
    markPotential i queue treesToDelete < fuel ->
    exists r, markLoop fuel i queue blobsToDelete treesToDelete = Returns r.
Proof.
  induction fuel as [|fuel IH]; intros i queue blobs trees Hpot; [lia|].
  cbn [markLoop]. destruct (nth_error queue i) as [sha|] eqn:Hnth; [|eauto].
  assert (Hi : i < List.length queue) by (apply nth_error_Some; congruence).
  unfold markPotential in *.
  destruct (JsSet.has IDBValidKey_eqb blobs (KString sha)).
  - apply IH. lia.
  - destruct (JsMap.get trees sha) as [entries|] eqn:Hget.
    + apply IH.
      pose proof (sum_delete_le _ _ Hget).
      pose proof (JsSetFacts.length_fold_add String.eqb (entryShas entries) queue) as Hq.
      unfold entryShas in Hq at 2. rewrite length_map in Hq. lia.
    + apply IH. lia.
Qed.

Lemma treeSchema_safeParse_stored (stored : list StoredTreeEntry.t) :
  treeSchema_safeParse (js_of_storedTree stored) = Some stored.
Proof.
  unfold treeSchema_safeParse, js_of_storedTree.
  induction stored as [|[p s m] r IH]; [reflexivity|].
  cbn [map traverse]. rewrite IH. reflexivity.
Qed.

(** The scan loop of the collector walks validated trees only: it never
    finds an invalid one. *)
Lemma partitionStoredTrees_valid (stored : JsMap.t (list StoredTreeEntry.t)) :
  snd (partitionStoredTrees stored) = [].
Proof.
  unfold partitionStoredTrees.
  generalize (@JsMap.empty (list StoredTreeEntry.t)) as acc.
  induction stored as [|[k v] r IH]; intros acc; [reflexivity|].
  cbn [fold_left fst snd]. rewrite treeSchema_safeParse_stored. apply IH.
Qed.

Lemma markLoop_step fuel i queue blobsToDelete treesToDelete :
  markLoop (S fuel) i queue blobsToDelete treesToDelete =
  match nth_error queue i with
  | None => Returns (blobsToDelete, treesToDelete)
  | Some sha =>
      if JsSet.has IDBValidKey_eqb blobsToDelete (KString sha) then
        markLoop fuel (S i) queue
          (JsSet.delete IDBValidKey_eqb blobsToDelete (KString sha)) treesToDelete
      else
        match JsMap.get treesToDelete sha with
        | Some entries =>
            markLoop fuel (S i)
              (fold_left (JsSet.add String.eqb) (entryShas entries) queue)
              blobsToDelete (JsMap.delete treesToDelete sha)
        | None => markLoop fuel (S i) queue blobsToDelete treesToDelete
        end
  end.
Proof. reflexivity. Qed.


Lemma IDBValidKey_eqb_eq (a b : IDBValidKey) : IDBValidKey_eqb a b = true <-> a = b.
Proof.
  destruct a, b; simpl; try (split; [discriminate|congruence]).
  - rewrite Z.eqb_eq. split; congruence.
  - rewrite Z.eqb_eq. split; congruence.
  - rewrite String.eqb_eq. split; congruence.
Qed.

Lemma keys_set {V} (m : JsMap.t V) k v k' :
  In k' (JsMap.keys (JsMap.set m k v)) <-> In k' (JsMap.keys m) \/ k' = k.
Proof.
  induction m as [|[k0 v0] r IH]; cbn [JsMap.set JsMap.keys map fst In].
  - intuition.
  - destruct (String.eqb_spec k0 k) as [->|Hne]; cbn [JsMap.keys map fst In].
    + intuition.
    + unfold JsMap.keys in IH. rewrite IH. intuition.
Qed.

Lemma keys_delete {V} (m : JsMap.t V) k k' :
  In k' (JsMap.keys (JsMap.delete m k)) -> In k' (JsMap.keys m).
Proof.
  unfold JsMap.keys, JsMap.delete. intros H.
  apply in_map_iff in H as [kv [<- Hin]]. apply filter_In in Hin as [Hin _].
  now apply in_map.
Qed.

(** The marking loop only ever removes trees from [treesToDelete]. *)
Lemma markLoop_keys fuel :
  forall i queue blobs trees blobs' trees',
    markLoop fuel i queue blobs trees = Returns (blobs', trees') ->
    incl (JsMap.keys trees') (JsMap.keys trees).
Proof.
  induction fuel as [|fuel IH]; intros i queue blobs trees blobs' trees'; [discriminate|].
  rewrite markLoop_step. destruct (nth_error queue i) as [sha|].
  - destruct (JsSet.has IDBValidKey_eqb blobs (KString sha)); [apply IH|].
    destruct (JsMap.get trees sha) as [entries|]; [|apply IH].
    intros H k Hk. apply IH in H. eapply keys_delete, H, Hk.
  - intros [= <- <-]. apply incl_refl.
Qed.

Lemma partitionStoredTrees_keys (stored : JsMap.t (list StoredTreeEntry.t)) k :
  In k (JsMap.keys (fst (partitionStoredTrees stored))) -> In k (JsMap.keys stored).
Proof.
  unfold partitionStoredTrees.
  assert (H : forall acc,
             In k (JsMap.keys (fst (fold_left
               (fun acc st =>
                  match treeSchema_safeParse (js_of_storedTree (snd st)) with
                  | Some data => (JsMap.set (fst acc) (fst st) data, snd acc)
                  | None => (fst acc, snd acc ++ [KString (fst st)])
                  end) stored acc))) ->
             In k (JsMap.keys (fst acc)) \/ In k (JsMap.keys stored)).
  { induction stored as [|[k0 v0] r IH]; intros acc; cbn [fold_left]; [tauto|].
    rewrite treeSchema_safeParse_stored. intros Hk. apply IH in Hk.
    cbn [fst snd] in Hk. rewrite keys_set in Hk.
    cbn [JsMap.keys map fst In]. unfold JsMap.keys in *. intuition. }
  intros Hk. apply H in Hk. cbn in Hk. tauto.
Qed.

(** A key of the scanned map is a string key of the store with a valid tree. *)
Lemma scanTrees_keys (entries : IDBStore) k :
  In k (JsMap.keys (scanTrees entries)) ->
  exists v data, In (KString k, v) entries /\ treeSchema_safeParse v = Some data.
Proof.
  unfold scanTrees.
  assert (H : forall acc,
             In k (JsMap.keys (fold_left
               (fun cache st =>
                  match treeSchema_safeParse (snd st), fst st with
                  | Some data, KString sha => JsMap.set cache sha data
                  | _, _ => cache
                  end) entries acc)) ->
             In k (JsMap.keys acc)
             \/ exists v data, In (KString k, v) entries
                               /\ treeSchema_safeParse v = Some data).
  { induction entries as [|[k0 v0] r IH]; intros acc; cbn [fold_left]; [tauto|].
    intros Hk. apply IH in Hk as [Hk|(v & data & Hin & Hv)].
    - cbn [fst snd] in Hk.
      destruct (treeSchema_safeParse v0) as [data|] eqn:Hv0; [|now left].
      destruct k0; try (now left).
      apply keys_set in Hk as [Hk| ->]; [now left|].
      right. exists v0, data. split; [now left|exact Hv0].
    - right. exists v, data. split; [now right|exact Hv]. }
  intros Hk. apply H in Hk as [[]|Hk]. exact Hk.
Qed.

Lemma store_value_unique (entries : IDBStore) k v v' :
  NoDup (map fst entries) -> In (k, v) entries -> In (k, v') entries -> v = v'.
Proof.
  induction entries as [|[k0 v0] r IH]; [intros _ []|].
  cbn [map fst]. intros Hnd H1 H2. inversion Hnd as [|? ? Hnotin Hnd']; subst.
  destruct H1 as [H1|H1], H2 as [H2|H2].
  - congruence.
  - injection H1 as -> ->. exfalso. apply Hnotin. now apply (in_map fst) in H2.
  - injection H2 as -> ->. exfalso. apply Hnotin. now apply (in_map fst) in H1.
  - now apply IH.
Qed.

Section Collector.
Variable JSON_parse : string -> option JsVal.

Lemma getExtraRoots_returns config st :
  exists extra, getExtraRoots JSON_parse config st = Returns extra.
Proof.
  unfold getExtraRoots.
  destruct (JsMap.get (localStorage st) (extraRootsKey config)) as [val|]; [|eauto].
  destruct (String.eqb val ""); [eauto|].
  unfold parseJSON. destruct (JSON_parse val) as [v|]; cbn; [|eauto].
  destruct v; cbn; eauto.
  destruct (traverse _ fields); cbn; eauto.
Qed.

(** The collector always runs to completion. *)
Lemma garbageCollectGitObjects_terminates config _roots st :
  exists st', garbageCollectGitObjects JSON_parse config _roots st = Returns st'.
Proof.
  unfold garbageCollectGitObjects.
  destruct (getExtraRoots_returns config st) as [extra ->]. cbn [bind].
  destruct (getStoredTrees st) as [stored st1].
  destruct (partitionStoredTrees stored) as [treesToDelete invalidTrees].
  match goal with
  | |- context [markLoop (markBudget ?q ?t) 0 ?q ?b ?t] =>
      destruct (@markLoop_terminates (markBudget q t) 0 q b t) as [[b' t'] ->]
  end.
  - unfold markBudget, markPotential. lia.
  - cbn [bind]. eauto.
Qed.


(** Starting from an unpopulated cache, no entry of the tree store that
    fails validation is ever deleted by the collector. *)
Lemma gc_invalid_tree_survives config _roots st st' k v :
  _storedTreeCache st = None ->
  NoDup (map fst (treeStore st)) ->
  In (k, v) (treeStore st) ->
  treeSchema_safeParse v = None ->
  garbageCollectGitObjects JSON_parse config _roots st = Returns st' ->
  In (k, v) (treeStore st').
Proof.
  intros Hcache Hnd Hin Hbad. unfold garbageCollectGitObjects.
  destruct (getExtraRoots JSON_parse config st) as [extra| |]; cbn [bind]; try discriminate.
  unfold getStoredTrees. rewrite Hcache.
  pose proof (partitionStoredTrees_valid (scanTrees (treeStore st))) as Hvalid.
  pose proof (partitionStoredTrees_keys (scanTrees (treeStore st))) as Hkeys.
  destruct (partitionStoredTrees (scanTrees (treeStore st))) as [treesToDelete invalidTrees].
  cbn [fst snd] in Hvalid, Hkeys. subst invalidTrees.
  cbn [blobStore treeStore localStorage _storedTreeCache].
  match goal with
  | |- context [markLoop ?f ?i ?q ?b ?t] =>
      destruct (markLoop f i q b t) as [[blobs' trees']| |] eqn:Hloop
  end; cbn [bind]; try discriminate.
  intros [= <-]. cbn [treeStore]. unfold delMany. apply filter_In.
  split; [exact Hin|]. cbn [fst]. apply negb_true_iff.
  destruct (JsSet.has IDBValidKey_eqb (map KString (JsMap.keys trees') ++ []) k) eqn:Hhas;
    [|reflexivity].
  exfalso. apply (JsSetFacts.has_In _ IDBValidKey_eqb_eq) in Hhas.
  rewrite app_nil_r in Hhas. apply in_map_iff in Hhas as [s [<- Hs]].
  apply (markLoop_keys _ _ _ _ _ Hloop) in Hs. apply Hkeys in Hs.
  apply scanTrees_keys in Hs as (v' & data & Hin' & Hv').
  rewrite (@store_value_unique _ _ _ _ Hnd Hin Hin') in Hbad. congruence.
Qed.

(** C8, at a failing input: a value of the tree store that is not a tree
    is still in the tree store when the collector has completed. *)
Theorem gc_keeps_invalid_tree :
  treeSchema_safeParse (JNum 1) = None
  /\ exists st',
       garbageCollectGitObjects JSON_parse Sample.localConfig ["A"]
         Sample.withInvalidTree = Returns st'
       /\ treeStore st' = [(KString "A", Sample.treeValue "x" "100644" "B");
                           (KString "X", JNum 1)].
Proof.
  split; [reflexivity|]. eexists. split; reflexivity.
Qed.

Lemma traverse_None {A B} (f : A -> option B) (l : list A) x :
  In x l -> f x = None -> traverse f l = None.
Proof.
  induction l as [|a r IH]; [intros []|].
  intros [->|Hin] Hx; cbn [traverse].
  - now rewrite Hx.
  - rewrite (IH Hin Hx). now destruct (f a).
Qed.

Lemma extraRootSchema_malformed v :
  malformedRecord v -> extraRootSchema v = None.
Proof.
  destruct v; try reflexivity. cbn [malformedRecord extraRootSchema].
  intros [Hsha|Hdate].
  - destruct (JsMap.get fields "sha") as [[]|]; try reflexivity.
    now destruct (Hsha s).
  - destruct (JsMap.get fields "sha") as [[]|]; try reflexivity.
    destruct (JsMap.get fields "updatedAt") as [[]|]; try reflexivity.
    now destruct (Hdate s0).
Qed.

Lemma traverse_None_inv {A B} (f : A -> option B) (l : list A) :
  traverse f l = None -> exists x, In x l /\ f x = None.
Proof.
  induction l as [|a r IH]; [discriminate|]. cbn [traverse].
  destruct (f a) eqn:Ea.
  - destruct (traverse f r); [discriminate|]. intros _.
    destruct (IH eq_refl) as [x [Hin Hx]]. exists x. split; [now right|exact Hx].
  - intros _. exists a. split; [now left|exact Ea].
Qed.

Lemma extraRootSchema_None_inv v :
  extraRootSchema v = None -> malformedRecord v.
Proof.
  destruct v; try exact (fun _ => I). cbn [malformedRecord extraRootSchema].
  destruct (JsMap.get fields "sha") as [[]|];
    try (intros _; left; intros s'; discriminate).
  destruct (JsMap.get fields "updatedAt") as [[]|];
    try (intros _; right; intros u'; discriminate).
  discriminate.
Qed.

(** The three ways of being malformed are all the ways in which the
    validation fails. *)
Lemma malformedExtraRoots_iff val :
  malformedExtraRoots JSON_parse val <-> failsValidation JSON_parse val.
Proof.
  unfold failsValidation, parseJSON. split.
  - intros [Hjson | v Hjson Hshape | fields branch v Hjson Hin Hrec] result;
      rewrite Hjson; cbn [bind].
    + discriminate.
    + destruct v; try discriminate. now destruct (Hshape fields).
    + cbn [extraRootsSchema_parse].
      rewrite (@traverse_None _ _ _ fields (branch, v) Hin); [discriminate|].
      cbn [fst snd]. now rewrite (extraRootSchema_malformed _ Hrec).
  - intros Hfails. destruct (JSON_parse val) as [v|] eqn:Hjson;
      [|now apply malformed_json].
    cbn [bind] in Hfails.
    destruct v; try (apply malformed_shape with (1 := Hjson); discriminate).
    cbn [extraRootsSchema_parse] in Hfails.
    destruct (traverse _ fields) as [result|] eqn:Htr; [now destruct (Hfails result)|].
    apply traverse_None_inv in Htr as [[branch v] [Hin Hv]]. cbn [fst snd] in Hv.
    apply malformed_record with (1 := Hjson) (2 := Hin).
    apply extraRootSchema_None_inv.
    destruct (extraRootSchema v); [discriminate|reflexivity].
Qed.

(** C9: a persisted extra-roots value that is not JSON, is not an object,
    or holds a record without a string [sha] or a string [updatedAt] is
    read as the empty mapping; nothing is thrown. *)
Theorem getExtraRoots_malformed (config : Config) (st : State) (val : string) :
  JsMap.get (localStorage st) (extraRootsKey config) = Some val ->
  malformedExtraRoots JSON_parse val ->
  getExtraRoots JSON_parse config st = Returns JsMap.empty.
Proof.
  intros Hget Hbad. unfold getExtraRoots. rewrite Hget.
  destruct (String.eqb val ""); [reflexivity|].
  unfold parseJSON.
  destruct Hbad as [Hjson | v Hjson Hshape | fields branch v Hjson Hin Hrec];
    rewrite Hjson; cbn [bind try_catch].
  - reflexivity.
  - destruct v; try reflexivity. now destruct (Hshape fields).
  - cbn [extraRootsSchema_parse].
    rewrite (@traverse_None _ _ _ fields (branch, v) Hin); [reflexivity|].
    cbn [fst snd]. now rewrite (extraRootSchema_malformed _ Hrec).
Qed.
End Collector.


Lemma getExtraRoots_malformed_witness :
  getExtraRoots Sample.parseSample Sample.localConfig Sample.withBadRoots
  = Returns JsMap.empty.
Proof.
  apply (@getExtraRoots_malformed Sample.parseSample Sample.localConfig
           Sample.withBadRoots "{main:{sha:1}}").
  - reflexivity.
  - apply malformed_record with (fields := [("main", JObj [("sha", JNum 1)])])
                                (branch := "main") (v := JObj [("sha", JNum 1)]).
    + reflexivity.
    + now left.
    + left. intros s. discriminate.
Defined.

(** ** Clearing the object store *)

(** C10: [clearObjectStore] empties both stores and removes the scope's
    extra-roots key, and leaves the in-memory cache as it was: a populated
    cache keeps answering [getTreeFromPersistedCache] as before, from trees
    the tree store no longer holds. *)
Theorem clearObjectStore_keeps_cache (config : Config) (st : State)
    (cache : JsMap.t (list StoredTreeEntry.t)) (depth : nat) (sha : string) :
  _storedTreeCache st = Some cache ->
  let st' := clearObjectStore config st in
  treeStore st' = []
  /\ blobStore st' = []
  /\ JsMap.get (localStorage st') (extraRootsKey config) = None
  /\ _storedTreeCache st' = Some cache
  /\ getTreeFromPersistedCache depth sha st'
     = (constructTreeFromStoredTrees depth sha cache "", st')
  /\ fst (getTreeFromPersistedCache depth sha st')
     = fst (getTreeFromPersistedCache depth sha st).
Proof.
  intros Hcache st'. subst st'. unfold clearObjectStore.
  repeat split.
  - cbn [localStorage]. apply JsMapFacts.get_delete.
  - exact Hcache.
  - unfold getTreeFromPersistedCache, getStoredTrees. cbn [_storedTreeCache].
    now rewrite Hcache.
  - unfold getTreeFromPersistedCache, getStoredTrees. cbn [_storedTreeCache].
    now rewrite Hcache.
Qed.

Lemma clearObjectStore_keeps_cache_witness :
  let st' := clearObjectStore Sample.localConfig Sample.populated in
  treeStore st' = []
  /\ fst (getTreeFromPersistedCache 1 "A" st')
     = Returns (Some (rootNode "A" [("x", Sample.blobNode "x" "B")])).
Proof.
  destruct (@clearObjectStore_keeps_cache Sample.localConfig Sample.populated
              [("A", [Sample.storedEntry "x" "100644" "B"])] 1 "A" eq_refl)
    as (Hts & _ & _ & _ & Hget & _).
  split; [exact Hts|]. rewrite Hget. reflexivity.
Defined.

(** * Further properties *)

(** ** The marking loop of the collector *)

Lemma fold_add_extends (l q : list string) :
  exists l', fold_left (JsSet.add String.eqb) l q = q ++ l'.
Proof.
  revert q. induction l as [|a r IH]; intros q; cbn [fold_left].
  - exists []. now rewrite app_nil_r.
  - destruct (IH (JsSet.add String.eqb q a)) as [l' ->].
    unfold JsSet.add. destruct (JsSet.has String.eqb q a).
    + now exists l'.
    + exists ([a] ++ l'). now rewrite app_assoc.
Qed.

Lemma get_delete_other {V} (m : JsMap.t V) k s :
  JsMap.get (JsMap.delete m k) s = if String.eqb k s then None else JsMap.get m s.
Proof.
  destruct (String.eqb_spec k s) as [->|Hne]; [apply JsMapFacts.get_delete|].
  unfold JsMap.delete. induction m as [|[k0 v0] r IH]; [reflexivity|].
  cbn [filter fst JsMap.get].
  destruct (String.eqb_spec k0 k) as [->|Hk]; cbn [negb].
  - rewrite IH. destruct (String.eqb_spec k s); [contradiction|reflexivity].
  - cbn [JsMap.get]. now rewrite IH.
Qed.

Lemma has_false_iff (blobs : list IDBValidKey) k :
  JsSet.has IDBValidKey_eqb blobs k = false <-> ~ In k blobs.
Proof.
  rewrite <- (JsSetFacts.has_In _ IDBValidKey_eqb_eq).
  destruct (JsSet.has IDBValidKey_eqb blobs k); split; congruence.
Qed.

Lemma processed_mono i queue s l' :
  processed i queue s -> i <= List.length queue -> processed (S i) (queue ++ l') s.
Proof.
  intros (j & Hj & Hnth) Hi. exists j. split; [lia|].
  rewrite nth_error_app1; [exact Hnth|lia].
Qed.

Lemma processed_S_inv i queue s l' sha :
  nth_error queue i = Some sha ->
  processed (S i) (queue ++ l') s -> processed i queue s \/ s = sha.
Proof.
  intros Hnth (j & Hj & Hs).
  assert (Hi : i < List.length queue) by (apply nth_error_Some; congruence).
  rewrite nth_error_app1 in Hs by lia.
  destruct (Nat.eq_dec j i) as [->|Hne].
  - right. congruence.
  - left. exists j. split; [lia|exact Hs].
Qed.

Section MarkInvariant.
Variable roots : list string.
Variable blobs0 : list IDBValidKey.
Variable trees0 : JsMap.t (list StoredTreeEntry.t).

Lemma MarkInv_init :
  MarkInv roots blobs0 trees0 0 (JsSet.of_list String.eqb roots) blobs0 trees0.
Proof.
  constructor.
  - lia.
  - apply (JsSetFacts.NoDup_of_list _ JsSetFacts.string_eqb_eq).
  - intros s Hs. apply live_root.
    exact (proj1 (JsSetFacts.In_of_list _ JsSetFacts.string_eqb_eq _ _) Hs).
  - intros s Hs. exact (proj2 (JsSetFacts.In_of_list _ JsSetFacts.string_eqb_eq _ _) Hs).
  - auto.
  - intros k Hk Hnot. contradiction.
  - intros s (j & Hj & _). lia.
  - intros s. now right.
  - intros s Hnone Hsome. congruence.
  - intros s (j & Hj & _). lia.
Qed.

(** A sha met at position [i] that is not among the blobs still to delete
    was never a blob key. *)
Lemma fresh_not_blob i queue blobs trees sha :
  MarkInv roots blobs0 trees0 i queue blobs trees ->
  nth_error queue i = Some sha ->
  ~ In (KString sha) blobs ->
  ~ In (KString sha) blobs0.
Proof.
  intros Inv Hnth Hnot Hin0.
  destruct (inv_blobs_marked Inv _ Hin0 Hnot) as (s & [= <-] & j & Hj & Hs).
  pose proof (inv_nodup Inv) as Hnd.
  rewrite NoDup_nth_error in Hnd.
  assert (Hi : i < List.length queue) by (apply nth_error_Some; congruence).
  assert (j = i); [|lia].
  apply Hnd; [apply nth_error_Some; congruence|congruence].
Qed.

Lemma MarkInv_step_blob i queue blobs trees sha :
  MarkInv roots blobs0 trees0 i queue blobs trees ->
  nth_error queue i = Some sha ->
  In (KString sha) blobs ->
  MarkInv roots blobs0 trees0 (S i) queue (JsSet.delete IDBValidKey_eqb blobs (KString sha)) trees.
Proof.
  intros Inv Hnth Hblob.
  assert (Hi : i < List.length queue) by (apply nth_error_Some; congruence).
  assert (Hproc : forall s, processed (S i) queue s -> processed i queue s \/ s = sha).
  { intros s Hs. apply (@processed_S_inv i queue s [] sha Hnth).
    now rewrite app_nil_r. }
  assert (Hmono : forall s, processed i queue s -> processed (S i) queue s).
  { intros s (j & Hj & Hs). exists j. split; [lia|exact Hs]. }
  constructor.
  - lia.
  - apply Inv.
  - apply Inv.
  - apply Inv.
  - intros k Hk. apply (JsSetFacts.In_delete _ IDBValidKey_eqb_eq) in Hk as [Hk _].
    now apply Inv.
  - intros k Hk0 Hnot.
    destruct (IDBValidKey_eqb k (KString sha)) eqn:E.
    + apply IDBValidKey_eqb_eq in E. subst k. exists sha. split; [reflexivity|].
      exists i. split; [lia|exact Hnth].
    + assert (Hk : ~ In k blobs).
      { intros Hk. apply Hnot. apply (JsSetFacts.In_delete _ IDBValidKey_eqb_eq).
        split; [exact Hk|]. intros ->.
        assert (IDBValidKey_eqb (KString sha) (KString sha) = true)
          by now apply IDBValidKey_eqb_eq.
        congruence. }
      destruct (inv_blobs_marked Inv _ Hk0 Hk) as (s & -> & Hs). eauto.
  - intros s Hs Hin. apply (JsSetFacts.In_delete _ IDBValidKey_eqb_eq) in Hin as [Hin Hne].
    destruct (Hproc s Hs) as [Hold| ->]; [|congruence].
    exact (inv_blob_done Inv Hold Hin).
  - apply Inv.
  - intros s Hnone Hsome. destruct (inv_trees_marked Inv _ Hnone Hsome). auto.
  - intros s Hs Hnot0. destruct (Hproc s Hs) as [Hold| ->].
    + exact (inv_tree_done Inv Hold Hnot0).
    + exfalso. apply Hnot0. now apply Inv.
Qed.

Lemma MarkInv_step_tree i queue blobs trees sha entries :
  MarkInv roots blobs0 trees0 i queue blobs trees ->
  nth_error queue i = Some sha ->
  ~ In (KString sha) blobs ->
  JsMap.get trees sha = Some entries ->
  MarkInv roots blobs0 trees0 (S i) (fold_left (JsSet.add String.eqb) (entryShas entries) queue)
          blobs (JsMap.delete trees sha).
Proof.
  intros Inv Hnth Hnot Hget.
  assert (Hi : i < List.length queue) by (apply nth_error_Some; congruence).
  pose proof (fresh_not_blob Inv Hnth Hnot) as Hnot0.
  assert (Hget0 : JsMap.get trees0 sha = Some entries).
  { destruct (inv_trees_get Inv sha) as [H|H]; congruence. }
  destruct (fold_add_extends (entryShas entries) queue) as [l' Hq].
  assert (Hin_new : forall s, In s (fold_left (JsSet.add String.eqb) (entryShas entries) queue)
                              <-> In s queue \/ In s (entryShas entries)).
  { intros s. apply (JsSetFacts.In_fold_add _ JsSetFacts.string_eqb_eq). }
  constructor.
  - rewrite Hq, length_app. lia.
  - apply (JsSetFacts.NoDup_fold_add _ JsSetFacts.string_eqb_eq), Inv.
  - intros s Hs. apply Hin_new in Hs as [Hs|Hs]; [now apply Inv|].
    unfold entryShas in Hs. apply in_map_iff in Hs as [e [<- He]].
    apply live_entry with (s := sha) (entries := entries); try assumption.
    apply Inv. eapply nth_error_In; eauto.
  - intros s Hs. apply Hin_new. left. now apply Inv.
  - apply Inv.
  - intros k Hk0 Hk. destruct (inv_blobs_marked Inv _ Hk0 Hk) as (s & -> & Hs).
    exists s. split; [reflexivity|]. rewrite Hq. apply processed_mono; [exact Hs|lia].
  - intros s Hs. rewrite Hq in Hs.
    destruct (processed_S_inv _ _ Hnth Hs) as [Hold| ->]; [|exact Hnot].
    exact (inv_blob_done Inv Hold).
  - intros s. rewrite get_delete_other. destruct (String.eqb sha s); [now left|].
    apply Inv.
  - intros s. rewrite get_delete_other. rewrite Hq.
    destruct (String.eqb_spec sha s) as [<-|Hne].
    + intros _ _. split; [|exact Hnot0]. exists i. split; [lia|].
      rewrite nth_error_app1; [exact Hnth|lia].
    + intros Hnone Hsome. destruct (inv_trees_marked Inv _ Hnone Hsome) as [Hs Hb].
      split; [|exact Hb]. apply processed_mono; [exact Hs|lia].
  - intros s Hs Hs0. rewrite Hq in Hs. rewrite get_delete_other.
    destruct (processed_S_inv _ _ Hnth Hs) as [Hold| ->].
    + destruct (inv_tree_done Inv Hold Hs0) as [Hnone Hent]. split.
      * now destruct (String.eqb sha s).
      * intros es e Hes He. apply Hin_new. left. eapply Hent; eauto.
    + rewrite String.eqb_refl. split; [reflexivity|].
      intros es e Hes He. apply Hin_new. right.
      assert (es = entries) by congruence. subst es.
      unfold entryShas. now apply in_map.
Qed.

Lemma MarkInv_step_skip i queue blobs trees sha :
  MarkInv roots blobs0 trees0 i queue blobs trees ->
  nth_error queue i = Some sha ->
  ~ In (KString sha) blobs ->
  JsMap.get trees sha = None ->
  MarkInv roots blobs0 trees0 (S i) queue blobs trees.
Proof.
  intros Inv Hnth Hnot Hget.
  assert (Hi : i < List.length queue) by (apply nth_error_Some; congruence).
  pose proof (fresh_not_blob Inv Hnth Hnot) as Hnot0.
  assert (Hproc : forall s, processed (S i) queue s -> processed i queue s \/ s = sha).
  { intros s Hs. apply (@processed_S_inv i queue s [] sha Hnth).
    now rewrite app_nil_r. }
  assert (Hmono : forall s, processed i queue s -> processed (S i) queue s).
  { intros s (j & Hj & Hs). exists j. split; [lia|exact Hs]. }
  constructor; try apply Inv.
  - lia.
  - intros k Hk0 Hk. destruct (inv_blobs_marked Inv _ Hk0 Hk) as (s & -> & Hs). eauto.
  - intros s Hs. destruct (Hproc s Hs) as [Hold| ->]; [|exact Hnot].
    exact (inv_blob_done Inv Hold).
  - intros s Hnone Hsome. destruct (inv_trees_marked Inv _ Hnone Hsome). auto.
  - intros s Hs Hs0. destruct (Hproc s Hs) as [Hold| ->].
    + exact (inv_tree_done Inv Hold Hs0).
    + split; [exact Hget|]. intros es e Hes He.
      assert (Hsome : JsMap.get trees0 sha <> None) by congruence.
      destruct (inv_trees_marked Inv _ Hget Hsome) as [Hold _].
      destruct (inv_tree_done Inv Hold Hs0) as [_ Hent]. eapply Hent; eauto.
Qed.

(** The invariant goes through the whole loop: at its end every member of
    the queue has been processed. *)
Lemma markLoop_invariant fuel :
  forall i queue blobs trees blobs' trees',
    MarkInv roots blobs0 trees0 i queue blobs trees ->
    markLoop fuel i queue blobs trees = Returns (blobs', trees') ->
    exists queue', MarkInv roots blobs0 trees0 (List.length queue') queue' blobs' trees'.
Proof.
  induction fuel as [|fuel IH]; intros i queue blobs trees blobs' trees' Inv;
    [discriminate|].
  rewrite markLoop_step. destruct (nth_error queue i) as [sha|] eqn:Hnth.
  - destruct (JsSet.has IDBValidKey_eqb blobs (KString sha)) eqn:Hhas.
    + apply IH. apply MarkInv_step_blob; try assumption.
      now apply (JsSetFacts.has_In _ IDBValidKey_eqb_eq).
    + apply has_false_iff in Hhas.
      destruct (JsMap.get trees sha) as [entries|] eqn:Hget.
      * apply IH. now apply MarkInv_step_tree.
      * apply IH. eapply MarkInv_step_skip; eauto.
  - intros [= <- <-]. exists queue.
    apply nth_error_None in Hnth. pose proof (inv_bound Inv).
    now replace (List.length queue) with i by lia.
Qed.

Lemma all_processed queue s :
  In s queue -> processed (List.length queue) queue s.
Proof.
  intros Hin. apply In_nth_error in Hin as [j Hj]. exists j. split; [|exact Hj].
  apply nth_error_Some. congruence.
Qed.

Lemma live_in_queue queue blobs trees :
  MarkInv roots blobs0 trees0 (List.length queue) queue blobs trees ->
  forall s, live roots blobs0 trees0 s -> In s queue.
Proof.
  intros Inv s Hlive. induction Hlive as [s Hroot | s entries e _ IH Hnot Hget He].
  - now apply Inv.
  - destruct (inv_tree_done Inv (all_processed _ _ IH) Hnot) as [_ Hent].
    eapply Hent; eauto.
Qed.

(** What the marking loop leaves to delete, in terms of liveness. *)
Lemma markLoop_marks fuel blobs' trees' :
  markLoop fuel 0 (JsSet.of_list String.eqb roots) blobs0 trees0 = Returns (blobs', trees') ->
  (forall k, In k blobs' <->
              In k blobs0 /\ forall s, k = KString s -> ~ live roots blobs0 trees0 s)
  /\ (forall s, JsMap.get trees' s = None \/ JsMap.get trees' s = JsMap.get trees0 s)
  /\ (forall s, JsMap.get trees0 s <> None ->
        (JsMap.get trees' s = None
         <-> live roots blobs0 trees0 s /\ ~ In (KString s) blobs0))
  /\ (forall k, In k blobs0 -> ~ In k blobs' ->
        exists s, k = KString s /\ live roots blobs0 trees0 s).
Proof.
  intros Hloop.
  destruct (markLoop_invariant _ MarkInv_init Hloop) as [queue Inv].
  split; [|split; [|split]].
  - intros k. split.
    + intros Hk. split; [now apply Inv|]. intros s -> Hlive.
      apply (inv_blob_done Inv (all_processed _ _ (live_in_queue Inv Hlive))). exact Hk.
    + intros [Hk0 Hdead].
      destruct (JsSet.has IDBValidKey_eqb blobs' k) eqn:Hhas;
        [now apply (JsSetFacts.has_In _ IDBValidKey_eqb_eq) in Hhas|].
      apply has_false_iff in Hhas. rename Hhas into Hnot.
      exfalso. destruct (inv_blobs_marked Inv _ Hk0 Hnot) as (s & -> & j & _ & Hs).
      apply (Hdead s eq_refl). apply Inv. eapply nth_error_In; eauto.
  - apply Inv.
  - intros s Hsome. split.
    + intros Hnone. destruct (inv_trees_marked Inv _ Hnone Hsome) as [(j & _ & Hs) Hb].
      split; [|exact Hb]. apply Inv. eapply nth_error_In; eauto.
    + intros [Hlive Hb].
      exact (proj1 (inv_tree_done Inv (all_processed _ _ (live_in_queue Inv Hlive)) Hb)).
  - intros k Hk0 Hnot. destruct (inv_blobs_marked Inv _ Hk0 Hnot) as (s & -> & j & _ & Hs).
    exists s. split; [reflexivity|]. apply Inv. eapply nth_error_In; eauto.
Qed.
End MarkInvariant.

(** ** The collector as a whole *)

Lemma live_ext roots blobKeys blobKeys' trees s :
  (forall k, In k blobKeys <-> In k blobKeys') ->
  live roots blobKeys trees s -> live roots blobKeys' trees s.
Proof.
  intros Hext Hlive. induction Hlive as [s Hroot | s entries e _ IH Hnot Hget He].
  - now apply live_root.
  - apply live_entry with (s := s) (entries := entries); try assumption.
    now rewrite <- Hext.
Qed.

Lemma wf_set {V} (m : JsMap.t V) k v : JsMap.wf m -> JsMap.wf (JsMap.set m k v).
Proof.
  unfold JsMap.wf. induction m as [|[k0 v0] r IH]; cbn [JsMap.set JsMap.keys map fst].
  - intros _. constructor; [intros []|constructor].
  - intros Hnd. inversion Hnd as [|? ? Hnotin Hnd']; subst.
    destruct (String.eqb_spec k0 k) as [->|Hne]; cbn [JsMap.keys map fst].
    + constructor; assumption.
    + constructor; [|now apply IH].
      intros Hin. apply (proj1 (keys_set r k v k0)) in Hin as [Hin|Hin];
        [contradiction|congruence].
Qed.

Lemma scanTrees_wf (entries : IDBStore) : JsMap.wf (scanTrees entries).
Proof.
  unfold scanTrees.
  assert (H : forall acc : JsMap.t (list StoredTreeEntry.t), JsMap.wf acc ->
             JsMap.wf (fold_left
               (fun cache st =>
                  match treeSchema_safeParse (snd st), fst st with
                  | Some data, KString sha => JsMap.set cache sha data
                  | _, _ => cache
                  end) entries acc)).
  { induction entries as [|[k v] r IH]; intros acc Hacc; cbn [fold_left]; [exact Hacc|].
    apply IH. cbn [fst snd]. destruct (treeSchema_safeParse v); [|exact Hacc].
    destruct k; try exact Hacc. now apply wf_set. }
  apply H. constructor.
Qed.

Lemma partitionStoredTrees_wf (stored : JsMap.t (list StoredTreeEntry.t)) :
  JsMap.wf stored -> fst (partitionStoredTrees stored) = stored.
Proof.
  unfold partitionStoredTrees, JsMap.wf.
  assert (H : forall (acc : JsMap.t (list StoredTreeEntry.t)) inv,
             NoDup (JsMap.keys (acc ++ stored)) ->
             fst (fold_left
               (fun acc st =>
                  match treeSchema_safeParse (js_of_storedTree (snd st)) with
                  | Some data => (JsMap.set (fst acc) (fst st) data, snd acc)
                  | None => (fst acc, snd acc ++ [KString (fst st)])
                  end) stored (acc, inv)) = acc ++ stored).
  { induction stored as [|[k v] r IH]; intros acc inv Hnd; cbn [fold_left].
    - now rewrite app_nil_r.
    - rewrite treeSchema_safeParse_stored. cbn [fst snd].
      assert (Hfresh : ~ In k (JsMap.keys acc)).
      { unfold JsMap.keys in *. rewrite map_app in Hnd. cbn [map fst] in Hnd.
        apply NoDup_remove_2 in Hnd. rewrite in_app_iff in Hnd. tauto. }
      rewrite JsMapFacts.set_fresh by exact Hfresh.
      rewrite IH; [now rewrite <- app_assoc|].
      unfold JsMap.keys in *. rewrite <- app_assoc. exact Hnd. }
  intros Hwf. apply (H [] []). exact Hwf.
Qed.

Lemma getStoredTrees_wf st : cacheWf st -> JsMap.wf (fst (getStoredTrees st)).
Proof.
  unfold cacheWf, getStoredTrees. destruct (_storedTreeCache st); [auto|].
  intros _. apply scanTrees_wf.
Qed.

Lemma getStoredTrees_stores st :
  blobStore (snd (getStoredTrees st)) = blobStore st
  /\ treeStore (snd (getStoredTrees st)) = treeStore st
  /\ localStorage (snd (getStoredTrees st)) = localStorage st
  /\ _storedTreeCache (snd (getStoredTrees st)) = Some (fst (getStoredTrees st)).
Proof.
  unfold getStoredTrees. destruct (_storedTreeCache st) eqn:E; cbn; auto.
Qed.

Section CollectorFacts.
Variable JSON_parse : string -> option JsVal.

(** What a completed run of the collector consists of. *)
Lemma garbageCollectGitObjects_run config _roots st st' :
  cacheWf st ->
  garbageCollectGitObjects JSON_parse config _roots st = Returns st' ->
  exists extra fuel blobs' trees',
    getExtraRoots JSON_parse config st = Returns extra
    /\ markLoop fuel 0 (JsSet.of_list String.eqb (allRoots _roots extra))
         (JsSet.of_list IDBValidKey_eqb (map fst (blobStore st)))
         (fst (getStoredTrees st)) = Returns (blobs', trees')
    /\ localStorage st' = localStorage st
    /\ blobStore st' = delMany blobs' (blobStore st)
    /\ treeStore st' = delMany (map KString (JsMap.keys trees')) (treeStore st)
    /\ _storedTreeCache st' =
       fold_left cacheDelete (map KString (JsMap.keys trees'))
                 (Some (fst (getStoredTrees st))).
Proof.
  intros Hwf. unfold garbageCollectGitObjects.
  destruct (getExtraRoots JSON_parse config st) as [extra| |]; cbn [bind]; try discriminate.
  pose proof (getStoredTrees_stores st) as (Hb & Ht & Hl & Hc).
  pose proof (partitionStoredTrees_wf (getStoredTrees_wf st Hwf)) as Hpart.
  pose proof (partitionStoredTrees_valid (fst (getStoredTrees st))) as Hvalid.
  destruct (getStoredTrees st) as [stored st1]. cbn [fst snd] in *.
  destruct (partitionStoredTrees stored) as [treesToDelete invalidTrees].
  cbn [fst snd] in *. subst treesToDelete invalidTrees.
  match goal with
  | |- context [markLoop ?f ?i ?q ?b ?t] =>
      destruct (markLoop f i q b t) as [[blobs' trees']| |] eqn:Hloop
  end; cbn [bind]; try discriminate.
  intros [= <-]. rewrite Hb in Hloop. rewrite app_nil_r.
  exists extra. eexists. exists blobs', trees'.
  split; [reflexivity|]. split; [exact Hloop|].
  cbn [localStorage blobStore treeStore _storedTreeCache].
  rewrite Hb, Ht, Hl, Hc. repeat split; reflexivity.
Qed.
End CollectorFacts.



Lemma keys_get_iff {V} (m : JsMap.t V) k :
  In k (JsMap.keys m) <-> JsMap.get m k <> None.
Proof.
  pose proof (JsMapFacts.get_None_iff m k) as H.
  destruct (JsMap.get m k); split; intros H1; try congruence.
  - destruct (in_dec string_dec k (JsMap.keys m)) as [Hin|Hnot]; [exact Hin|].
    apply H in Hnot. discriminate.
  - exfalso. now apply (proj1 H).
Qed.

Section CollectorLiveness.
Variable JSON_parse : string -> option JsVal.

(** What a completed run deletes, in terms of liveness. *)
Lemma garbageCollectGitObjects_marks config _roots st st' extra :
  cacheWf st ->
  getExtraRoots JSON_parse config st = Returns extra ->
  garbageCollectGitObjects JSON_parse config _roots st = Returns st' ->
  exists blobs' (trees' : JsMap.t (list StoredTreeEntry.t)),
    localStorage st' = localStorage st
    /\ blobStore st' = delMany blobs' (blobStore st)
    /\ treeStore st' = delMany (map KString (JsMap.keys trees')) (treeStore st)
    /\ _storedTreeCache st' =
       fold_left cacheDelete (map KString (JsMap.keys trees'))
                 (Some (fst (getStoredTrees st)))
    /\ (forall k, In k blobs' <->
                  In k (map fst (blobStore st))
                  /\ forall s, k = KString s -> ~ liveIn st (allRoots _roots extra) s)
    /\ (forall s, In s (JsMap.keys trees') <->
                  In s (JsMap.keys (fst (getStoredTrees st)))
                  /\ ~ (liveIn st (allRoots _roots extra) s
                        /\ ~ In (KString s) (map fst (blobStore st))))
    /\ (forall k, In k (map fst (blobStore st)) -> ~ In k blobs' ->
          exists s, k = KString s /\ liveIn st (allRoots _roots extra) s)
    /\ (forall s, In s (JsMap.keys (fst (getStoredTrees st))) ->
          ~ In s (JsMap.keys trees') ->
          liveIn st (allRoots _roots extra) s
          /\ ~ In (KString s) (map fst (blobStore st))).
Proof.
  intros Hwf Hextra Hgc.
  pose proof Hgc as Hrun. apply garbageCollectGitObjects_run in Hrun; [|exact Hwf].
  destruct Hrun as (extra' & fuel & blobs' & trees' & Hextra' & Hloop & Hl & Hb & Ht & Hc).
  assert (extra' = extra) by congruence. subst extra'.
  exists blobs', trees'. repeat (split; [assumption|]).
  pose proof Hloop as Hmarks. apply markLoop_marks in Hmarks.
  destruct Hmarks as (Hblobs & Hget & Htrees & Hmarked).
  set (blobs0 := JsSet.of_list IDBValidKey_eqb (map fst (blobStore st))) in *.
  assert (Hext : forall k, In k blobs0 <-> In k (map fst (blobStore st))).
  { intros k. apply (JsSetFacts.In_of_list _ IDBValidKey_eqb_eq). }
  assert (Hlive : forall s, live (allRoots _roots extra) blobs0 (fst (getStoredTrees st)) s
                            <-> liveIn st (allRoots _roots extra) s).
  { intros s. unfold liveIn. split; apply live_ext; intros k; now rewrite Hext. }
  split; [|split; [|split]].
  - intros k. rewrite Hblobs, Hext. split; intros [Hk Hdead]; (split; [exact Hk|]);
      intros s Hs Hl'; apply (Hdead s Hs); now apply Hlive.
  - intros s. rewrite !keys_get_iff. split.
    + intros Hsome.
      assert (Heq : JsMap.get trees' s = JsMap.get (fst (getStoredTrees st)) s).
      { destruct (Hget s); [contradiction|assumption]. }
      split; [congruence|]. intros [Hls Hnb]. apply Hsome.
      apply Htrees; [congruence|]. split; [now apply Hlive|now rewrite Hext].
    + intros [Hsome Hdead] Hnone. apply Hdead.
      apply (Htrees s Hsome) in Hnone as [Hls Hnb].
      split; [now apply Hlive|now rewrite <- Hext].
  - intros k Hk Hnot. apply Hext in Hk.
    destruct (Hmarked k Hk Hnot) as (s & -> & Hs). exists s.
    split; [reflexivity|now apply Hlive].
  - intros s Hvis Hnot. apply keys_get_iff in Hvis.
    assert (Hnone : JsMap.get trees' s = None) by now apply JsMapFacts.get_None_iff.
    apply (Htrees s Hvis) in Hnone as [Hls Hnb].
    split; [now apply Hlive|now rewrite <- Hext].
Qed.



End CollectorLiveness.

(** ** Reading and writing the stores *)

Lemma idb_get_insert_same k v (store : IDBStore) :
  ~ In k (map fst store) -> idb_get (idb_insert k v store) k = Some v.
Proof.
  assert (Hrefl : IDBValidKey_eqb k k = true) by now apply IDBValidKey_eqb_eq.
  induction store as [|[k' v'] r IH]; cbn [idb_insert idb_get map fst].
  - now rewrite Hrefl.
  - intros Hnot. destruct (IDBValidKey_ltb k k'); cbn [idb_get].
    + now rewrite Hrefl.
    + destruct (IDBValidKey_eqb k' k) eqn:E.
      * apply IDBValidKey_eqb_eq in E. subst. exfalso. apply Hnot. now left.
      * apply IH. intros Hin. apply Hnot. now right.
Qed.

Lemma idb_get_insert_other k v (store : IDBStore) k' :
  k' <> k -> idb_get (idb_insert k v store) k' = idb_get store k'.
Proof.
  intros Hne.
  assert (E : IDBValidKey_eqb k k' = false).
  { destruct (IDBValidKey_eqb k k') eqn:E; [|reflexivity].
    apply IDBValidKey_eqb_eq in E. congruence. }
  induction store as [|[k0 v0] r IH]; cbn [idb_insert idb_get].
  - now rewrite E.
  - destruct (IDBValidKey_ltb k k0); cbn [idb_get].
    + now rewrite E.
    + now rewrite IH.
Qed.

Lemma idb_get_filter_other k (store : IDBStore) k' :
  k' <> k ->
  idb_get (filter (fun kv => negb (IDBValidKey_eqb (fst kv) k)) store) k'
  = idb_get store k'.
Proof.
  intros Hne. induction store as [|[k0 v0] r IH]; [reflexivity|].
  cbn [filter fst idb_get]. destruct (IDBValidKey_eqb k0 k) eqn:E; cbn [negb idb_get].
  - apply IDBValidKey_eqb_eq in E. subst k0.
    destruct (IDBValidKey_eqb k k') eqn:E'; [|exact IH].
    apply IDBValidKey_eqb_eq in E'. congruence.
  - now rewrite IH.
Qed.

Lemma idb_get_set_same k v (store : IDBStore) : idb_get (idb_set k v store) k = Some v.
Proof.
  apply idb_get_insert_same. intros Hin. apply in_map_iff in Hin as [[k' v'] [Hk Hin]].
  cbn [fst] in Hk. subst k'. apply filter_In in Hin as [_ Hf]. cbn [fst] in Hf.
  assert (IDBValidKey_eqb k k = true) by now apply IDBValidKey_eqb_eq.
  rewrite H in Hf. discriminate.
Qed.

Lemma idb_get_set_other k v (store : IDBStore) k' :
  k' <> k -> idb_get (idb_set k v store) k' = idb_get store k'.
Proof.
  intros Hne. unfold idb_set.
  now rewrite idb_get_insert_other, idb_get_filter_other.
Qed.

Lemma idb_get_Some_In (store : IDBStore) k v : idb_get store k = Some v -> In (k, v) store.
Proof.
  induction store as [|[k' v'] r IH]; cbn [idb_get]; [discriminate|].
  destruct (IDBValidKey_eqb k' k) eqn:E.
  - apply IDBValidKey_eqb_eq in E. subst. intros [= ->]. now left.
  - intros H. right. auto.
Qed.

Lemma idb_get_In (store : IDBStore) k v :
  NoDup (map fst store) -> In (k, v) store -> idb_get store k = Some v.
Proof.
  induction store as [|[k' v'] r IH]; [intros _ []|].
  cbn [map fst idb_get]. intros Hnd Hin. inversion Hnd as [|? ? Hnotin Hnd']; subst.
  destruct Hin as [[= -> ->]|Hin].
  - assert (IDBValidKey_eqb k k = true) by now apply IDBValidKey_eqb_eq.
    now rewrite H.
  - destruct (IDBValidKey_eqb k' k) eqn:E; [|now apply IH].
    apply IDBValidKey_eqb_eq in E. subst. exfalso. apply Hnotin.
    now apply (in_map fst) in Hin.
Qed.

Lemma In_idb_insert k v (store : IDBStore) x :
  In x (idb_insert k v store) <-> x = (k, v) \/ In x store.
Proof.
  induction store as [|[k' v'] r IH]; cbn [idb_insert].
  - cbn. intuition.
  - destruct (IDBValidKey_ltb k k'); cbn [In]; [intuition|].
    rewrite IH. cbn [In]. intuition.
Qed.

Lemma idb_set_NoDup k v (store : IDBStore) :
  NoDup (map fst store) -> NoDup (map fst (idb_set k v store)).
Proof.
  intros Hnd. unfold idb_set.
  set (rest := filter (fun kv => negb (IDBValidKey_eqb (fst kv) k)) store).
  assert (Hrest : NoDup (map fst rest)).
  { subst rest. induction store as [|[k' v'] r IH]; [constructor|].
    cbn [map fst] in Hnd. inversion Hnd as [|? ? Hnotin Hnd']; subst.
    cbn [filter fst]. destruct (negb (IDBValidKey_eqb k' k)); [|now apply IH].
    cbn [map fst]. constructor; [|now apply IH].
    intros Hin. apply Hnotin. apply in_map_iff in Hin as [x [Hx Hin]].
    apply filter_In in Hin as [Hin _]. apply in_map_iff. now exists x. }
  assert (Hfresh : ~ In k (map fst rest)).
  { subst rest. intros Hin. apply in_map_iff in Hin as [[k' v'] [Hk Hin]].
    cbn [fst] in Hk. subst k'. apply filter_In in Hin as [_ Hf]. cbn [fst] in Hf.
    assert (IDBValidKey_eqb k k = true) by now apply IDBValidKey_eqb_eq.
    rewrite H in Hf. discriminate. }
  clearbody rest. clear Hnd store.
  induction rest as [|[k' v'] r IH]; cbn [idb_insert map fst].
  - constructor; [intros []|constructor].
  - cbn [map fst] in Hrest, Hfresh. inversion Hrest as [|? ? Hnotin Hnd']; subst.
    destruct (IDBValidKey_ltb k k'); cbn [map fst].
    + constructor; [exact Hfresh|exact Hrest].
    + constructor.
      * intros Hin. apply in_map_iff in Hin as [x [Hx Hin]].
        apply In_idb_insert in Hin as [->|Hin].
        -- cbn [fst] in Hx. subst. apply Hfresh. now left.
        -- apply Hnotin. apply in_map_iff. now exists x.
      * apply IH; [exact Hnd'|]. intros Hin. apply Hfresh. now right.
Qed.

Lemma idb_setMany_NoDup entries (store : IDBStore) :
  NoDup (map fst store) -> NoDup (map fst (idb_setMany entries store)).
Proof.
  unfold idb_setMany. revert store.
  induction entries as [|[k v] r IH]; intros store Hnd; cbn [fold_left]; [exact Hnd|].
  apply IH. cbn [fst snd]. now apply idb_set_NoDup.
Qed.

(** After [setMany], a key reads the last value the entries give it, and
    its old value when the entries do not mention it. *)
Lemma idb_get_setMany entries (store : IDBStore) k :
  idb_get (idb_setMany entries store) k =
  match idb_get (rev entries) k with
  | Some v => Some v
  | None => idb_get store k
  end.
Proof.
  unfold idb_setMany. revert store.
  induction entries as [|[k0 v0] r IH]; intros store; cbn [fold_left rev]; [reflexivity|].
  rewrite IH. cbn [fst snd].
  assert (Happ : forall l1 l2, idb_get (l1 ++ l2) k =
                   match idb_get l1 k with Some v => Some v | None => idb_get l2 k end).
  { induction l1 as [|[k1 v1] l1 IHl]; intros l2; cbn [app idb_get]; [reflexivity|].
    destruct (IDBValidKey_eqb k1 k); [reflexivity|apply IHl]. }
  rewrite Happ. destruct (idb_get (rev r) k); [reflexivity|]. cbn [idb_get].
  destruct (IDBValidKey_eqb k0 k) eqn:E.
  - apply IDBValidKey_eqb_eq in E. subst. apply idb_get_set_same.
  - apply idb_get_set_other. intros ->.
    assert (IDBValidKey_eqb k0 k0 = true) by now apply IDBValidKey_eqb_eq. congruence.
Qed.

(** X4: a blob written with [setBlobToPersistedCache] is read back by
    [getBlobFromPersistedCache]; the other blobs read as before, and neither
    the tree store nor the cache of trees changes. *)
Theorem setBlob_getBlob (sha : string) (val : list Byte.byte) (st : State) :
  getBlobFromPersistedCache sha (setBlobToPersistedCache sha val st) = Some val
  /\ (forall sha', sha' <> sha ->
        getBlobFromPersistedCache sha' (setBlobToPersistedCache sha val st)
        = getBlobFromPersistedCache sha' st)
  /\ treeStore (setBlobToPersistedCache sha val st) = treeStore st
  /\ _storedTreeCache (setBlobToPersistedCache sha val st) = _storedTreeCache st.
Proof.
  unfold getBlobFromPersistedCache, setBlobToPersistedCache.
  cbn [blobStore treeStore _storedTreeCache].
  repeat split.
  - now rewrite idb_get_set_same.
  - intros sha' Hne. rewrite idb_get_set_other; [reflexivity|]. congruence.
Qed.

(** *** The scan of the tree store *)

Lemma fold_set_fresh {V} (l acc : list (string * V)) :
  NoDup (JsMap.keys (acc ++ l)) ->
  fold_left (fun m kv => JsMap.set m (fst kv) (snd kv)) l acc = acc ++ l.
Proof.
  revert acc. induction l as [|[k v] r IH]; intros acc Hnd; cbn [fold_left fst snd].
  - now rewrite app_nil_r.
  - assert (Hfresh : ~ In k (JsMap.keys acc)).
    { unfold JsMap.keys in *. rewrite map_app in Hnd. cbn [map fst] in Hnd.
      apply NoDup_remove_2 in Hnd. rewrite in_app_iff in Hnd. tauto. }
    rewrite JsMapFacts.set_fresh by exact Hfresh.
    rewrite IH; [now rewrite <- app_assoc|].
    unfold JsMap.keys in *. rewrite <- app_assoc. exact Hnd.
Qed.

Lemma of_entries_wf {V} (l : list (string * V)) :
  NoDup (JsMap.keys l) -> JsMap.of_entries l = l.
Proof. intros Hnd. unfold JsMap.of_entries. now rewrite fold_set_fresh. Qed.

Lemma scanTrees_validTrees (entries : IDBStore) :
  scanTrees entries = JsMap.of_entries (validTrees entries).
Proof.
  unfold scanTrees, JsMap.of_entries, validTrees.
  generalize (@JsMap.empty (list StoredTreeEntry.t)) as acc.
  induction entries as [|[k v] r IH]; intros acc; cbn [fold_left flat_map]; [reflexivity|].
  rewrite fold_left_app, IH. cbn [fst snd].
  destruct (treeSchema_safeParse v); [|reflexivity]. now destruct k.
Qed.

Lemma In_validTrees (entries : IDBStore) s d :
  In (s, d) (validTrees entries) <->
  exists v, In (KString s, v) entries /\ treeSchema_safeParse v = Some d.
Proof.
  unfold validTrees. rewrite in_flat_map. split.
  - intros [[k v] [Hin Hx]]. cbn [fst snd] in Hx.
    destruct (treeSchema_safeParse v) as [d'|] eqn:E; [|destruct Hx].
    destruct k as [n|n|s']; [destruct Hx|destruct Hx|].
    destruct Hx as [[= -> ->]|[]]. now exists v.
  - intros [v [Hin Hv]]. exists (KString s, v). split; [exact Hin|].
    cbn [fst snd]. rewrite Hv. now left.
Qed.

Lemma validTrees_wf (entries : IDBStore) :
  NoDup (map fst entries) -> NoDup (JsMap.keys (validTrees entries)).
Proof.
  induction entries as [|[k v] r IH]; [constructor|].
  cbn [map fst]. intros Hnd. inversion Hnd as [|? ? Hnotin Hnd']; subst.
  change (validTrees ((k, v) :: r))
    with (match treeSchema_safeParse v, k with
          | Some data, KString sha => [(sha, data)]
          | _, _ => []
          end ++ validTrees r).
  destruct (treeSchema_safeParse v) as [d|]; [|now apply IH].
  destruct k as [n|n|s]; try now apply IH.
  cbn [app JsMap.keys map fst]. constructor; [|now apply IH].
  intros Hin. apply in_map_iff in Hin as [[s' d'] [Hs Hin]]. cbn [fst] in Hs. subst s'.
  apply In_validTrees in Hin as [v' [Hin _]]. apply Hnotin.
  now apply (in_map fst) in Hin.
Qed.

Lemma idb_get_None_iff (store : IDBStore) k :
  idb_get store k = None <-> ~ In k (map fst store).
Proof.
  induction store as [|[k' v'] r IH]; cbn [idb_get map fst In]; [tauto|].
  destruct (IDBValidKey_eqb k' k) eqn:E.
  - apply IDBValidKey_eqb_eq in E. split; [discriminate|]. intros H. exfalso. auto.
  - rewrite IH. split; [|tauto]. intros H [Hk|Hk]; [|auto].
    subst. assert (IDBValidKey_eqb k k = true) by now apply IDBValidKey_eqb_eq.
    congruence.
Qed.

(** On a store with one record per key, the scan has at [k] what the record
    of key [k] validates to. *)
Lemma scanTrees_get (entries : IDBStore) k :
  NoDup (map fst entries) ->
  JsMap.get (scanTrees entries) k =
  match idb_get entries (KString k) with
  | Some v => treeSchema_safeParse v
  | None => None
  end.
Proof.
  intros Hnd. pose proof (@validTrees_wf entries Hnd) as Hwf.
  rewrite scanTrees_validTrees, of_entries_wf by exact Hwf.
  destruct (idb_get entries (KString k)) as [v|] eqn:Hget.
  - apply idb_get_Some_In in Hget.
    destruct (treeSchema_safeParse v) as [d|] eqn:Hv.
    + apply JsMapFacts.get_In; [exact Hwf|]. apply In_validTrees. now exists v.
    + apply JsMapFacts.get_None_iff. intros Hin.
      apply in_map_iff in Hin as [[s d] [Hs Hin]]. cbn [fst] in Hs. subst s.
      apply In_validTrees in Hin as [v' [Hin' Hv']].
      rewrite (@store_value_unique _ _ _ _ Hnd Hget Hin') in Hv. congruence.
  - apply JsMapFacts.get_None_iff. intros Hin.
    apply in_map_iff in Hin as [[s d] [Hs Hin]]. cbn [fst] in Hs. subst s.
    apply In_validTrees in Hin as [v' [Hin' _]].
    apply idb_get_None_iff in Hget. apply Hget. now apply (in_map fst) in Hin'.
Qed.

(** X5: with an unpopulated cache, [getStoredTrees] answers with exactly the
    records of the tree store that have a string key and a valid tree; the
    others are skipped, and the tree store itself is left as it is. *)
Theorem getStoredTrees_exact (st : State) :
  _storedTreeCache st = None ->
  NoDup (map fst (treeStore st)) ->
  (forall s d,
     JsMap.get (fst (getStoredTrees st)) s = Some d <->
     exists v, In (KString s, v) (treeStore st) /\ treeSchema_safeParse v = Some d)
  /\ JsMap.wf (fst (getStoredTrees st))
  /\ treeStore (snd (getStoredTrees st)) = treeStore st
  /\ _storedTreeCache (snd (getStoredTrees st)) = Some (fst (getStoredTrees st)).
Proof.
  intros Hcache Hnd. split; [|split; [|split]].
  - intros s d. unfold getStoredTrees. rewrite Hcache. cbn [fst].
    rewrite scanTrees_get by exact Hnd. split.
    + destruct (idb_get (treeStore st) (KString s)) as [v|] eqn:Hget; [|discriminate].
      intros Hv. exists v. split; [now apply idb_get_Some_In|exact Hv].
    + intros [v [Hin Hv]]. now rewrite (@idb_get_In _ _ _ Hnd Hin).
  - apply getStoredTrees_wf. unfold cacheWf. now rewrite Hcache.
  - apply getStoredTrees_stores.
  - apply getStoredTrees_stores.
Qed.

(** *** Writing a tree and reading it back *)

Lemma idb_get_rev_stored (all : AllTrees) k :
  idb_get (rev (map (fun kv => (KString (fst kv), js_of_storedTree (snd kv))) all))
          (KString k)
  = option_map js_of_storedTree (JsMap.get (rev all) k).
Proof.
  rewrite <- map_rev. induction (rev all) as [|[k0 v0] r IH]; [reflexivity|].
  cbn [map fst snd idb_get JsMap.get IDBValidKey_eqb].
  destruct (String.eqb k0 k); [reflexivity|exact IH].
Qed.

(** What [getStoredTrees] answers after [setTreeToPersistedCache]: the trees
    just written, and for every other key what it answered before. *)
Lemma setTree_lookup (sha : string) (c : JsMap.t TreeNode) (st : State) (k : string) :
  NoDup (map fst (treeStore st)) ->
  JsMap.get (fst (getStoredTrees (setTreeToPersistedCache sha c st))) k =
  match JsMap.get (rev (collectTrees sha c [])) k with
  | Some entries => Some entries
  | None => JsMap.get (fst (getStoredTrees st)) k
  end.
Proof.
  intros Hnd. unfold getStoredTrees, setTreeToPersistedCache.
  cbn [_storedTreeCache treeStore].
  destruct (_storedTreeCache st) as [cache|]; cbn [fst].
  - apply JsMapFacts.get_fold_set.
  - rewrite scanTrees_get by now apply idb_setMany_NoDup.
    rewrite idb_get_setMany, idb_get_rev_stored.
    destruct (JsMap.get (rev (collectTrees sha c [])) k) as [entries|]; cbn [option_map].
    + apply treeSchema_safeParse_stored.
    + now rewrite scanTrees_get.
Qed.

Lemma get_rev_consistent (all : AllTrees) s entries :
  shaConsistent all -> In (s, entries) all -> JsMap.get (rev all) s = Some entries.
Proof.
  intros Hsha Hin. destruct (JsMap.get (rev all) s) as [entries'|] eqn:E.
  - apply JsMapFacts.get_Some_In, in_rev in E. now rewrite (Hsha _ _ _ E Hin).
  - apply JsMapFacts.get_None_iff in E. exfalso. apply E.
    apply JsMapFacts.In_keys with entries. now apply in_rev in Hin.
Qed.

(** Rebuilding from any mapping that has the flattened tree's entry lists
    at the flattened tree's shas. *)
Lemma constructTree_rebuilds_root trees (sha : string) (c : JsMap.t TreeNode) depth :
  wfTreeAt "" c = true ->
  (forall x, In x (collectTrees sha c []) -> JsMap.get trees (fst x) = Some (snd x)) ->
  treeDepth c <= depth ->
  constructTreeFromStoredTrees depth sha trees "" = Returns (Some (rootNode sha c)).
Proof.
  intros Hwf Hlook Hdepth.
  unfold wfTreeAt in Hwf. apply andb_true_iff in Hwf as [Hnd Hsub].
  apply nodupb_NoDup in Hnd. rewrite forallb_forall in Hsub.
  unfold treeDepth in Hdepth. destruct depth as [|d]; [lia|]. apply le_S_n in Hdepth.
  cbn [constructTreeFromStoredTrees].
  pose proof (Hlook _ (In_collect_self sha c)) as Hself.
  cbn [fst snd] in Hself. rewrite Hself.
  rewrite (@constructChildren_rebuilds trees d "" c JsMap.empty).
  - reflexivity.
  - exact Hnd.
  - intros p n Hpn. exact (Hsub (p, n) Hpn).
  - intros p e1 c1 Hpn.
    refine (@constructTree_rebuilds_node trees (mkTreeNode e1 (Some c1)) "" p d
              (Hsub _ Hpn) _ _ e1 c1 eq_refl).
    + intros x Hx. apply Hlook. eapply In_collect_child; eauto.
    + eapply depthNode_child; eauto.
Qed.

(** X6: a tree written with [setTreeToPersistedCache] is read back by
    [getTreeFromPersistedCache], whether the in-memory cache was populated
    or the tree store has to be scanned. *)
Theorem setTree_getTree (sha : string) (c : JsMap.t TreeNode) (st : State) (depth : nat) :
  wfTreeAt "" c = true ->
  shaConsistent (collectTrees sha c []) ->
  NoDup (map fst (treeStore st)) ->
  treeDepth c <= depth ->
  fst (getTreeFromPersistedCache depth sha (setTreeToPersistedCache sha c st))
  = Returns (Some (rootNode sha c)).
Proof.
  intros Hwf Hsha Hnd Hdepth. unfold getTreeFromPersistedCache.
  pose proof (fun k => setTree_lookup sha c st k Hnd) as Hlook.
  destruct (getStoredTrees (setTreeToPersistedCache sha c st)) as [stored st'].
  cbn [fst] in *. apply constructTree_rebuilds_root; try assumption.
  intros [s entries] Hin. cbn [fst snd]. rewrite Hlook.
  now rewrite (get_rev_consistent _ _ Hsha Hin).
Qed.

(** X7: writing a tree makes each of its directories readable under its sha
    and leaves every other stored tree, and the blob store, as they were. *)
Theorem setTree_stored_trees (sha : string) (c : JsMap.t TreeNode) (st : State) :
  shaConsistent (collectTrees sha c []) ->
  NoDup (map fst (treeStore st)) ->
  let st' := setTreeToPersistedCache sha c st in
  (forall s entries, In (s, entries) (collectTrees sha c []) ->
     JsMap.get (fst (getStoredTrees st')) s = Some entries)
  /\ (forall k, ~ In k (JsMap.keys (collectTrees sha c [])) ->
        JsMap.get (fst (getStoredTrees st')) k = JsMap.get (fst (getStoredTrees st)) k)
  /\ blobStore st' = blobStore st
  /\ localStorage st' = localStorage st.
Proof.
  intros Hsha Hnd st'. subst st'. repeat split.
  - intros s entries Hin. rewrite setTree_lookup by exact Hnd.
    now rewrite (get_rev_consistent _ _ Hsha Hin).
  - intros k Hk. rewrite setTree_lookup by exact Hnd.
    destruct (JsMap.get (rev (collectTrees sha c [])) k) as [entries|] eqn:E;
      [|reflexivity].
    exfalso. apply Hk. apply JsMapFacts.get_Some_In, in_rev in E.
    eapply JsMapFacts.In_keys; eauto.
Qed.

(** *** The cache after a collection *)

Lemma fold_cacheDelete (D : list string) (m : JsMap.t (list StoredTreeEntry.t)) :
  fold_left cacheDelete (map KString D) (Some m)
  = Some (fold_left (fun m k => JsMap.delete m k) D m).
Proof.
  revert m. induction D as [|k r IH]; intros m; cbn [map fold_left cacheDelete];
    [reflexivity|apply IH].
Qed.

Lemma get_fold_delete {V} (D : list string) (m : JsMap.t V) s :
  ~ In s D -> JsMap.get (fold_left (fun m k => JsMap.delete m k) D m) s = JsMap.get m s.
Proof.
  revert m. induction D as [|k r IH]; intros m Hnot; cbn [fold_left]; [reflexivity|].
  rewrite IH by (intros H; apply Hnot; now right).
  rewrite get_delete_other. destruct (String.eqb_spec k s) as [->|]; [|reflexivity].
  exfalso. apply Hnot. now left.
Qed.

Lemma filter_filter {A} (f g : A -> bool) (l : list A) :
  filter f (filter g l) = filter (fun x => g x && f x) l.
Proof.
  induction l as [|x r IH]; [reflexivity|]. cbn [filter].
  destruct (g x); cbn [filter andb]; [|exact IH]. destruct (f x); now rewrite IH.
Qed.

Lemma fold_delete_filter {V} (D : list string) (m : JsMap.t V) :
  fold_left (fun m k => JsMap.delete m k) D m
  = filter (fun kv => negb (existsb (String.eqb (fst kv)) D)) m.
Proof.
  revert m. induction D as [|k r IH]; intros m; cbn [fold_left existsb].
  - symmetry. now apply filter_all.
  - rewrite IH. unfold JsMap.delete. rewrite filter_filter.
    apply filter_ext. intros kv. now rewrite negb_orb.
Qed.

Lemma has_KString (D : list string) s :
  JsSet.has IDBValidKey_eqb (map KString D) (KString s) = existsb (String.eqb s) D.
Proof.
  unfold JsSet.has. induction D as [|k r IH]; [reflexivity|].
  cbn [map existsb IDBValidKey_eqb]. now rewrite IH.
Qed.

Lemma validTrees_delMany (D : list string) (entries : IDBStore) :
  validTrees (delMany (map KString D) entries)
  = filter (fun kv => negb (existsb (String.eqb (fst kv)) D)) (validTrees entries).
Proof.
  unfold delMany. induction entries as [|[k v] r IH]; [reflexivity|].
  change (validTrees ((k, v) :: r))
    with (match treeSchema_safeParse v, k with
          | Some data, KString sha => [(sha, data)]
          | _, _ => []
          end ++ validTrees r).
  rewrite filter_app, <- IH. cbn [filter fst].
  destruct (negb (JsSet.has IDBValidKey_eqb (map KString D) k)) eqn:E.
  - change (validTrees ((k, v) :: ?l))
      with (match treeSchema_safeParse v, k with
            | Some data, KString sha => [(sha, data)]
            | _, _ => []
            end ++ validTrees l).
    f_equal. destruct (treeSchema_safeParse v); [|reflexivity].
    destruct k; try reflexivity. cbn [filter fst].
    rewrite has_KString in E. now rewrite E.
  - destruct (treeSchema_safeParse v); [|reflexivity].
    destruct k; try reflexivity. cbn [filter fst app].
    rewrite has_KString in E. now rewrite E.
Qed.

Lemma delMany_NoDup ks (entries : IDBStore) :
  NoDup (map fst entries) -> NoDup (map fst (delMany ks entries)).
Proof.
  unfold delMany. induction entries as [|[k v] r IH]; [constructor|].
  cbn [map fst filter]. intros Hnd. inversion Hnd as [|? ? Hnotin Hnd']; subst.
  destruct (negb (JsSet.has IDBValidKey_eqb ks k)); [|now apply IH].
  cbn [map fst]. constructor; [|now apply IH].
  intros Hin. apply Hnotin. apply in_map_iff in Hin as [x [Hx Hin]].
  apply filter_In in Hin as [Hin _]. apply in_map_iff. now exists x.
Qed.

Lemma scanTrees_nodup (entries : IDBStore) :
  NoDup (map fst entries) -> scanTrees entries = validTrees entries.
Proof.
  intros Hnd. rewrite scanTrees_validTrees. now apply of_entries_wf, validTrees_wf.
Qed.

Section CollectorCache.
Variable JSON_parse : string -> option JsVal.

(** X8: the collector deletes from the in-memory cache what it deletes from the
    tree store: a cache that was unpopulated or in step with the tree store
    is in step with it afterwards. *)
Theorem gc_cache_in_sync config _roots st st' :
  cacheInSync st ->
  NoDup (map fst (treeStore st)) ->
  garbageCollectGitObjects JSON_parse config _roots st = Returns st' ->
  _storedTreeCache st' = Some (scanTrees (treeStore st')).
Proof.
  intros Hsync Hnd Hgc.
  assert (Hstored : fst (getStoredTrees st) = scanTrees (treeStore st)).
  { unfold getStoredTrees. destruct Hsync as [-> | ->]; reflexivity. }
  assert (Hwf : cacheWf st).
  { unfold cacheWf. destruct Hsync as [-> | ->]; [exact I|apply scanTrees_wf]. }
  apply garbageCollectGitObjects_run in Hgc; [|exact Hwf].
  destruct Hgc as (extra & fuel & blobs' & trees' & _ & _ & _ & _ & Ht & Hc).
  rewrite Hc, Ht, Hstored, fold_cacheDelete. f_equal.
  rewrite (scanTrees_nodup _ Hnd), (scanTrees_nodup _ (delMany_NoDup _ _ Hnd)).
  now rewrite fold_delete_filter, validTrees_delMany.
Qed.
End CollectorCache.

(** *** Write, collect, read *)

Lemma fold_set_wf {V} (l : list (string * V)) (m : JsMap.t V) :
  JsMap.wf m -> JsMap.wf (fold_left (fun m kv => JsMap.set m (fst kv) (snd kv)) l m).
Proof.
  revert m. induction l as [|kv r IH]; intros m Hwf; cbn [fold_left]; [exact Hwf|].
  apply IH. now apply wf_set.
Qed.

Lemma setTree_cacheWf sha (c : JsMap.t TreeNode) st :
  cacheWf st -> cacheWf (setTreeToPersistedCache sha c st).
Proof.
  unfold cacheWf, setTreeToPersistedCache. cbn [_storedTreeCache].
  destruct (_storedTreeCache st); [apply fold_set_wf|auto].
Qed.

(** Every directory of a flattened tree is live once its root is, when the
    mapping has the flattened entry lists and no blob carries one of the
    tree's shas. *)
Lemma flattened_live roots blobKeys trees (n : TreeNode) :
  forall e c, n = mkTreeNode e (Some c) ->
    (forall x, In x (collectNode n []) -> JsMap.get trees (fst x) = Some (snd x)) ->
    (forall x, In x (collectNode n []) -> ~ In (KString (fst x)) blobKeys) ->
    live roots blobKeys trees (TreeEntry.sha e) ->
    forall x, In x (collectNode n []) -> live roots blobKeys trees (fst x).
Proof.
  induction n as [e0|e0 c0 IH] using TreeNode_ind'; intros e c Heq; [discriminate|].
  injection Heq as <- <-. rewrite collectNode_eq. intros Hlook Hnb Hlive x Hx.
  pose proof Hx as Hx'. rewrite collectTrees_flat, in_app_iff in Hx'.
  destruct Hx' as [Hx'|[<-|[]]]; [|exact Hlive].
  apply in_flat_map in Hx' as [[p n'] [Hpn Hx']]. cbn [snd] in Hx'.
  destruct n' as [e' [c'|]]; [|destruct Hx'].
  rewrite Forall_forall in IH.
  refine (IH _ Hpn e' c' eq_refl _ _ _ x Hx').
  - intros y Hy. apply Hlook. eapply In_collect_child; eauto.
  - intros y Hy. apply Hnb. eapply In_collect_child; eauto.
  - pose proof (Hlook _ (In_collect_self (TreeEntry.sha e0) c0)) as Hself.
    cbn [fst snd] in Hself.
    change (TreeEntry.sha e')
      with (StoredTreeEntry.sha (storedEntryOf (p, mkTreeNode e' (Some c')))).
    apply live_entry with (s := TreeEntry.sha e0) (entries := map storedEntryOf c0).
    + exact Hlive.
    + exact (Hnb _ (In_collect_self (TreeEntry.sha e0) c0)).
    + exact Hself.
    + now apply in_map.
Qed.

Section WriteCollectRead.
Variable JSON_parse : string -> option JsVal.

(** X9: a tree written with [setTreeToPersistedCache] and then kept as a root of
    a collection is still read back whole afterwards, provided none of its
    shas is also the key of a blob. *)
Theorem setTree_gc_getTree config _roots (sha : string) (c : JsMap.t TreeNode)
    (st st' : State) (depth : nat) :
  wfTreeAt "" c = true ->
  shaConsistent (collectTrees sha c []) ->
  NoDup (map fst (treeStore st)) ->
  cacheWf st ->
  (forall s, In s (JsMap.keys (collectTrees sha c [])) ->
             ~ In (KString s) (map fst (blobStore st))) ->
  treeDepth c <= depth ->
  In sha _roots ->
  garbageCollectGitObjects JSON_parse config _roots (setTreeToPersistedCache sha c st)
    = Returns st' ->
  fst (getTreeFromPersistedCache depth sha st') = Returns (Some (rootNode sha c)).
Proof.
  intros Hwf Hsha Hnd Hcwf Hnb Hdepth Hroot Hgc.
  set (st1 := setTreeToPersistedCache sha c st) in *.
  assert (Hlook1 : forall x, In x (collectTrees sha c []) ->
                     JsMap.get (fst (getStoredTrees st1)) (fst x) = Some (snd x)).
  { intros [s entries] Hin. cbn [fst snd]. subst st1.
    rewrite setTree_lookup by exact Hnd. now rewrite (get_rev_consistent _ _ Hsha Hin). }
  assert (Hcwf1 : cacheWf st1) by now apply setTree_cacheWf.
  destruct (getExtraRoots_returns JSON_parse config st1) as [extra Hextra].
  destruct (@garbageCollectGitObjects_marks JSON_parse config _roots st1 st' extra
              Hcwf1 Hextra Hgc)
    as (blobs' & trees' & _ & _ & _ & Hc & _ & Htrees & _).
  assert (Hlive : forall x, In x (collectTrees sha c []) ->
                    liveIn st1 (allRoots _roots extra) (fst x)).
  { unfold liveIn.
    apply (@flattened_live _ _ _ (rootNode sha c)
             {| TreeEntry.mode := treeMode; TreeEntry.path := "";
                TreeEntry.sha := sha; TreeEntry.type := tree |} c eq_refl).
    - exact Hlook1.
    - intros x Hx. apply Hnb. destruct x as [s es]. eapply JsMapFacts.In_keys; eauto.
    - apply live_root. unfold allRoots. apply in_app_iff. now left. }
  unfold getTreeFromPersistedCache, getStoredTrees. rewrite Hc, fold_cacheDelete.
  cbn [fst]. apply constructTree_rebuilds_root; try assumption.
  intros x Hx. rewrite get_fold_delete; [now apply Hlook1|].
  intros Hin. apply Htrees in Hin as [_ Hdead]. apply Hdead. split.
  - now apply Hlive.
  - apply Hnb. destruct x as [s es]. eapply JsMapFacts.In_keys; eauto.
Qed.
End WriteCollectRead.

(** ** After [clearObjectStore] *)

Section AfterClear.
Variable JSON_parse : string -> option JsVal.

(** X10: after [clearObjectStore] the scope has no extra roots, no blob is
    cached, a collection finds nothing to keep, and - when the in-memory
    cache was not populated - every tree lookup answers [undefined]. *)
Theorem clearObjectStore_then_reads (config : Config) (st : State) :
  _storedTreeCache st = None ->
  let st' := clearObjectStore config st in
  getExtraRoots JSON_parse config st' = Returns JsMap.empty
  /\ (forall sha, getBlobFromPersistedCache sha st' = None)
  /\ (forall depth sha,
        fst (getTreeFromPersistedCache (S depth) sha st') = Returns None)
  /\ (forall _roots st'',
        garbageCollectGitObjects JSON_parse config _roots st' = Returns st'' ->
        blobStore st'' = [] /\ treeStore st'' = []).
Proof.
  intros Hcache st'. subst st'. unfold clearObjectStore.
  split; [|split; [|split]].
  - unfold getExtraRoots. cbn [localStorage]. now rewrite JsMapFacts.get_delete.
  - reflexivity.
  - intros depth sha.
    unfold getTreeFromPersistedCache, getStoredTrees. cbn [_storedTreeCache treeStore].
    now rewrite Hcache.
  - intros _roots st'' H. apply garbageCollectGitObjects_run in H.
    + destruct H as (extra & fuel & b' & t' & _ & _ & _ & Hb & Ht & _).
      rewrite Hb, Ht. split; reflexivity.
    + unfold cacheWf. cbn [_storedTreeCache]. now rewrite Hcache.
Qed.
End AfterClear.

(** ** Reading well-formed extra roots *)

Lemma traverse_Some {A B} (f : A -> option B) (l : list A) :
  (forall x, In x l -> f x <> None) ->
  exists r, traverse f l = Some r /\ Forall2 (fun x y => f x = Some y) l r.
Proof.
  induction l as [|a l IH]; intros Hall.
  - exists []. split; [reflexivity|constructor].
  - destruct IH as (r & Hr & Hrel); [intros x Hx; apply Hall; now right|].
    destruct (f a) as [b|] eqn:Ea; [|now destruct (Hall a (or_introl eq_refl))].
    exists (b :: r). cbn [traverse]. rewrite Ea, Hr. split; [reflexivity|].
    now constructor.
Qed.

Lemma traverse_pairs {A B} (g : A -> option B) (l : list (string * A))
    (r : list (string * B)) :
  Forall2 (fun kv y => option_map (pair (fst kv)) (g (snd kv)) = Some y) l r ->
  map fst r = map fst l
  /\ forall b v x, In (b, v) l -> g v = Some x -> In (b, x) r.
Proof.
  induction 1 as [|[b v] [b' x] l l' Hx _ [IHk IHin]].
  - split; [reflexivity|intros ? ? ? []].
  - cbn [fst snd] in Hx. destruct (g v) as [y|] eqn:Hv; [|discriminate].
    cbn [option_map] in Hx. injection Hx as <- <-. split.
    + cbn [map fst]. now rewrite IHk.
    + intros b0 v0 x0 [[= -> ->]|Hin] Hv0.
      * left. congruence.
      * right. eauto.
Qed.

Section ValidExtraRoots.
Variable JSON_parse : string -> option JsVal.

(** X11: a persisted value that parses to an object whose records all pass the
    record schema is read as the mapping with the same branches in the same
    order, each branch carrying what the schema makes of its record. *)
Theorem getExtraRoots_valid (config : Config) (st : State) (val : string)
    (fields : list (string * JsVal)) :
  JsMap.get (localStorage st) (extraRootsKey config) = Some val ->
  val <> "" ->
  JSON_parse val = Some (JObj fields) ->
  NoDup (map fst fields) ->
  (forall branch v, In (branch, v) fields -> extraRootSchema v <> None) ->
  exists roots,
    getExtraRoots JSON_parse config st = Returns roots
    /\ JsMap.keys roots = map fst fields
    /\ forall branch v, In (branch, v) fields ->
         JsMap.get roots branch = extraRootSchema v.
Proof.
  intros Hget Hval Hjson Hnd Hall.
  destruct (@traverse_Some _ _
              (fun kv => option_map (pair (fst kv)) (extraRootSchema (snd kv))) fields)
    as (result & Htr & Hrel).
  { intros [b v] Hin. cbn [fst snd].
    destruct (extraRootSchema v) eqn:E; [discriminate|].
    now destruct (Hall b v Hin). }
  destruct (@traverse_pairs _ _ extraRootSchema _ _ Hrel) as [Hkeys Hin].
  exists result. split; [|split].
  - unfold getExtraRoots. rewrite Hget.
    destruct (String.eqb_spec val ""); [contradiction|].
    unfold parseJSON. rewrite Hjson. cbn [bind extraRootsSchema_parse].
    rewrite Htr. cbn [bind try_catch]. f_equal. apply of_entries_wf.
    unfold JsMap.keys. now rewrite Hkeys.
  - exact Hkeys.
  - intros b v Hbv. destruct (extraRootSchema v) as [r|] eqn:Hv;
      [|now destruct (Hall b v Hbv)].
    apply JsMapFacts.get_In; [unfold JsMap.keys; now rewrite Hkeys|].
    now apply (Hin b v r).
Qed.
End ValidExtraRoots.

(** ** What [constructTreeFromStoredTrees] returns *)

Lemma In_set {V} (m : JsMap.t V) k v x :
  In x (JsMap.set m k v) -> x = (k, v) \/ In x m.
Proof.
  induction m as [|[k0 v0] r IH]; cbn [JsMap.set].
  - intros [<-|[]]. now left.
  - destruct (String.eqb_spec k0 k) as [->|Hne].
    + intros [<-|Hin]; [now left|right; now right].
    + intros [<-|Hin]; [right; now left|].
      destruct (IH Hin) as [->|Hin']; [now left|right; now right].
Qed.

Lemma shapedChildren_set parentPath (m : JsMap.t TreeNode) k v :
  shapedChildren parentPath m = true ->
  shapeAt parentPath k v = true ->
  shapedChildren parentPath (JsMap.set m k v) = true.
Proof.
  unfold shapedChildren. rewrite !andb_true_iff, !nodupb_NoDup, !forallb_forall.
  intros [Hnd Hall] Hv. split.
  - now apply wf_set.
  - intros x Hx. apply In_set in Hx as [->|Hx]; [exact Hv|now apply Hall].
Qed.

Section ShapeOfResult.
Variable rec : string -> string -> Outcome (option TreeNode).
Hypothesis rec_shape :
  forall sha innerPath child,
    rec sha innerPath = Returns (Some child) ->
    exists c, child = mkTreeNode {| TreeEntry.mode := treeMode;
                                    TreeEntry.path := innerPath;
                                    TreeEntry.sha := sha;
                                    TreeEntry.type := tree |} (Some c)
              /\ shapedChildren innerPath c = true.

Lemma constructChildren_shape parentPath storedTree acc built :
  shapedChildren parentPath acc = true ->
  constructChildren rec parentPath storedTree acc = Returns (Some built) ->
  shapedChildren parentPath built = true.
Proof.
  revert acc. induction storedTree as [|e rest IH]; intros acc Hacc; cbn [constructChildren].
  - now intros [= <-].
  - destruct (String.eqb (StoredTreeEntry.mode e) treeMode) eqn:Hmode.
    + destruct (rec (StoredTreeEntry.sha e)
                    (innerPathOf parentPath (StoredTreeEntry.path e)))
        as [[child|]| |] eqn:Hrec; cbn [bind]; try discriminate.
      apply IH. apply shapedChildren_set; [exact Hacc|].
      destruct (rec_shape Hrec) as (c & -> & Hc).
      unfold shapedChildren in Hc. cbn [shapeAt TreeEntry.path TreeEntry.mode TreeEntry.type].
      rewrite String.eqb_refl. cbn [andb EntryType_eqb]. exact Hc.
    + apply IH. apply shapedChildren_set; [exact Hacc|].
      unfold leafNode. cbn [shapeAt TreeEntry.path TreeEntry.mode TreeEntry.type].
      rewrite String.eqb_refl, Hmode. cbn [andb negb].
      now destruct (String.eqb (StoredTreeEntry.mode e) symlinkMode).
Qed.
End ShapeOfResult.

(** X12: whatever tree [constructTreeFromStoredTrees] returns has the shape of the
    tree model: it is a directory node for the sha and path it was asked for,
    every entry below it carries its full path, a type that follows its
    mode, children exactly when its mode is [040000], and no directory has
    one key twice. *)
Theorem constructTree_shape depth :
  forall sha trees parentPath t,
    constructTreeFromStoredTrees depth sha trees parentPath = Returns (Some t) ->
    exists c, t = mkTreeNode {| TreeEntry.mode := treeMode;
                                TreeEntry.path := parentPath;
                                TreeEntry.sha := sha;
                                TreeEntry.type := tree |} (Some c)
              /\ shapedChildren parentPath c = true
              /\ JsMap.get trees sha <> None.
Proof.
  induction depth as [|d IH]; intros sha trees parentPath t; [discriminate|].
  cbn [constructTreeFromStoredTrees].
  destruct (JsMap.get trees sha) as [storedTree|] eqn:Hget; [|discriminate].
  destruct (constructChildren _ parentPath storedTree JsMap.empty)
    as [[built|]| |] eqn:Hloop; cbn [bind]; try discriminate.
  intros [= <-]. exists built. split; [reflexivity|]. split; [|discriminate].
  eapply constructChildren_shape; [| |exact Hloop].
  - intros s ip child Hrec. apply IH in Hrec. destruct Hrec as (c & -> & Hc & _).
    now exists c.
  - reflexivity.
Qed.

(** ** More on the tree diff *)

Lemma flat_map_ext_in {A B} (f g : A -> list B) (l : list A) :
  (forall x, In x l -> f x = g x) -> flat_map f l = flat_map g l.
Proof.
  induction l as [|x r IH]; intros H; [reflexivity|].
  cbn [flat_map]. rewrite (H x (or_introl eq_refl)). f_equal.
  apply IH. intros y Hy. apply H. now right.
Qed.

Lemma diffEntry_from_nothing (node : TreeNode) :
  forall path,
    diffEntry None path node
    = {| additions := blobLeavesEntry path node; deletions := [] |}.
Proof.
  induction node as [e|e c IH] using TreeNode_ind'; intros path; rewrite diffEntry_eq.
  - cbn. now destruct (TreeEntry.type e).
  - cbn [changed oldChildren blobLeavesEntry]. cbv iota.
    destruct (TreeEntry.type e); try reflexivity. cbn [app].
    rewrite diffTrees_new_no_deletions, diffTrees_additions. cbn [map]. f_equal. f_equal.
    rewrite Forall_forall in IH.
    apply flat_map_ext_in. intros [p n] Hpn. cbn [fst snd JsMap.get JsMap.empty].
    pose proof (IH _ Hpn p) as E. cbn [snd] in E. now rewrite E.
Qed.

(** X13: against an empty old tree the diff deletes nothing and adds every blob
    of the new tree at its full path; symlinks are not added. *)
Theorem diffTrees_from_empty (newTree : JsMap.t TreeNode) :
  diffTrees JsMap.empty newTree
  = {| additions := blobLeaves newTree; deletions := [] |}.
Proof.
  pose proof (diffTrees_additions JsMap.empty newTree) as Ha.
  pose proof (diffTrees_new_no_deletions newTree) as Hd.
  destruct (diffTrees JsMap.empty newTree) as [a d]. cbn [additions deletions] in *.
  subst. f_equal. unfold blobLeaves. apply flat_map_ext_in. intros [p n] _.
  cbn [fst snd JsMap.get JsMap.empty]. now rewrite diffEntry_from_nothing.
Qed.

Lemma of_list_nodup (l : list string) :
  NoDup l -> JsSet.of_list String.eqb l = l.
Proof.
  unfold JsSet.of_list.
  assert (H : forall acc, NoDup (acc ++ l) ->
                          fold_left (JsSet.add String.eqb) l acc = acc ++ l).
  { induction l as [|x r IH]; intros acc Hnd; cbn [fold_left].
    - now rewrite app_nil_r.
    - assert (Hx : ~ In x acc).
      { apply NoDup_remove_2 in Hnd. rewrite in_app_iff in Hnd. tauto. }
      unfold JsSet.add at 2.
      destruct (JsSet.has String.eqb acc x) eqn:E.
      + apply (JsSetFacts.has_In _ JsSetFacts.string_eqb_eq) in E. contradiction.
      + rewrite IH; rewrite <- app_assoc; [reflexivity|exact Hnd]. }
  intros Hnd. now rewrite (H [] Hnd).
Qed.

Lemma flat_map_keys {A} (f : string -> list A) (g : string * TreeNode -> list A)
    (m : JsMap.t TreeNode) :
  (forall pn, In pn m -> f (fst pn) = g pn) ->
  flat_map f (JsMap.keys m) = flat_map g m.
Proof.
  induction m as [|pn r IH]; intros H; [reflexivity|].
  cbn [JsMap.keys map flat_map]. rewrite (H pn (or_introl eq_refl)). f_equal.
  apply IH. intros x Hx. apply H. now right.
Qed.

(** X14: against an empty new tree the diff adds nothing and deletes the leaf
    paths of the old tree, in its order. *)
Theorem diffTrees_to_empty (oldTree : JsMap.t TreeNode) :
  JsMap.wf oldTree ->
  directoriesHaveChildren oldTree ->
  diffTrees oldTree JsMap.empty
  = {| additions := []; deletions := getLeafPaths oldTree |}.
Proof.
  intros Hwf Hdirs.
  pose proof (diffTrees_additions oldTree JsMap.empty) as Ha.
  pose proof (diffTrees_deletions oldTree JsMap.empty) as Hd.
  destruct (diffTrees oldTree JsMap.empty) as [a d]. cbn [additions deletions] in *.
  subst. f_equal. cbn [flat_map JsMap.empty app].
  unfold remainingDeletions. cbn [fold_left JsMap.empty].
  rewrite (of_list_nodup Hwf). unfold getLeafPaths.
  apply flat_map_keys. intros [p n] Hpn. cbn [fst snd].
  unfold deletionPaths. rewrite (JsMapFacts.get_In _ _ _ Hwf Hpn).
  destruct n as [e [c|]]; cbn [getLeafPathsEntry].
  - now destruct (TreeEntry.type e).
  - destruct (TreeEntry.type e) eqn:E; try reflexivity.
    now destruct (Hdirs p e Hpn).
Qed.

(** *** What is added and what is deleted *)

Lemma diffEntry_additions_cases oldNode path node a :
  In a (additions (diffEntry oldNode path node)) ->
  changed oldNode node = true
  /\ ((TreeEntry.type (entry node) = blob
       /\ a = {| a_path := path; a_sha := TreeEntry.sha (entry node) |})
      \/ (exists c a',
            TreeEntry.type (entry node) = tree /\ children node = Some c
            /\ a = prefixAddition path a'
            /\ In a' (additions (diffTrees (oldChildren oldNode) c)))).
Proof.
  destruct node as [e ch]. rewrite diffEntry_eq.
  destruct (changed oldNode (mkTreeNode e ch)); [|intros []].
  intros Ha. split; [reflexivity|]. cbn [entry children].
  destruct (TreeEntry.type e) eqn:Ht.
  - left. split; [reflexivity|]. destruct ch; cbn in Ha; destruct Ha as [<-|[]]; reflexivity.
  - exfalso. destruct ch; exact Ha.
  - destruct ch as [c|]; [|destruct Ha]. cbn [additions app] in Ha.
    apply in_map_iff in Ha as [a' [<- Ha']]. right. exists c, a'. auto.
Qed.

Lemma diffEntry_deletions_cases oldNode path node d :
  In d (deletions (diffEntry oldNode path node)) ->
  exists c d',
    TreeEntry.type (entry node) = tree /\ children node = Some c
    /\ d = joinPath path d'
    /\ In d' (deletions (diffTrees (oldChildren oldNode) c)).
Proof.
  destruct node as [e ch]. rewrite diffEntry_eq.
  destruct (changed oldNode (mkTreeNode e ch)); [|intros []].
  cbn [entry children].
  destruct (TreeEntry.type e) eqn:Ht, ch as [c|]; cbn [deletions]; try (intros []).
  intros Hd. apply in_map_iff in Hd as [d' [<- Hd']]. exists c, d'. auto.
Qed.

Lemma blobAt_additions_sound (node : TreeNode) :
  forall oldNode path a (m : JsMap.t TreeNode),
    In (path, node) m ->
    In a (additions (diffEntry oldNode path node)) ->
    blobAt m (a_path a) (a_sha a).
Proof.
  induction node as [e|e c IH] using TreeNode_ind'; intros oldNode path a m Hin Ha;
    apply diffEntry_additions_cases in Ha as [_ [[Ht ->]|(c' & a' & Ht & Hc & -> & Ha')]];
    cbn [entry children a_path a_sha prefixAddition] in *.
  - now apply blobAt_here with (ch := None).
  - discriminate.
  - now apply blobAt_here with (ch := Some c).
  - injection Hc as <-. rewrite diffTrees_additions in Ha'.
    apply in_flat_map in Ha' as [[p n] [Hpn Ha']]. cbn [fst snd] in Ha'.
    rewrite Forall_forall in IH.
    apply blobAt_below with (e := e) (c := c); try assumption.
    exact (IH _ Hpn _ _ _ c Hpn Ha').
Qed.

Lemma getLeafPathsEntry_pathIn (node : TreeNode) :
  forall path leaf (m : JsMap.t TreeNode),
    In (path, node) m -> In leaf (getLeafPathsEntry path node) -> pathIn m leaf.
Proof.
  induction node as [e|e c IH] using TreeNode_ind'; intros path leaf m Hin Hleaf;
    cbn [getLeafPathsEntry] in Hleaf.
  - destruct (TreeEntry.type e); [| |destruct Hleaf];
      destruct Hleaf as [<-|[]]; exact (@pathIn_here m path _ Hin).
  - destruct (TreeEntry.type e);
      [destruct Hleaf as [<-|[]]; exact (@pathIn_here m path _ Hin)
      |destruct Hleaf as [<-|[]]; exact (@pathIn_here m path _ Hin)|].
    apply in_map_iff in Hleaf as [q [<- Hq]].
    apply in_flat_map in Hq as [[p n] [Hpn Hq]]. cbn [fst snd] in Hq.
    rewrite Forall_forall in IH.
    apply (@pathIn_below m path e c q Hin). exact (IH _ Hpn _ _ c Hpn Hq).
Qed.

Lemma getLeafPaths_pathIn (m : JsMap.t TreeNode) leaf :
  In leaf (getLeafPaths m) -> pathIn m leaf.
Proof.
  unfold getLeafPaths. intros H. apply in_flat_map in H as [[p n] [Hpn Hl]].
  cbn [fst snd] in Hl. exact (@getLeafPathsEntry_pathIn n p leaf m Hpn Hl).
Qed.

Lemma key_has_no_joinPath (m : JsMap.t TreeNode) p q n :
  forallb is_segment (JsMap.keys m) = true -> ~ In (joinPath p q, n) m.
Proof.
  intros Hseg Hin. apply JsMapFacts.In_keys in Hin.
  pose proof (segment_of_key _ _ Hseg Hin) as Hs.
  unfold is_segment in Hs. rewrite PathFacts.has_slash_joinPath in Hs. discriminate.
Qed.

Lemma blobAt_inv m path s :
  blobAt m path s ->
  (exists e ch, In (path, mkTreeNode e ch) m /\ TreeEntry.type e = blob
                /\ TreeEntry.sha e = s)
  \/ (exists p e c q, path = joinPath p q /\ In (p, mkTreeNode e (Some c)) m
                      /\ TreeEntry.type e = tree /\ blobAt c q s).
Proof.
  intros H. destruct H as [m p e ch Hin Ht | m p e c q s Hin Ht Hq].
  - left. now exists e, ch.
  - right. now exists p, e, c, q.
Qed.

Lemma pathIn_inv m path :
  pathIn m path ->
  (exists n, In (path, n) m)
  \/ (exists p e c q, path = joinPath p q /\ In (p, mkTreeNode e (Some c)) m
                      /\ pathIn c q).
Proof.
  intros H. destruct H as [m p n Hin | m p e c q Hin Hq].
  - left. now exists n.
  - right. now exists p, e, c, q.
Qed.

(** One level of the diff, given the property for the directories of the
    new tree. *)
Lemma additions_changed_level (oldTree newTree : JsMap.t TreeNode) :
  forallb is_segment (JsMap.keys oldTree) = true ->
  forallb is_segment (JsMap.keys newTree) = true ->
  NoDup (JsMap.keys oldTree) ->
  (forall p n c a', In (p, n) newTree -> children n = Some c ->
       In a' (additions (diffTrees (oldChildren (JsMap.get oldTree p)) c)) ->
       ~ blobAt (oldChildren (JsMap.get oldTree p)) (a_path a') (a_sha a')) ->
  forall a, In a (additions (diffTrees oldTree newTree)) ->
            ~ blobAt oldTree (a_path a) (a_sha a).
Proof.
  intros Hsego Hsegn Hndo Hsub a Ha Hold.
  rewrite diffTrees_additions in Ha.
  apply in_flat_map in Ha as [[p n] [Hpn Ha]]. cbn [fst snd] in Ha.
  assert (Hpseg : is_segment p = true).
  { apply (segment_of_key _ _ Hsegn). eapply JsMapFacts.In_keys; eauto. }
  apply diffEntry_additions_cases in Ha
    as [Hch [[Ht ->]|(c & a' & Ht & Hc & -> & Ha')]];
    cbn [a_path a_sha prefixAddition] in Hold;
    apply blobAt_inv in Hold
      as [(e0 & ch0 & Hin0 & Ht0 & Hs0)|(p0 & e0 & c0 & q0 & Hp0 & Hin0 & Ht0 & Hq0)].
  - rewrite (JsMapFacts.get_In _ _ _ Hndo Hin0) in Hch. cbn [changed entry] in Hch.
    rewrite Hs0, String.eqb_refl in Hch. discriminate.
  - revert Hp0. now apply PathFacts.segment_not_joinPath.
  - exact (key_has_no_joinPath _ _ _ _ Hsego Hin0).
  - assert (Hp0seg : is_segment p0 = true).
    { apply (segment_of_key _ _ Hsego). eapply JsMapFacts.In_keys; eauto. }
    pose proof (PathFacts.joinPath_segment_inj _ _ _ _ Hpseg Hp0seg Hp0) as Hp. subst p0.
    apply PathFacts.joinPath_inj_r in Hp0. subst q0.
    apply (Hsub p n c a' Hpn Hc Ha').
    now rewrite (JsMapFacts.get_In _ _ _ Hndo Hin0).
Qed.

Lemma additions_changed_node (node : TreeNode) :
  wfKeysNode node = true ->
  forall oldNode c a',
    wfKeysOld oldNode = true ->
    children node = Some c ->
    In a' (additions (diffTrees (oldChildren oldNode) c)) ->
    ~ blobAt (oldChildren oldNode) (a_path a') (a_sha a').
Proof.
  induction node as [e|e c0 IH] using TreeNode_ind'; intros Hwf oldNode c a' Hold Hc;
    [discriminate|].
  injection Hc as <-.
  change (wfKeysNode (mkTreeNode e (Some c0))) with (wfKeys c0) in Hwf.
  pose proof (wfKeys_unpack _ Hwf) as (Hseg & Hnd & Hsub).
  pose proof (wfKeys_unpack _ (wfKeys_oldChildren _ Hold)) as (Hsego & Hndo & _).
  apply additions_changed_level; try assumption.
  intros p n c a Hpn Hc. rewrite Forall_forall in IH.
  apply (IH _ Hpn (Hsub _ _ Hpn)); [|exact Hc].
  apply wfKeys_get, wfKeys_oldChildren, Hold.
Qed.

(** X15: every addition is a blob of the new tree, at its path and with its
    sha, and the old tree has no blob with that sha at that path: what is
    unchanged is not added again. *)
Theorem diffTrees_additions_changed (oldTree newTree : JsMap.t TreeNode) (a : Addition) :
  wfKeys oldTree = true ->
  wfKeys newTree = true ->
  In a (additions (diffTrees oldTree newTree)) ->
  blobAt newTree (a_path a) (a_sha a)
  /\ ~ blobAt oldTree (a_path a) (a_sha a).
Proof.
  intros Hold Hnew Ha. split.
  - rewrite diffTrees_additions in Ha.
    apply in_flat_map in Ha as [[p n] [Hpn Ha]]. cbn [fst snd] in Ha.
    exact (@blobAt_additions_sound n _ p a newTree Hpn Ha).
  - pose proof (wfKeys_unpack _ Hold) as (Hsego & Hndo & _).
    pose proof (wfKeys_unpack _ Hnew) as (Hseg & Hnd & Hsub).
    revert a Ha. apply additions_changed_level; try assumption.
    intros p n c a' Hpn Hc. apply (@additions_changed_node n); try assumption.
    + eapply Hsub; eauto.
    + now apply wfKeys_get.
Qed.

Lemma deletionPaths_pathIn (oldTree : JsMap.t TreeNode) k d :
  In k (JsMap.keys oldTree) -> In d (deletionPaths oldTree k) -> pathIn oldTree d.
Proof.
  intros Hk Hd. unfold deletionPaths in Hd.
  assert (Hhere : pathIn oldTree k).
  { apply in_map_iff in Hk as [[k' n] [Hk' Hin]]. cbn [fst] in Hk'. subst k'.
    exact (@pathIn_here oldTree k n Hin). }
  destruct (JsMap.get oldTree k) as [[e [c|]]|] eqn:Hget;
    try (destruct Hd as [<-|[]]; exact Hhere).
  destruct (TreeEntry.type e); try (destruct Hd as [<-|[]]; exact Hhere).
  apply in_map_iff in Hd as [leaf [<- Hleaf]].
  apply (@pathIn_below oldTree k e c leaf).
  - now apply JsMapFacts.get_Some_In.
  - now apply getLeafPaths_pathIn.
Qed.

Lemma deletions_gone_level (oldTree newTree : JsMap.t TreeNode) :
  forallb is_segment (JsMap.keys oldTree) = true ->
  forallb is_segment (JsMap.keys newTree) = true ->
  NoDup (JsMap.keys newTree) ->
  (forall p n c d', In (p, n) newTree -> children n = Some c ->
       In d' (deletions (diffTrees (oldChildren (JsMap.get oldTree p)) c)) ->
       pathIn (oldChildren (JsMap.get oldTree p)) d' /\ ~ pathIn c d') ->
  forall d, In d (deletions (diffTrees oldTree newTree)) ->
            pathIn oldTree d /\ ~ pathIn newTree d.
Proof.
  intros Hsego Hsegn Hndn Hsub d Hd.
  rewrite diffTrees_deletions in Hd. apply in_app_iff in Hd as [Hd|Hd].
  - apply in_flat_map in Hd as [[p n] [Hpn Hd]]. cbn [fst snd] in Hd.
    assert (Hpseg : is_segment p = true).
    { apply (segment_of_key _ _ Hsegn). eapply JsMapFacts.In_keys; eauto. }
    apply diffEntry_deletions_cases in Hd as (c & d' & Ht & Hc & -> & Hd').
    destruct (Hsub p n c d' Hpn Hc Hd') as [Hin_old Hnot_new]. split.
    + destruct (JsMap.get oldTree p) as [[e0 [c0|]]|] eqn:Hget; cbn [oldChildren] in Hin_old;
        try (apply pathIn_inv in Hin_old as [(n0 & [])|(? & ? & ? & ? & _ & [] & _)]).
      apply (@pathIn_below oldTree p e0 c0 d'); [|exact Hin_old].
      now apply JsMapFacts.get_Some_In.
    + intros Hnew. apply pathIn_inv in Hnew
        as [(n0 & Hin0)|(p0 & e0 & c0 & q0 & Hp0 & Hin0 & Hq0)].
      * exact (key_has_no_joinPath _ _ _ _ Hsegn Hin0).
      * assert (Hp0seg : is_segment p0 = true).
        { apply (segment_of_key _ _ Hsegn). eapply JsMapFacts.In_keys; eauto. }
        pose proof (PathFacts.joinPath_segment_inj _ _ _ _ Hpseg Hp0seg Hp0) as Hp. subst p0.
        apply PathFacts.joinPath_inj_r in Hp0. subst q0.
        assert (n = mkTreeNode e0 (Some c0)).
        { pose proof (JsMapFacts.get_In _ _ _ Hndn Hpn) as E1.
          pose proof (JsMapFacts.get_In _ _ _ Hndn Hin0) as E2. congruence. }
        subst n. cbn [children] in Hc. injection Hc as <-. contradiction.
  - apply in_flat_map in Hd as [k [Hk Hd]].
    apply In_remainingDeletions in Hk as [Hk Hknew].
    assert (Hkseg : is_segment k = true) by exact (segment_of_key _ _ Hsego Hk).
    split; [eapply deletionPaths_pathIn; eauto|].
    intros Hnew. apply deletionPaths_form in Hd as [->|[y ->]];
      apply pathIn_inv in Hnew
        as [(n0 & Hin0)|(p0 & e0 & c0 & q0 & Hp0 & Hin0 & Hq0)].
    + apply Hknew. eapply JsMapFacts.In_keys; eauto.
    + revert Hp0. now apply PathFacts.segment_not_joinPath.
    + exact (key_has_no_joinPath _ _ _ _ Hsegn Hin0).
    + assert (Hp0seg : is_segment p0 = true).
      { apply (segment_of_key _ _ Hsegn). eapply JsMapFacts.In_keys; eauto. }
      pose proof (PathFacts.joinPath_segment_inj _ _ _ _ Hkseg Hp0seg Hp0) as Hp. subst p0.
      apply Hknew. eapply JsMapFacts.In_keys; eauto.
Qed.

Lemma deletions_gone_node (node : TreeNode) :
  wfKeysNode node = true ->
  forall oldNode c d',
    wfKeysOld oldNode = true ->
    children node = Some c ->
    In d' (deletions (diffTrees (oldChildren oldNode) c)) ->
    pathIn (oldChildren oldNode) d' /\ ~ pathIn c d'.
Proof.
  induction node as [e|e c0 IH] using TreeNode_ind'; intros Hwf oldNode c d' Hold Hc;
    [discriminate|].
  injection Hc as <-.
  change (wfKeysNode (mkTreeNode e (Some c0))) with (wfKeys c0) in Hwf.
  pose proof (wfKeys_unpack _ Hwf) as (Hseg & Hnd & Hsub).
  pose proof (wfKeys_unpack _ (wfKeys_oldChildren _ Hold)) as (Hsego & Hndo & _).
  apply deletions_gone_level; try assumption.
  intros p n c d Hpn Hc. rewrite Forall_forall in IH.
  apply (IH _ Hpn (Hsub _ _ Hpn)); [|exact Hc].
  apply wfKeys_get, wfKeys_oldChildren, Hold.
Qed.

(** X16: every deletion is the path of a node of the old tree, and the new tree
    has no node at that path. *)
Theorem diffTrees_deletions_gone (oldTree newTree : JsMap.t TreeNode) (d : string) :
  wfKeys oldTree = true ->
  wfKeys newTree = true ->
  In d (deletions (diffTrees oldTree newTree)) ->
  pathIn oldTree d /\ ~ pathIn newTree d.
Proof.
  intros Hold Hnew.
  pose proof (wfKeys_unpack _ Hold) as (Hsego & Hndo & _).
  pose proof (wfKeys_unpack _ Hnew) as (Hseg & Hnd & Hsub).
  revert d. apply deletions_gone_level; try assumption.
  intros p n c d' Hpn Hc. apply (@deletions_gone_node n); try assumption.
  - eapply Hsub; eauto.
  - now apply wfKeys_get.
Qed.

(** X17: every blob of the new tree is added, unless it is, or lies below, a
    node that has the sha of the old node at the same place. *)
Theorem diffTrees_additions_complete (oldTree newTree : JsMap.t TreeNode)
    (path sha : string) :
  blobAt newTree path sha ->
  In {| a_path := path; a_sha := sha |} (additions (diffTrees oldTree newTree))
  \/ keptAt oldTree newTree path.
Proof.
  intros H. revert oldTree.
  induction H as [m p e ch Hin Ht | m p e c q s Hin Ht Hq IH]; intros oldTree.
  - destruct (changed (JsMap.get oldTree p) (mkTreeNode e ch)) eqn:Hch.
    + left. rewrite diffTrees_additions. apply in_flat_map.
      exists (p, mkTreeNode e ch). split; [exact Hin|]. cbn [fst snd].
      rewrite diffEntry_eq, Hch, Ht. destruct ch; now left.
    + right. unfold changed in Hch.
      destruct (JsMap.get oldTree p) as [o|] eqn:Hget; [|discriminate].
      apply negb_false_iff, String.eqb_eq in Hch.
      exact (@keptAt_here oldTree m p _ o Hin Hget Hch).
  - destruct (changed (JsMap.get oldTree p) (mkTreeNode e (Some c))) eqn:Hch.
    + destruct (IH (oldChildren (JsMap.get oldTree p))) as [Ha|Hk].
      * left. rewrite diffTrees_additions. apply in_flat_map.
        exists (p, mkTreeNode e (Some c)). split; [exact Hin|]. cbn [fst snd].
        rewrite diffEntry_eq, Hch, Ht. cbn [additions app].
        apply in_map_iff. exists {| a_path := q; a_sha := s |}. now split.
      * right. exact (@keptAt_below oldTree m p e c q Hin Hk).
    + right. unfold changed in Hch.
      destruct (JsMap.get oldTree p) as [o|] eqn:Hget; [|discriminate].
      apply negb_false_iff, String.eqb_eq in Hch.
      exact (@keptAt_under oldTree m p _ o q Hin Hget Hch).
Qed.

(** *** No path twice *)

Lemma NoDup_map_joinPath p (l : list string) : NoDup l -> NoDup (map (joinPath p) l).
Proof.
  induction 1 as [|x l Hx Hnd IH]; cbn [map]; constructor; [|exact IH].
  intros Hin. apply in_map_iff in Hin as [y [Hy Hin]].
  apply PathFacts.joinPath_inj_r in Hy. now subst.
Qed.

(** Lists of paths, one per key of a level, each made of the key or of
    paths below it, have no path in common when the keys are distinct
    segments. *)
Lemma NoDup_flat_map_keyed {A} (key : A -> string) (f : A -> list string)
    (l : list A) :
  forallb is_segment (map key l) = true ->
  NoDup (map key l) ->
  (forall x, In x l ->
     NoDup (f x)
     /\ forall y, In y (f x) -> y = key x \/ exists z, y = joinPath (key x) z) ->
  NoDup (flat_map f l).
Proof.
  induction l as [|x r IH]; cbn [map flat_map forallb]; [constructor|].
  intros Hseg Hnd Hf. apply andb_true_iff in Hseg as [Hx Hseg].
  inversion Hnd as [|? ? Hnotin Hnd']; subst.
  apply NoDup_app.
  - apply Hf. now left.
  - apply IH; try assumption. intros x' Hx'. apply Hf. now right.
  - intros y Hy Hy'. apply in_flat_map in Hy' as [x' [Hx' Hy']].
    assert (Hseg' : is_segment (key x') = true).
    { rewrite forallb_forall in Hseg. apply Hseg. now apply in_map. }
    assert (Hneq : key x <> key x').
    { intros E. apply Hnotin. rewrite E. now apply in_map. }
    destruct (proj2 (Hf x (or_introl eq_refl)) y Hy) as [->|[z ->]];
      destruct (proj2 (Hf x' (or_intror Hx')) _ Hy') as [E|[z' E]].
    + contradiction.
    + revert E. now apply PathFacts.segment_not_joinPath.
    + symmetry in E. revert E. now apply PathFacts.segment_not_joinPath.
    + apply Hneq. exact (PathFacts.joinPath_segment_inj _ _ _ _ Hx Hseg' E).
Qed.

Lemma map_flat_map {A B C} (g : B -> C) (f : A -> list B) (l : list A) :
  map g (flat_map f l) = flat_map (fun x => map g (f x)) l.
Proof.
  induction l as [|x r IH]; cbn [flat_map map]; [reflexivity|].
  now rewrite map_app, IH.
Qed.

Lemma additions_nodup_level (oldTree newTree : JsMap.t TreeNode) :
  forallb is_segment (JsMap.keys newTree) = true ->
  NoDup (JsMap.keys newTree) ->
  (forall p n, In (p, n) newTree ->
     forall oldNode path, NoDup (map a_path (additions (diffEntry oldNode path n)))) ->
  NoDup (map a_path (additions (diffTrees oldTree newTree))).
Proof.
  intros Hseg Hnd Hsub. rewrite diffTrees_additions, map_flat_map.
  apply NoDup_flat_map_keyed with (key := fst); try assumption.
  intros [p n] Hpn. cbn [fst snd]. split; [now apply (Hsub p n)|].
  intros y Hy. apply in_map_iff in Hy as [a [<- Ha]].
  exact (diffEntry_additions_form _ _ _ _ Ha).
Qed.

Lemma additions_nodup_node (node : TreeNode) :
  wfKeysNode node = true ->
  forall oldNode path, NoDup (map a_path (additions (diffEntry oldNode path node))).
Proof.
  induction node as [e|e c IH] using TreeNode_ind'; intros Hwf oldNode path;
    rewrite diffEntry_eq;
    match goal with |- context [changed ?o ?n] => destruct (changed o n) end;
    try constructor.
  - destruct (TreeEntry.type e); cbn; repeat constructor; intros [].
  - change (wfKeysNode (mkTreeNode e (Some c))) with (wfKeys c) in Hwf.
    pose proof (wfKeys_unpack _ Hwf) as (Hseg & Hnd & Hsub).
    destruct (TreeEntry.type e); cbn [additions app map a_path];
      try (repeat constructor; intros []).
    rewrite map_map. cbn [prefixAddition a_path].
    rewrite <- (map_map a_path (joinPath path)).
    apply NoDup_map_joinPath, additions_nodup_level; try assumption.
    intros p n Hpn. rewrite Forall_forall in IH. exact (IH _ Hpn (Hsub _ _ Hpn)).
Qed.

(** X18: no path is added twice. *)
Theorem diffTrees_additions_nodup (oldTree newTree : JsMap.t TreeNode) :
  wfKeys newTree = true ->
  NoDup (map a_path (additions (diffTrees oldTree newTree))).
Proof.
  intros Hwf. pose proof (wfKeys_unpack _ Hwf) as (Hseg & Hnd & Hsub).
  apply additions_nodup_level; try assumption.
  intros p n Hpn. apply additions_nodup_node. eapply Hsub; eauto.
Qed.

Lemma getLeafPathsEntry_form (node : TreeNode) path leaf :
  In leaf (getLeafPathsEntry path node) ->
  leaf = path \/ exists y, leaf = joinPath path y.
Proof.
  destruct node as [e [c|]]; cbn [getLeafPathsEntry];
    destruct (TreeEntry.type e); cbn; try tauto;
    try (intros [<-|[]]; now left).
  intros H. apply in_map_iff in H as [y [<- _]]. right. now exists y.
Qed.

Lemma getLeafPaths_nodup_level (m : JsMap.t TreeNode) :
  forallb is_segment (JsMap.keys m) = true ->
  NoDup (JsMap.keys m) ->
  (forall p n, In (p, n) m -> forall path, NoDup (getLeafPathsEntry path n)) ->
  NoDup (getLeafPaths m).
Proof.
  intros Hseg Hnd Hsub. unfold getLeafPaths.
  apply NoDup_flat_map_keyed with (key := fst); try assumption.
  intros [p n] Hpn. cbn [fst snd]. split; [now apply (Hsub p n)|].
  intros y Hy. exact (getLeafPathsEntry_form _ _ _ Hy).
Qed.

Lemma getLeafPathsEntry_nodup (node : TreeNode) :
  wfKeysNode node = true -> forall path, NoDup (getLeafPathsEntry path node).
Proof.
  induction node as [e|e c IH] using TreeNode_ind'; intros Hwf path;
    cbn [getLeafPathsEntry]; destruct (TreeEntry.type e);
    try (repeat constructor; intros []).
  change (wfKeysNode (mkTreeNode e (Some c))) with (wfKeys c) in Hwf.
  pose proof (wfKeys_unpack _ Hwf) as (Hseg & Hnd & Hsub).
  apply NoDup_map_joinPath.
  apply (@getLeafPaths_nodup_level c); try assumption.
  intros p n Hpn. rewrite Forall_forall in IH. exact (IH _ Hpn (Hsub _ _ Hpn)).
Qed.

Lemma getLeafPaths_nodup (m : JsMap.t TreeNode) :
  wfKeys m = true -> NoDup (getLeafPaths m).
Proof.
  intros Hwf. pose proof (wfKeys_unpack _ Hwf) as (Hseg & Hnd & Hsub).
  apply getLeafPaths_nodup_level; try assumption.
  intros p n Hpn. apply getLeafPathsEntry_nodup. eapply Hsub; eauto.
Qed.

Lemma deletionPaths_nodup (oldTree : JsMap.t TreeNode) k :
  wfKeys oldTree = true -> NoDup (deletionPaths oldTree k).
Proof.
  intros Hwf. pose proof (wfKeys_get oldTree k Hwf) as Hk. unfold deletionPaths.
  destruct (JsMap.get oldTree k) as [[e [c|]]|];
    try (repeat constructor; intros []).
  destruct (TreeEntry.type e); try (repeat constructor; intros []).
  apply NoDup_map_joinPath, getLeafPaths_nodup. exact Hk.
Qed.

Lemma deletions_nodup_level (oldTree newTree : JsMap.t TreeNode) :
  wfKeys oldTree = true ->
  forallb is_segment (JsMap.keys newTree) = true ->
  NoDup (JsMap.keys newTree) ->
  (forall p n, In (p, n) newTree ->
     forall path, NoDup (deletions (diffEntry (JsMap.get oldTree p) path n))) ->
  NoDup (deletions (diffTrees oldTree newTree)).
Proof.
  intros Hold Hseg Hnd Hsub.
  pose proof (wfKeys_unpack _ Hold) as (Hsego & Hndo & _).
  rewrite diffTrees_deletions. apply NoDup_app.
  - apply NoDup_flat_map_keyed with (key := fst); try assumption.
    intros [p n] Hpn. cbn [fst snd]. split; [now apply (Hsub p n)|].
    intros y Hy. right. exact (diffEntry_deletions_form _ _ _ _ Hy).
  - apply NoDup_flat_map_keyed with (key := fun k => k).
    + rewrite map_id. apply forallb_forall. intros k Hk.
      apply In_remainingDeletions in Hk as [Hk _].
      exact (segment_of_key _ _ Hsego Hk).
    + rewrite map_id. apply NoDup_remainingDeletions.
    + intros k _. split; [now apply deletionPaths_nodup|].
      intros y Hy. exact (deletionPaths_form _ _ _ Hy).
  - intros d Hd Hd'.
    apply in_flat_map in Hd as [[p n] [Hpn Hd]]. cbn [fst snd] in Hd.
    apply diffEntry_deletions_form in Hd as [y ->].
    apply in_flat_map in Hd' as [k [Hk Hd']].
    apply In_remainingDeletions in Hk as [Hk Hknew].
    assert (Hkseg : is_segment k = true) by exact (segment_of_key _ _ Hsego Hk).
    assert (Hpkey : In p (JsMap.keys newTree)) by (eapply JsMapFacts.In_keys; eauto).
    assert (Hpseg : is_segment p = true) by exact (segment_of_key _ _ Hseg Hpkey).
    apply deletionPaths_form in Hd' as [E|[z E]].
    + symmetry in E. revert E. now apply PathFacts.segment_not_joinPath.
    + apply Hknew.
      now rewrite <- (PathFacts.joinPath_segment_inj _ _ _ _ Hpseg Hkseg E).
Qed.

Lemma deletions_nodup_node (node : TreeNode) :
  wfKeysNode node = true ->
  forall oldNode path,
    wfKeysOld oldNode = true ->
    NoDup (deletions (diffEntry oldNode path node)).
Proof.
  induction node as [e|e c IH] using TreeNode_ind'; intros Hwf oldNode path Hold;
    rewrite diffEntry_eq;
    match goal with |- context [changed ?o ?n] => destruct (changed o n) end;
    try constructor.
  - destruct (TreeEntry.type e); constructor.
  - change (wfKeysNode (mkTreeNode e (Some c))) with (wfKeys c) in Hwf.
    pose proof (wfKeys_unpack _ Hwf) as (Hseg & Hnd & Hsub).
    destruct (TreeEntry.type e); cbn [deletions]; try constructor.
    apply NoDup_map_joinPath, deletions_nodup_level; try assumption.
    + now apply wfKeys_oldChildren.
    + intros p n Hpn path'. rewrite Forall_forall in IH.
      apply (IH _ Hpn (Hsub _ _ Hpn)).
      apply wfKeys_get. now apply wfKeys_oldChildren.
Qed.

(** X19: no path is deleted twice. *)
Theorem diffTrees_deletions_nodup (oldTree newTree : JsMap.t TreeNode) :
  wfKeys oldTree = true ->
  wfKeys newTree = true ->
  NoDup (deletions (diffTrees oldTree newTree)).
Proof.
  intros Hold Hnew. pose proof (wfKeys_unpack _ Hnew) as (Hseg & Hnd & Hsub).
  apply deletions_nodup_level; try assumption.
  intros p n Hpn path. apply deletions_nodup_node.
  - eapply Hsub; eauto.
  - now apply wfKeys_get.
Qed.

(** ** The file changes of a commit *)

Lemma readAdditions_inr (l : list Addition) (st : State) adds :
  readAdditions l st = inr adds ->
  Forall2 (fun a fa =>
             FileAddition.path fa = a_path a
             /\ getBlobFromPersistedCache (a_sha a) st = Some (FileAddition.contents fa))
          l adds.
Proof.
  revert adds. induction l as [|a r IH]; intros adds; cbn [readAdditions].
  - intros [= <-]. constructor.
  - destruct (getBlobFromPersistedCache (a_sha a) st) as [contents|] eqn:Hget;
      [|discriminate].
    destruct (readAdditions r st) as [message|rest]; [discriminate|].
    intros [= <-]. constructor; [now split|now apply IH].
Qed.

Lemma readAdditions_all (l : list Addition) (st : State) :
  (forall a, In a l -> getBlobFromPersistedCache (a_sha a) st <> None) ->
  exists adds, readAdditions l st = inr adds.
Proof.
  induction l as [|a r IH]; intros Hall; cbn [readAdditions]; [now exists []|].
  destruct (getBlobFromPersistedCache (a_sha a) st) as [contents|] eqn:Hget.
  - destruct IH as [rest ->]; [intros a' Ha'; apply Hall; now right|]. eauto.
  - exfalso. apply (Hall a); [now left|exact Hget].
Qed.

Lemma readAdditions_inl (l : list Addition) (st : State) message :
  readAdditions l st = inl message ->
  exists a, In a l /\ getBlobFromPersistedCache (a_sha a) st = None
            /\ message = failedToGetBlob a.
Proof.
  induction l as [|a r IH]; cbn [readAdditions]; [discriminate|].
  destruct (getBlobFromPersistedCache (a_sha a) st) as [contents|] eqn:Hget.
  - destruct (readAdditions r st) as [message'|rest]; [|discriminate].
    intros [= <-]. destruct IH as (a' & Ha' & Hnone & ->); [reflexivity|].
    exists a'. repeat split; [now right|exact Hnone].
  - intros [= <-]. exists a. repeat split; [now left|exact Hget].
Qed.

Lemma readAdditions_ext (l : list Addition) (st st' : State) :
  (forall a, In a l ->
     getBlobFromPersistedCache (a_sha a) st' = getBlobFromPersistedCache (a_sha a) st) ->
  readAdditions l st' = readAdditions l st.
Proof.
  induction l as [|a r IH]; intros Hext; cbn [readAdditions]; [reflexivity|].
  rewrite (Hext a (or_introl eq_refl)), IH; [reflexivity|].
  intros a' Ha'. apply Hext. now right.
Qed.

Lemma diffTrees_additions_blobAt (oldTree newTree : JsMap.t TreeNode) a :
  In a (additions (diffTrees oldTree newTree)) -> blobAt newTree (a_path a) (a_sha a).
Proof.
  intros Ha. rewrite diffTrees_additions in Ha.
  apply in_flat_map in Ha as [[p n] [Hpn Ha]]. cbn [fst snd] in Ha.
  exact (@blobAt_additions_sound n _ p a newTree Hpn Ha).
Qed.

(** X20: when the blob store holds the contents of every blob of the current
    tree, the file changes of the commit are there, whatever the committed
    tree is: one addition per addition of the diff, in its order, with the
    stored contents, and one deletion per deletion of the diff. *)
Theorem commitFileChanges_ready (committed current : JsMap.t TreeNode) (st : State) :
  (forall path sha, blobAt current path sha ->
                    getBlobFromPersistedCache sha st <> None) ->
  exists adds,
    commitFileChanges committed current st
    = Changes adds (map FileDeletion.mk (deletions (diffTrees committed current)))
    /\ Forall2 (fun a fa =>
                  FileAddition.path fa = a_path a
                  /\ getBlobFromPersistedCache (a_sha a) st
                     = Some (FileAddition.contents fa))
               (additions (diffTrees committed current)) adds.
Proof.
  intros Hall. unfold commitFileChanges.
  destruct (@readAdditions_all (additions (diffTrees committed current)) st)
    as [adds Hadds].
  { intros a Ha. apply (Hall (a_path a)). now apply diffTrees_additions_blobAt with committed. }
  rewrite Hadds. exists adds. split; [reflexivity|]. now apply readAdditions_inr.
Qed.

(** X21: when the blob of one addition is not in the blob store, or is not a
    byte array there, no file changes are produced: the commit fails with
    the message that names a missing blob and its path. *)
Theorem commitFileChanges_fails (committed current : JsMap.t TreeNode) (st : State)
    (a : Addition) :
  In a (additions (diffTrees committed current)) ->
  getBlobFromPersistedCache (a_sha a) st = None ->
  exists a',
    In a' (additions (diffTrees committed current))
    /\ getBlobFromPersistedCache (a_sha a') st = None
    /\ commitFileChanges committed current st = Failed (failedToGetBlob a').
Proof.
  intros Ha Hnone. unfold commitFileChanges.
  destruct (readAdditions (additions (diffTrees committed current)) st)
    as [message|adds] eqn:Hread.
  - apply readAdditions_inl in Hread as (a' & Ha' & Hnone' & ->). now exists a'.
  - exfalso. apply readAdditions_inr in Hread.
    revert Ha. induction Hread as [|a0 fa l l' [_ Hsome] _ IH]; intros Hin;
      [destruct Hin|destruct Hin as [<-|Hin]].
    + congruence.
    + now apply IH.
Qed.

(** *** Collecting before a commit *)

Lemma blobAt_stored_entry (c : JsMap.t TreeNode) path s :
  blobAt c path s ->
  forall sha, exists x e,
    In x (collectTrees sha c []) /\ In e (snd x) /\ StoredTreeEntry.sha e = s.
Proof.
  induction 1 as [m p e ch Hin Ht | m p e c q s Hin Ht Hq IH]; intros sha.
  - exists (sha, map storedEntryOf m), (storedEntryOf (p, mkTreeNode e ch)).
    split; [apply In_collect_self|]. split; [now apply in_map|reflexivity].
  - destruct (IH (TreeEntry.sha e)) as (x & e' & Hx & He' & Hs).
    exists x, e'. split; [|now split].
    apply In_collect_child with (p := p) (n := mkTreeNode e (Some c)); [exact Hin|].
    now rewrite collectNode_eq.
Qed.

Lemma idb_get_delMany ks (store : IDBStore) k :
  ~ In k ks -> idb_get (delMany ks store) k = idb_get store k.
Proof.
  intros Hk. unfold delMany.
  induction store as [|[k' v] r IH]; cbn [filter idb_get fst]; [reflexivity|].
  destruct (JsSet.has IDBValidKey_eqb ks k') eqn:Hhas; cbn [negb idb_get].
  - destruct (IDBValidKey_eqb k' k) eqn:E; [|exact IH].
    apply IDBValidKey_eqb_eq in E. subst k'.
    apply has_false_iff in Hk. congruence.
  - now rewrite IH.
Qed.

Section CollectBeforeCommit.
Variable JSON_parse : string -> option JsVal.

(** X22: a collection that has the sha of the current tree among its roots,
    after that tree was written with [setTreeToPersistedCache], takes away
    no blob that a commit of the current tree needs: the file changes are
    the same after the collection as before it, whatever the committed tree
    is. None of the tree's shas may also be the key of a blob. *)
Theorem gc_keeps_commit_blobs config _roots (sha : string)
    (committed current : JsMap.t TreeNode) (st st' : State) :
  shaConsistent (collectTrees sha current []) ->
  NoDup (map fst (treeStore st)) ->
  cacheWf st ->
  (forall s, In s (JsMap.keys (collectTrees sha current [])) ->
             ~ In (KString s) (map fst (blobStore st))) ->
  In sha _roots ->
  garbageCollectGitObjects JSON_parse config _roots
    (setTreeToPersistedCache sha current st) = Returns st' ->
  commitFileChanges committed current st' = commitFileChanges committed current st.
Proof.
  intros Hsha Hnd Hcwf Hnb Hroot Hgc.
  set (st1 := setTreeToPersistedCache sha current st) in *.
  assert (Hlook1 : forall x, In x (collectTrees sha current []) ->
                     JsMap.get (fst (getStoredTrees st1)) (fst x) = Some (snd x)).
  { intros [s entries] Hin. cbn [fst snd]. subst st1.
    rewrite setTree_lookup by exact Hnd. now rewrite (get_rev_consistent _ _ Hsha Hin). }
  assert (Hcwf1 : cacheWf st1) by now apply setTree_cacheWf.
  destruct (getExtraRoots_returns JSON_parse config st1) as [extra Hextra].
  destruct (@garbageCollectGitObjects_marks JSON_parse config _roots st1 st' extra
              Hcwf1 Hextra Hgc)
    as (blobs' & trees' & _ & Hb & _ & _ & Hblobs & _).
  assert (Hlive : forall x, In x (collectTrees sha current []) ->
                    liveIn st1 (allRoots _roots extra) (fst x)).
  { unfold liveIn.
    apply (@flattened_live _ _ _ (rootNode sha current)
             {| TreeEntry.mode := treeMode; TreeEntry.path := "";
                TreeEntry.sha := sha; TreeEntry.type := tree |} current eq_refl).
    - exact Hlook1.
    - intros x Hx. apply Hnb. destruct x as [s es]. eapply JsMapFacts.In_keys; eauto.
    - apply live_root. unfold allRoots. apply in_app_iff. now left. }
  unfold commitFileChanges.
  rewrite (@readAdditions_ext (additions (diffTrees committed current)) st st');
    [reflexivity|].
  intros a Ha. apply diffTrees_additions_blobAt in Ha.
  destruct (blobAt_stored_entry Ha sha) as (x & e & Hx & He & Hs).
  unfold getBlobFromPersistedCache. rewrite Hb.
  change (blobStore st1) with (blobStore st).
  rewrite idb_get_delMany; [reflexivity|].
  intros Hin. apply Hblobs in Hin as [_ Hdead].
  apply (Hdead (a_sha a) eq_refl). rewrite <- Hs.
  apply live_entry with (s := fst x) (entries := snd x).
  - now apply Hlive.
  - apply Hnb. destruct x as [s es]. eapply JsMapFacts.In_keys; eauto.
  - now apply Hlook1.
  - exact He.
Qed.
End CollectBeforeCommit.

(** ** The collector always completes *)

Section CollectorCompletes.
Variable JSON_parse : string -> option JsVal.

(** X23: on every state, configuration and list of roots the collector runs to
    its end: the marking loop stops, also when stored trees refer to each
    other in a cycle or to objects that are not stored, and nothing in it
    throws. *)
Theorem gc_completes (config : Config) (_roots : list string) (st : State) :
  exists st', garbageCollectGitObjects JSON_parse config _roots st = Returns st'.
Proof. apply garbageCollectGitObjects_terminates. Qed.
End CollectorCompletes.

(** ** The list of changed items *)

Section ChangedItemsFacts.
Variable encodeURIComponent : string -> string.

Lemma map_is_empty {A B} (f : A -> B) (l : list A) (items : list B) :
  (if is_empty l then items else items ++ map f l) = items ++ map f l.
Proof. destruct l; cbn; [now rewrite app_nil_r|reflexivity]. Qed.

Lemma collectionItems_eq basePath changeMap items key :
  collectionItems encodeURIComponent basePath changeMap items key
  = items ++ changesOf encodeURIComponent basePath changeMap key.
Proof.
  unfold collectionItems, changesOf.
  destruct (JsMap.get (ChangeMap.collections changeMap) key) as [counts|];
    [|now rewrite app_nil_r].
  destruct (is_empty (Counts.added counts) && is_empty (Counts.changed counts)
            && is_empty (Counts.removed counts)) eqn:E.
  - apply andb_true_iff in E as [E E3]. apply andb_true_iff in E as [E1 E2].
    destruct (Counts.added counts); [|discriminate].
    destruct (Counts.changed counts); [|discriminate].
    destruct (Counts.removed counts); [|discriminate].
    cbn. now rewrite app_nil_r.
  - cbv zeta. rewrite !map_is_empty. now rewrite <- !app_assoc.
Qed.

Lemma In_changesOf basePath changeMap key item :
  In item (changesOf encodeURIComponent basePath changeMap key) <->
  exists counts type slug,
    JsMap.get (ChangeMap.collections changeMap) key = Some counts
    /\ In slug (slugsOf type counts)
    /\ item = collectionChange encodeURIComponent basePath key type slug.
Proof.
  unfold changesOf.
  destruct (JsMap.get (ChangeMap.collections changeMap) key) as [counts|].
  - rewrite !in_app_iff, !in_map_iff. split.
    + intros [(slug & <- & Hs)|[(slug & <- & Hs)|(slug & <- & Hs)]].
      * exists counts, ChangeType.changed, slug. auto.
      * exists counts, ChangeType.added, slug. auto.
      * exists counts, ChangeType.removed, slug. auto.
    + intros (counts' & type & slug & [= <-] & Hs & ->).
      destruct type; cbn [slugsOf] in Hs; eauto.
  - split; [intros []|]. intros (counts & _ & _ & H & _). discriminate.
Qed.

Lemma fold_collectionItems basePath changeMap keys items :
  fold_left (collectionItems encodeURIComponent basePath changeMap) keys items
  = items ++ flat_map (changesOf encodeURIComponent basePath changeMap) keys.
Proof.
  revert items. induction keys as [|key r IH]; intros items; cbn [fold_left flat_map].
  - now rewrite app_nil_r.
  - now rewrite IH, collectionItems_eq, <- app_assoc.
Qed.

Lemma fold_singletonItems basePath changeMap slugs items :
  fold_left (singletonItems encodeURIComponent basePath changeMap) slugs items
  = items
    ++ map (singletonChange encodeURIComponent basePath)
           (filter (JsSet.has String.eqb (ChangeMap.singletons changeMap)) slugs).
Proof.
  revert items. induction slugs as [|slug r IH]; intros items; cbn [fold_left filter].
  - now rewrite app_nil_r.
  - rewrite IH. unfold singletonItems.
    destruct (JsSet.has String.eqb (ChangeMap.singletons changeMap) slug);
      cbn [map]; [now rewrite <- app_assoc|reflexivity].
Qed.

(** X24: an item is listed exactly when it is a change of a collection of the
    configuration, or a changed singleton of the configuration: what has
    changed but is not in the configuration is never listed. *)
Theorem getChangedItems_In (basePath : string)
    (collections singletons : option (list string)) (changeMap : ChangeMap.t)
    (item : Change.t) :
  In item (getChangedItems encodeURIComponent basePath collections singletons changeMap)
  <->
  (exists keys key counts type slug,
      collections = Some keys /\ In key keys
      /\ JsMap.get (ChangeMap.collections changeMap) key = Some counts
      /\ In slug (slugsOf type counts)
      /\ item = collectionChange encodeURIComponent basePath key type slug)
  \/ (exists slugs slug,
        singletons = Some slugs /\ In slug slugs
        /\ In slug (ChangeMap.singletons changeMap)
        /\ item = singletonChange encodeURIComponent basePath slug).
Proof.
  unfold getChangedItems.
  assert (Hc : forall items,
            items = match collections with
                    | Some keys =>
                        fold_left (collectionItems encodeURIComponent basePath changeMap)
                                  keys []
                    | None => []
                    end ->
            (In item items <->
             exists keys key counts type slug,
               collections = Some keys /\ In key keys
               /\ JsMap.get (ChangeMap.collections changeMap) key = Some counts
               /\ In slug (slugsOf type counts)
               /\ item = collectionChange encodeURIComponent basePath key type slug)).
  { intros items ->. destruct collections as [keys|].
    - rewrite fold_collectionItems. cbn [app]. rewrite in_flat_map. split.
      + intros (key & Hkey & Hitem).
        apply In_changesOf in Hitem as (counts & type & slug & Hget & Hs & ->).
        exists keys, key, counts, type, slug. repeat split; assumption.
      + intros (keys' & key & counts & type & slug & [= <-] & Hkey & Hget & Hs & ->).
        exists key. split; [exact Hkey|]. apply In_changesOf.
        exists counts, type, slug. repeat split; assumption.
    - split; [intros []|]. intros (keys & ? & ? & ? & ? & H & _). discriminate. }
  specialize (Hc _ eq_refl).
  destruct singletons as [slugs|].
  - rewrite fold_singletonItems, in_app_iff, Hc, in_map_iff.
    apply or_iff_compat_l. split.
    + intros (slug & <- & Hs). apply filter_In in Hs as [Hs Hhas].
      exists slugs, slug. repeat split; try assumption.
      now apply (JsSetFacts.has_In _ JsSetFacts.string_eqb_eq).
    + intros (slugs' & slug & [= <-] & Hs & Hin & ->). exists slug.
      split; [reflexivity|]. apply filter_In. split; [exact Hs|].
      now apply (JsSetFacts.has_In _ JsSetFacts.string_eqb_eq).
  - rewrite Hc. split; [now left|]. intros [H|(slugs & ? & H & _)]; [exact H|discriminate].
Qed.
End ChangedItemsFacts.

(** ** The further properties at sample data *)

Lemma site_shaConsistent : shaConsistent (collectTrees "root" Sample.site []).
Proof.
  intros s e1 e2 H1 H2. simpl in H1, H2.
  destruct H1 as [H1|[H1|[H1|[]]]], H2 as [H2|[H2|[H2|[]]]]; congruence.
Qed.

Lemma site_shas_no_blob_keys :
  forall s, In s (JsMap.keys (collectTrees "root" Sample.site [])) ->
            ~ In (KString s) (map fst (blobStore Scenario.siteBlobs)).
Proof.
  intros s Hs Hin. simpl in Hs, Hin.
  destruct Hs as [<-|[<-|[<-|[]]]];
    repeat (destruct Hin as [Hin|Hin]; [discriminate|]); exact Hin.
Qed.





Lemma getStoredTrees_exact_witness :
  JsMap.get (fst (getStoredTrees Scenario.mixedStore)) "A"
  = Some [Sample.storedEntry "x" "100644" "B"].
Proof.
  assert (Hnd : NoDup (map fst (treeStore Scenario.mixedStore))).
  { simpl. repeat constructor; simpl; intuition discriminate. }
  apply (proj1 (@getStoredTrees_exact Scenario.mixedStore eq_refl Hnd)).
  exists (singleEntryTree "x" "100644" "B"). split; [|reflexivity].
  right. now left.
Defined.

Lemma setTree_getTree_witness :
  fst (getTreeFromPersistedCache 3 "root" Scenario.siteStored)
  = Returns (Some (rootNode "root" Sample.site)).
Proof.
  apply (@setTree_getTree "root" Sample.site Scenario.siteBlobs 3).
  - reflexivity.
  - exact site_shaConsistent.
  - constructor.
  - cbv. lia.
Defined.

Lemma setTree_stored_trees_witness :
  JsMap.get (fst (getStoredTrees Scenario.siteStored)) "t2"
  = Some [Sample.storedEntry "x.png" "100644" "b2";
          Sample.storedEntry "y.png" "100644" "b3"].
Proof.
  apply (proj1 (@setTree_stored_trees "root" Sample.site Scenario.siteBlobs
                  site_shaConsistent (NoDup_nil _))).
  now left.
Defined.

Lemma gc_cache_in_sync_witness :
  _storedTreeCache Scenario.keptA = Some (scanTrees (treeStore Scenario.keptA)).
Proof.
  apply (@gc_cache_in_sync Sample.noJSON Sample.localConfig ["A"]
           Scenario.twoTrees Scenario.keptA).
  - now left.
  - simpl. repeat constructor; simpl; intuition discriminate.
  - reflexivity.
Defined.

Lemma setTree_gc_getTree_witness :
  fst (getTreeFromPersistedCache 3 "root" Scenario.siteCollected)
  = Returns (Some (rootNode "root" Sample.site)).
Proof.
  apply (@setTree_gc_getTree Sample.noJSON Sample.localConfig ["root"] "root"
           Sample.site Scenario.siteBlobs Scenario.siteCollected 3).
  - reflexivity.
  - exact site_shaConsistent.
  - constructor.
  - exact I.
  - exact site_shas_no_blob_keys.
  - cbv. lia.
  - now left.
  - vm_compute. reflexivity.
Defined.

Lemma clearObjectStore_then_reads_witness :
  let st' := clearObjectStore Sample.localConfig Sample.withInvalidTree in
  getBlobFromPersistedCache "B" st' = None
  /\ fst (getTreeFromPersistedCache 1 "A" st') = Returns None.
Proof.
  destruct (@clearObjectStore_then_reads Sample.noJSON Sample.localConfig
              Sample.withInvalidTree eq_refl) as (_ & Hblob & Htree & _).
  split; [apply Hblob|apply Htree].
Defined.

Lemma getExtraRoots_valid_witness :
  exists roots,
    getExtraRoots Scenario.parseRoots Sample.localConfig Scenario.withRoots
    = Returns roots
    /\ JsMap.keys roots = ["main"].
Proof.
  destruct (@getExtraRoots_valid Scenario.parseRoots Sample.localConfig
              Scenario.withRoots Scenario.rootsText Scenario.rootsFields)
    as (roots & Hget & Hkeys & _).
  - reflexivity.
  - discriminate.
  - reflexivity.
  - simpl. repeat constructor. intros [].
  - intros branch v [[= <- <-]|[]]. discriminate.
  - exists roots. split; [exact Hget|exact Hkeys].
Defined.

Lemma constructTree_shape_witness :
  exists c,
    rootNode "root" Sample.site
    = mkTreeNode {| TreeEntry.mode := treeMode; TreeEntry.path := "";
                    TreeEntry.sha := "root"; TreeEntry.type := tree |} (Some c)
    /\ shapedChildren "" c = true
    /\ JsMap.get Scenario.siteTrees "root" <> None.
Proof.
  apply (@constructTree_shape 3 "root" Scenario.siteTrees "").
  vm_compute. reflexivity.
Defined.

Lemma diffTrees_to_empty_witness :
  diffTrees Sample.site JsMap.empty
  = {| additions := []; deletions := getLeafPaths Sample.site |}.
Proof.
  apply diffTrees_to_empty.
  - apply nodupb_NoDup. reflexivity.
  - intros p e [H|[H|[]]]; [discriminate H|].
    injection H as <- <-. discriminate.
Defined.

Lemma diffTrees_additions_changed_witness :
  blobAt Scenario.siteEdited "readme" "b9"
  /\ ~ blobAt Sample.site "readme" "b9".
Proof.
  apply (@diffTrees_additions_changed Sample.site Scenario.siteEdited
           {| a_path := "readme"; a_sha := "b9" |} eq_refl eq_refl).
  now left.
Defined.

Lemma diffTrees_deletions_gone_witness :
  pathIn Sample.site "docs/a.md" /\ ~ pathIn Sample.siteWithoutDocs "docs/a.md".
Proof.
  apply (@diffTrees_deletions_gone Sample.site Sample.siteWithoutDocs "docs/a.md"
           eq_refl eq_refl).
  now left.
Defined.

Lemma diffTrees_additions_complete_witness :
  In {| a_path := "docs/a.md"; a_sha := "b1" |}
     (additions (diffTrees Sample.site Scenario.siteEdited))
  \/ keptAt Sample.site Scenario.siteEdited "docs/a.md".
Proof.
  apply (@diffTrees_additions_complete Sample.site Scenario.siteEdited "docs/a.md" "b1").
  refine (@blobAt_below Scenario.siteEdited "docs"
            {| TreeEntry.path := "docs"; TreeEntry.mode := treeMode;
               TreeEntry.sha := "t1"; TreeEntry.type := tree |}
            Sample.docs "a.md" "b1" _ eq_refl _).
  - now left.
  - refine (@blobAt_here Sample.docs "a.md"
              {| TreeEntry.path := "docs/a.md"; TreeEntry.mode := "100644";
                 TreeEntry.sha := "b1"; TreeEntry.type := blob |} None _ eq_refl).
    now left.
Defined.

Lemma diffTrees_additions_nodup_witness :
  NoDup (map a_path (additions (diffTrees Sample.site Sample.siteWithoutDocs))).
Proof.
  exact (@diffTrees_additions_nodup Sample.site Sample.siteWithoutDocs eq_refl).
Defined.

Lemma diffTrees_deletions_nodup_witness :
  NoDup (deletions (diffTrees Sample.site Sample.siteWithoutDocs)).
Proof.
  exact (@diffTrees_deletions_nodup Sample.site Sample.siteWithoutDocs eq_refl eq_refl).
Defined.

Lemma fileA_blobs_stored :
  forall path sha, blobAt Sample.fileA path sha ->
                   getBlobFromPersistedCache sha Scenario.siteBlobs <> None.
Proof.
  intros path sha H.
  apply blobAt_inv in H
    as [(e & ch & Hin & _ & <-)|(p & e & c & q & _ & Hin & Ht & _)];
    destruct Hin as [[= <- <- <-]|[]]; discriminate.
Qed.

Lemma commitFileChanges_ready_witness :
  exists adds,
    commitFileChanges Sample.dirA Sample.fileA Scenario.siteBlobs
    = Changes adds (map FileDeletion.mk (deletions (diffTrees Sample.dirA Sample.fileA))).
Proof.
  destruct (@commitFileChanges_ready Sample.dirA Sample.fileA Scenario.siteBlobs
              fileA_blobs_stored) as (adds & H & _).
  now exists adds.
Defined.

Lemma commitFileChanges_fails_witness :
  exists a',
    In a' (additions (diffTrees Sample.site Sample.siteWithoutDocs))
    /\ getBlobFromPersistedCache (a_sha a') Scenario.siteBlobs = None
    /\ commitFileChanges Sample.site Sample.siteWithoutDocs Scenario.siteBlobs
       = Failed (failedToGetBlob a').
Proof.
  apply (@commitFileChanges_fails Sample.site Sample.siteWithoutDocs
           Scenario.siteBlobs {| a_path := "readme"; a_sha := "b5" |}).
  - now left.
  - reflexivity.
Defined.

Lemma gc_keeps_commit_blobs_witness :
  commitFileChanges Scenario.siteEdited Sample.site Scenario.siteCollected
  = commitFileChanges Scenario.siteEdited Sample.site Scenario.siteBlobs.
Proof.
  apply (@gc_keeps_commit_blobs Sample.noJSON Sample.localConfig ["root"] "root"
           Scenario.siteEdited Sample.site Scenario.siteBlobs Scenario.siteCollected).
  - exact site_shaConsistent.
  - constructor.
  - exact I.
  - exact site_shas_no_blob_keys.
  - now left.
  - vm_compute. reflexivity.
Defined.
